(** * broadcast-relay: a shallow embedding of [main.go] and its properties

    The relay listens on one UDP socket and fans every datagram out to a
    fixed list of targets.  The embedding follows [main.go]:

    - [Stats] and its three mutators, with Go's [uint64] wrap-around;
    - [NewRelay] as a function of the configuration and of the answers of
      the operating system (name resolution, bind, setsockopt);
    - [parseConfig]'s treatment of the [-targets] flag;
    - the goroutines ([main]/[Stop], [receiveLoop], [statsReporter] and the
      forward goroutines) as one interleaving machine: a scheduler label
      picks the goroutine that runs its next atomic block, and carries what
      the network answers there.  The receive buffer is one shared store;
      a forward goroutine holds a slice of it, not a copy.  A run ends
      where the process does: no step follows a panic or the return of
      [main]. *)

From Stdlib Require Import String Ascii ZArith List Bool Lia DecimalString
  DecimalZ Permutation.
Import ListNotations.
Open Scope Z_scope.

(** ** Machine integers and bytes *)

Definition byte := Byte.byte.
Definition bytes := list byte.

(** Go's [uint64]: arithmetic is modulo 2^64. *)
Module U64.
Definition modulus : Z := 2 ^ 64.
Definition wrap (x : Z) : Z := x mod modulus.
(** [x++] *)
Definition incr (x : Z) : Z := wrap (x + 1).
(** [x += y] *)
Definition add (x y : Z) : Z := wrap (x + y).
(** [uint64(i)] for an [int] (64 bits on every platform of the Makefile) *)
Definition of_int (i : Z) : Z := wrap i.
Definition in_range (x : Z) : Prop := 0 <= x < modulus.
End U64.

(** ** Addresses: [net.IP], [net.UDPAddr] *)

Definition IP := bytes.

Record UDPAddr := mkUDPAddr {
  addr_IP : IP;
  addr_Port : Z;
  addr_Zone : string
}.

Fixpoint bytes_eqb (a b : bytes) : bool :=
  match a, b with
  | [], [] => true
  | x :: a', y :: b' => Byte.eqb x y && bytes_eqb a' b'
  | _, _ => false
  end.

Definition IPv4len : nat := 4.
Definition IPv6len : nat := 16.

Definition v4InV6Prefix : bytes :=
  [Byte.x00; Byte.x00; Byte.x00; Byte.x00; Byte.x00; Byte.x00;
   Byte.x00; Byte.x00; Byte.x00; Byte.x00; Byte.xff; Byte.xff].

(** [net.IP.Equal] of Go's standard library: the same bytes, or a 4-byte
    IPv4 address against the same address in its 16-byte IPv4-in-IPv6 form. *)
Definition IP_Equal (ip x : IP) : bool :=
  if Nat.eqb (length ip) (length x) then bytes_eqb ip x
  else if Nat.eqb (length ip) IPv4len && Nat.eqb (length x) IPv6len then
    bytes_eqb (firstn 12 x) v4InV6Prefix && bytes_eqb ip (skipn 12 x)
  else if Nat.eqb (length ip) IPv6len && Nat.eqb (length x) IPv4len then
    bytes_eqb (firstn 12 ip) v4InV6Prefix && bytes_eqb (skipn 12 ip) x
  else false.

(** The test of [receiveLoop], line 222:
    [srcAddr.IP.Equal(target.IP) && srcAddr.Port == target.Port]. *)
Definition is_source (srcAddr target : UDPAddr) : bool :=
  IP_Equal (addr_IP srcAddr) (addr_IP target)
  && (addr_Port srcAddr =? addr_Port target).

(** ** Stats *)

Record Stats := mkStats {
  PacketsReceived : Z;
  PacketsForwarded : Z;
  BytesReceived : Z;
  BytesForwarded : Z;
  Errors : Z
}.

(** [&Stats{}] *)
Definition Stats_zero : Stats := mkStats 0 0 0 0 0.

(** Each mutator runs under [s.mu], so it is one atomic update. *)
Definition AddReceived (s : Stats) (n : Z) : Stats :=
  mkStats (U64.incr (PacketsReceived s)) (PacketsForwarded s)
          (U64.add (BytesReceived s) (U64.of_int n)) (BytesForwarded s)
          (Errors s).

Definition AddForwarded (s : Stats) (n : Z) : Stats :=
  mkStats (PacketsReceived s) (U64.incr (PacketsForwarded s))
          (BytesReceived s) (U64.add (BytesForwarded s) (U64.of_int n))
          (Errors s).

Definition AddError (s : Stats) : Stats :=
  mkStats (PacketsReceived s) (PacketsForwarded s)
          (BytesReceived s) (BytesForwarded s)
          (U64.incr (Errors s)).

Definition Stats_in_range (s : Stats) : Prop :=
  U64.in_range (PacketsReceived s) /\ U64.in_range (PacketsForwarded s) /\
  U64.in_range (BytesReceived s) /\ U64.in_range (BytesForwarded s) /\
  U64.in_range (Errors s).

(** ** Configuration *)

Record Config := mkConfig {
  ListenPort : Z;
  ListenAddr : string;
  TargetAddrs : list string;
  BufferSize : Z;
  Verbose : bool;
  ShowVersion : bool
}.

(** ** Construction: [NewRelay] *)

(** What the operating system answers to the calls of [NewRelay]. *)
Record OS := mkOS {
  (** [net.ResolveUDPAddr("udp", s)]; [None] is an error *)
  ResolveUDPAddr : string -> option UDPAddr;
  (** [net.ListenUDP("udp", addr)]: does the bind succeed? *)
  ListenUDP : UDPAddr -> bool;
  (** [conn.SetReadBuffer(n)]: does setsockopt succeed? *)
  SetReadBuffer : Z -> bool;
  (** the receive buffer size a fresh socket has *)
  default_rcvbuf : Z
}.

(** The listening socket, as far as the program can tell. *)
Record UDPConn := mkUDPConn {
  conn_laddr : UDPAddr;
  conn_rcvbuf : Z
}.

Record Relay := mkRelay {
  config : Config;
  conn : UDPConn;
  targetConns : list UDPAddr
}.

Inductive construct_error :=
| ErrResolveTarget (target : string)
| ErrResolveListen
| ErrListen.

(** The calls and log lines [NewRelay] makes, in order. *)
Inductive sys_action :=
| SysResolve (s : string)
| SysListen (addr : UDPAddr)
| SysSetReadBuffer (n : Z)
| SysWarnReadBuffer.

(** [fmt.Sprintf("%s:%d", addr, port)] *)
Definition format_int (z : Z) : string :=
  DecimalString.NilEmpty.string_of_int (Z.to_int z).

Definition format_listen (addr : string) (port : Z) : string :=
  (addr ++ ":" ++ format_int port)%string.

(** The loop of lines 137-143: the first target that does not resolve ends
    the construction. *)
Fixpoint resolve_targets (os : OS) (targets : list string) (acc : list UDPAddr)
  : list sys_action * (construct_error + list UDPAddr) :=
  match targets with
  | [] => ([], inr acc)
  | target :: rest =>
      match ResolveUDPAddr os target with
      | None => ([SysResolve target], inl (ErrResolveTarget target))
      | Some addr =>
          let '(acts, r) := resolve_targets os rest (acc ++ [addr]) in
          (SysResolve target :: acts, r)
      end
  end.

Definition NewRelay (os : OS) (config : Config)
  : list sys_action * (construct_error + Relay) :=
  match resolve_targets os (TargetAddrs config) [] with
  | (acts, inl e) => (acts, inl e)
  | (acts, inr targetConns) =>
      let listenAddr := format_listen (ListenAddr config) (ListenPort config) in
      match ResolveUDPAddr os listenAddr with
      | None => (acts ++ [SysResolve listenAddr], inl ErrResolveListen)
      | Some addr =>
          if ListenUDP os addr then
            if SetReadBuffer os (BufferSize config) then
              (acts ++ [SysResolve listenAddr; SysListen addr;
                        SysSetReadBuffer (BufferSize config)],
               inr (mkRelay config (mkUDPConn addr (BufferSize config))
                            targetConns))
            else
              (acts ++ [SysResolve listenAddr; SysListen addr;
                        SysSetReadBuffer (BufferSize config);
                        SysWarnReadBuffer],
               inr (mkRelay config (mkUDPConn addr (default_rcvbuf os))
                            targetConns))
          else (acts ++ [SysResolve listenAddr; SysListen addr], inl ErrListen)
      end
  end.

(** ** The command line: [parseConfig] after [flag.Parse] *)

Record Flags := mkFlags {
  flag_port : Z;
  flag_listen : string;
  flag_targets : string;
  flag_buffer : Z;
  flag_verbose : bool;
  flag_version : bool
}.

(** [os.Exit(code)] or the configuration returned. *)
Inductive parse_result :=
| Exit (code : Z)
| Parsed (c : Config).

(** [strings.Split(s, ",")]: the pieces between commas, at least one. *)
Fixpoint split_comma (s : string) : list string :=
  match s with
  | EmptyString => [EmptyString]
  | String c rest =>
      if Ascii.eqb c ","%char then EmptyString :: split_comma rest
      else match split_comma rest with
           | [] => [String c EmptyString]
           | piece :: pieces => String c piece :: pieces
           end
  end.

Definition string_is_empty (s : string) : bool :=
  match s with EmptyString => true | _ => false end.

Section ParseConfig.
(** [strings.TrimSpace] of Go's standard library. *)
Variable TrimSpace : string -> string.

(** Lines 113-118. *)
Fixpoint collect_targets (pieces : list string) (acc : list string)
  : list string :=
  match pieces with
  | [] => acc
  | target :: rest =>
      let target := TrimSpace target in
      if negb (string_is_empty target)
      then collect_targets rest (acc ++ [target])
      else collect_targets rest acc
  end.

Definition parseConfig (f : Flags) : parse_result :=
  if flag_version f then Exit 0
  else if string_is_empty (flag_targets f) then Exit 1
  else
    let TargetAddrs := collect_targets (split_comma (flag_targets f)) [] in
    if Nat.eqb (length TargetAddrs) 0 then Exit 1
    else Parsed (mkConfig (flag_port f) (flag_listen f) TargetAddrs
                          (flag_buffer f) (flag_verbose f) (flag_version f)).
End ParseConfig.

(** ** The running relay: goroutines as an interleaving machine *)

Inductive log_line :=
| LogWarnReadBuffer    (* "Warning: failed to set read buffer size", NewRelay *)
| LogStarting
| LogListening (addr : string) (port : Z)
| LogForwardingTo (targets : list string)
| LogReadError
| LogReceived (n : Z) (srcAddr : UDPAddr)
| LogSkip (target : UDPAddr)
| LogDialError (target : UDPAddr)
| LogWriteError (target : UDPAddr)
| LogForwarded (n : Z) (target : UDPAddr)
| LogStats (s : Stats)
| LogStopping
| LogFinalStats (s : Stats)
| LogStopped.

(** [buffer[:n]]: a view of the first [slice_len] bytes of the receive
    buffer.  It shares the buffer's backing array: its bytes are whatever
    the buffer holds when the slice is read. *)
Record slice := mkSlice { slice_len : nat }.

Definition slice_bytes (buffer : bytes) (s : slice) : bytes :=
  firstn (slice_len s) buffer.

(** A goroutine started by [go r.forwardPacket(data, target)] that has not
    run yet. *)
Record goroutine := mkGo {
  fw_data : slice;
  fw_target : UDPAddr
}.

(** Program points of [main] from [relay.Start()] on; [Stop] is inlined. *)
Inductive main_pc :=
| MainCreated        (* NewRelay returned; next: r.Start() *)
| MainWaitSignal     (* <-sigChan *)
| StopLogStopping    (* log.Println("Stopping relay...") *)
| StopCloseChan      (* close(r.stopChan) *)
| StopCloseConn      (* r.conn.Close() *)
| StopWait           (* r.wg.Wait() *)
| StopLogFinal       (* log.Printf("Final stats: %s", ...) *)
| StopLogStopped     (* log.Println("Relay stopped") *)
| MainDone.          (* Stop has returned, and main with it *)

(** Program points of [receiveLoop]. *)
Inductive recv_pc :=
| RcvNotStarted
| RcvEntry           (* buffer := make([]byte, BufferSize) *)
| RcvSelect          (* the select at the top of the loop *)
| RcvRead            (* r.conn.ReadFromUDP(buffer) *)
| RcvErrSelect       (* the select after a read error that is no timeout *)
| RcvDone.           (* returned; the deferred r.wg.Done() has run *)

(** Program points of [statsReporter]. *)
Inductive rep_pc :=
| RepNotStarted
| RepSelect
| RepDone.

Record State := mkState {
  relay : Relay;
  conn_closed : bool;
  stopChan_closed : bool;
  wg : Z;
  stats : Stats;
  buffer : bytes;
  main_at : main_pc;
  recv_at : recv_pc;
  rep_at : rep_pc;
  forwards : list goroutine;
  log : list log_line;
  sent : list (UDPAddr * bytes)
}.

Definition init (r : Relay) : State :=
  mkState r false false 0 Stats_zero [] MainCreated RcvNotStarted
          RepNotStarted [] [] [].

Definition set_conn_closed (b : bool) (st : State) : State :=
  mkState (relay st) b (stopChan_closed st) (wg st) (stats st) (buffer st)
          (main_at st) (recv_at st) (rep_at st) (forwards st) (log st)
          (sent st).
Definition set_stopChan_closed (b : bool) (st : State) : State :=
  mkState (relay st) (conn_closed st) b (wg st) (stats st) (buffer st)
          (main_at st) (recv_at st) (rep_at st) (forwards st) (log st)
          (sent st).
Definition set_wg (n : Z) (st : State) : State :=
  mkState (relay st) (conn_closed st) (stopChan_closed st) n (stats st)
          (buffer st) (main_at st) (recv_at st) (rep_at st) (forwards st)
          (log st) (sent st).
Definition set_stats (s : Stats) (st : State) : State :=
  mkState (relay st) (conn_closed st) (stopChan_closed st) (wg st) s
          (buffer st) (main_at st) (recv_at st) (rep_at st) (forwards st)
          (log st) (sent st).
Definition set_buffer (b : bytes) (st : State) : State :=
  mkState (relay st) (conn_closed st) (stopChan_closed st) (wg st) (stats st)
          b (main_at st) (recv_at st) (rep_at st) (forwards st) (log st)
          (sent st).
Definition set_main (pc : main_pc) (st : State) : State :=
  mkState (relay st) (conn_closed st) (stopChan_closed st) (wg st) (stats st)
          (buffer st) pc (recv_at st) (rep_at st) (forwards st) (log st)
          (sent st).
Definition set_recv (pc : recv_pc) (st : State) : State :=
  mkState (relay st) (conn_closed st) (stopChan_closed st) (wg st) (stats st)
          (buffer st) (main_at st) pc (rep_at st) (forwards st) (log st)
          (sent st).
Definition set_rep (pc : rep_pc) (st : State) : State :=
  mkState (relay st) (conn_closed st) (stopChan_closed st) (wg st) (stats st)
          (buffer st) (main_at st) (recv_at st) pc (forwards st) (log st)
          (sent st).
Definition set_forwards (gs : list goroutine) (st : State) : State :=
  mkState (relay st) (conn_closed st) (stopChan_closed st) (wg st) (stats st)
          (buffer st) (main_at st) (recv_at st) (rep_at st) gs (log st)
          (sent st).
Definition add_log (ls : list log_line) (st : State) : State :=
  mkState (relay st) (conn_closed st) (stopChan_closed st) (wg st) (stats st)
          (buffer st) (main_at st) (recv_at st) (rep_at st) (forwards st)
          (log st ++ ls) (sent st).
Definition add_sent (target : UDPAddr) (payload : bytes) (st : State) : State :=
  mkState (relay st) (conn_closed st) (stopChan_closed st) (wg st) (stats st)
          (buffer st) (main_at st) (recv_at st) (rep_at st) (forwards st)
          (log st) (sent st ++ [(target, payload)]).

Definition verbose (st : State) : bool := Verbose (config (relay st)).

(** [if r.config.Verbose { log.Printf(...) }] *)
Definition log_if_verbose (l : log_line) (st : State) : State :=
  if verbose st then add_log [l] st else st.

(** [go f(...)] *)
Definition spawn (g : goroutine) (st : State) : State :=
  set_forwards (forwards st ++ [g]) st.

(** *** The network, as the scheduler label carries it *)

(** What the socket has for a pending [ReadFromUDP]. *)
Inductive net_input :=
| InDatagram (srcAddr : UDPAddr) (payload : bytes)
| InTimeout          (* the read deadline passes *)
| InError.           (* an error that is no timeout *)

Inductive read_result :=
| ReadOk (n : Z) (srcAddr : UDPAddr)
| ReadTimeout
| ReadError.

(** [r.conn.ReadFromUDP(buffer)]: a datagram is copied to the front of the
    buffer, cut at the buffer's length; the bytes behind it stay.  A closed
    socket delivers nothing but an error ([None]: the socket cannot answer
    that way). *)
Definition ReadFromUDP (closed : bool) (inp : net_input) (buffer : bytes)
  : option (bytes * read_result) :=
  match inp with
  | InError => Some (buffer, ReadError)
  | InTimeout => if closed then None else Some (buffer, ReadTimeout)
  | InDatagram srcAddr payload =>
      if closed then None
      else
        let n := Nat.min (length payload) (length buffer) in
        Some (firstn n payload ++ skipn n buffer, ReadOk (Z.of_nat n) srcAddr)
  end.

(** What the network answers to one [forwardPacket]. *)
Inductive forward_outcome :=
| DialFails          (* net.DialUDP returns an error *)
| WriteFails         (* conn.Write returns an error *)
| WriteSucceeds.     (* conn.Write sends the datagram: n = len(data) *)

Inductive label :=
| LMain                                   (* main runs its next block *)
| LSignal                                 (* SIGINT or SIGTERM arrives *)
| LRecv                                   (* receiveLoop: a block that is no read *)
| LRead (inp : net_input)                 (* receiveLoop: ReadFromUDP returns *)
| LTick                                   (* statsReporter: <-ticker.C *)
| LReporterStop                           (* statsReporter: <-r.stopChan *)
| LForward (i : nat) (o : forward_outcome). (* the i-th pending forward runs *)

(** *** The end of the process *)

(** [Stop] has returned to [main], which returns in turn: the process has
    exited, and with it every goroutine that was still pending.  [Stop]
    returns only after [r.wg.Wait()], that is after the receive loop has
    returned, so the test reads both program points; in a run it holds
    exactly when [main] is done.  [main] and the receive loop have no step
    at these points; the reporter and the forwards test it before theirs. *)
Definition process_exited (st : State) : bool :=
  match main_at st, recv_at st with
  | MainDone, RcvDone => true
  | _, _ => false
  end.

(** *** [Start] and [Stop] *)

Definition Start (st : State) : State :=
  let st := add_log [LogStarting;
                     LogListening (ListenAddr (config (relay st)))
                                  (ListenPort (config (relay st)));
                     LogForwardingTo (TargetAddrs (config (relay st)))] st in
  let st := set_wg (wg st + 1) st in
  let st := set_recv RcvEntry st in
  if verbose st then set_rep RepSelect (set_wg (wg st + 1) st) else st.

Definition step_main (st : State) : option State :=
  match main_at st with
  | MainCreated => Some (set_main MainWaitSignal (Start st))
  | MainWaitSignal => None
  | StopLogStopping => Some (set_main StopCloseChan (add_log [LogStopping] st))
  | StopCloseChan =>
      (* closing a closed channel panics *)
      if stopChan_closed st then None
      else Some (set_main StopCloseConn (set_stopChan_closed true st))
  | StopCloseConn => Some (set_main StopWait (set_conn_closed true st))
  | StopWait =>
      if wg st =? 0 then Some (set_main StopLogFinal st) else None
  | StopLogFinal =>
      Some (set_main StopLogStopped (add_log [LogFinalStats (stats st)] st))
  | StopLogStopped => Some (set_main MainDone (add_log [LogStopped] st))
  | MainDone => None
  end.

Definition step_signal (st : State) : option State :=
  match main_at st with
  | MainWaitSignal => Some (set_main StopLogStopping st)
  | _ => None
  end.

(** *** [receiveLoop] *)

(** The largest allocation of Go's runtime on the 64-bit platforms of the
    Makefile (48 address bits). *)
Definition maxAlloc : Z := 2 ^ 48.

(** [make([]byte, n)]: zeroed bytes; a panic ([None]) if [n] is negative or
    above the allocator limit.  Below the limit the outcome depends on the
    memory of the machine; the function lets the allocation succeed there,
    which adds runs and removes none: what holds of all runs holds of the
    runs a machine allows.  The runs that are shown to exist allocate the
    65535 bytes of the default. *)
Definition make_bytes (n : Z) : option bytes :=
  if (n <? 0) || (maxAlloc <? n) then None
  else Some (repeat Byte.x00 (Z.to_nat n)).

(** [return], with the deferred [r.wg.Done()]. *)
Definition recv_return (st : State) : State :=
  set_wg (wg st - 1) (set_recv RcvDone st).

(** The loop of lines 220-230 over [r.targetConns]. *)
Fixpoint forward_all (srcAddr : UDPAddr) (data : slice)
         (targets : list UDPAddr) (st : State) : State :=
  match targets with
  | [] => st
  | target :: rest =>
      if is_source srcAddr target
      then forward_all srcAddr data rest (log_if_verbose (LogSkip target) st)
      else forward_all srcAddr data rest (spawn (mkGo data target) st)
  end.

Definition step_recv (st : State) : option State :=
  match recv_at st with
  | RcvEntry =>
      (* a panic in make ends the process: the goroutine has no next
         state, and a run in which it stands at this point is a run in
         which it has not reached make yet *)
      match make_bytes (BufferSize (config (relay st))) with
      | None => None
      | Some buffer => Some (set_recv RcvSelect (set_buffer buffer st))
      end
  | RcvSelect =>
      if stopChan_closed st then Some (recv_return st)
      else Some (set_recv RcvRead st)
  | RcvErrSelect =>
      if stopChan_closed st then Some (recv_return st)
      else Some (set_recv RcvSelect
                   (set_stats (AddError (stats st))
                      (add_log [LogReadError] st)))
  | _ => None
  end.

Definition step_read (inp : net_input) (st : State) : option State :=
  match recv_at st with
  | RcvRead =>
      match ReadFromUDP (conn_closed st) inp (buffer st) with
      | None => None
      | Some (_, ReadTimeout) => Some (set_recv RcvSelect st)
      | Some (_, ReadError) => Some (set_recv RcvErrSelect st)
      | Some (buffer', ReadOk n srcAddr) =>
          let st := set_buffer buffer' st in
          let st := set_stats (AddReceived (stats st) n) st in
          let st := log_if_verbose (LogReceived n srcAddr) st in
          let data := mkSlice (Z.to_nat n) in
          Some (set_recv RcvSelect
                  (forward_all srcAddr data (targetConns (relay st)) st))
      end
  | _ => None
  end.

(** *** [forwardPacket] *)

Definition forwardPacket (g : goroutine) (o : forward_outcome) (st : State)
  : State :=
  match o with
  | DialFails =>
      set_stats (AddError (stats st))
                (add_log [LogDialError (fw_target g)] st)
  | WriteFails =>
      set_stats (AddError (stats st))
                (add_log [LogWriteError (fw_target g)] st)
  | WriteSucceeds =>
      (* conn.Write(data) sends the bytes of data as they are now and
         returns len(data) *)
      let payload := slice_bytes (buffer st) (fw_data g) in
      let n := Z.of_nat (slice_len (fw_data g)) in
      let st := add_sent (fw_target g) payload st in
      let st := set_stats (AddForwarded (stats st) n) st in
      log_if_verbose (LogForwarded n (fw_target g)) st
  end.

(** The list without its [i]-th element. *)
Fixpoint remove_nth {A} (i : nat) (l : list A) : list A :=
  match l, i with
  | [], _ => []
  | _ :: l', O => l'
  | x :: l', S i' => x :: remove_nth i' l'
  end.

Definition step_forward (i : nat) (o : forward_outcome) (st : State)
  : option State :=
  if process_exited st then None
  else
    match nth_error (forwards st) i with
    | None => None
    | Some g =>
        Some (forwardPacket g o (set_forwards (remove_nth i (forwards st)) st))
    end.

(** *** [statsReporter] *)

Definition rep_return (st : State) : State :=
  set_wg (wg st - 1) (set_rep RepDone st).

Definition step_tick (st : State) : option State :=
  if process_exited st then None
  else
    match rep_at st with
    | RepSelect => Some (add_log [LogStats (stats st)] st)
    | _ => None
    end.

Definition step_reporter_stop (st : State) : option State :=
  if process_exited st then None
  else
    match rep_at st with
    | RepSelect => if stopChan_closed st then Some (rep_return st) else None
    | _ => None
    end.

(** *** One step, and runs *)

(** [None]: the goroutine cannot take this step now, or the process has
    ended. *)

Definition step (l : label) (st : State) : option State :=
  match l with
  | LMain => step_main st
  | LSignal => step_signal st
  | LRecv => step_recv st
  | LRead inp => step_read inp st
  | LTick => step_tick st
  | LReporterStop => step_reporter_stop st
  | LForward i o => step_forward i o st
  end.

Fixpoint run (ls : list label) (st : State) : option State :=
  match ls with
  | [] => Some st
  | l :: ls' =>
      match step l st with
      | None => None
      | Some st' => run ls' st'
      end
  end.

Definition reachable (r : Relay) (st : State) : Prop :=
  exists ls, run ls (init r) = Some st.

(** ** [main] up to [relay.Start()] *)

Inductive boot_result :=
| BootExit (code : Z)                    (* parseConfig left the process *)
| BootFatal (e : construct_error)        (* log.Fatalf: exit status 1 *)
| BootCreated (st : State).              (* next: relay.Start() *)

(** What [NewRelay] has written to the log: its warning, if it gave one. *)
Fixpoint construction_log (acts : list sys_action) : list log_line :=
  match acts with
  | [] => []
  | SysWarnReadBuffer :: rest => LogWarnReadBuffer :: construction_log rest
  | _ :: rest => construction_log rest
  end.

(** The relay as [NewRelay] leaves it: nothing has run yet, and the log
    holds what the construction has logged. *)
Definition created (relay : Relay) (acts : list sys_action) : State :=
  add_log (construction_log acts) (init relay).

Definition main_boot (TrimSpace : string -> string) (os : OS) (f : Flags)
  : list sys_action * boot_result :=
  match parseConfig TrimSpace f with
  | Exit code => ([], BootExit code)
  | Parsed config =>
      match NewRelay os config with
      | (acts, inl e) => (acts, BootFatal e)
      | (acts, inr relay) => (acts, BootCreated (created relay acts))
      end
  end.

(** ** Concrete data for the examples *)

Module Ex.
(** 10.0.0.5:9999 *)
Definition T1 : UDPAddr :=
  mkUDPAddr [Byte.x0a; Byte.x00; Byte.x00; Byte.x05] 9999 "".
(** 10.0.0.6:9999 *)
Definition T2 : UDPAddr :=
  mkUDPAddr [Byte.x0a; Byte.x00; Byte.x00; Byte.x06] 9999 "".
(** 192.168.1.50:4000 *)
Definition S : UDPAddr :=
  mkUDPAddr [Byte.xc0; Byte.xa8; Byte.x01; Byte.x32] 4000 "".
(** 0.0.0.0:9999 *)
Definition L : UDPAddr :=
  mkUDPAddr [Byte.x00; Byte.x00; Byte.x00; Byte.x00] 9999 "".

Definition cfg1 : Config :=
  mkConfig 9999 "0.0.0.0" ["10.0.0.5:9999"%string] 65535 false false.
Definition cfg2 : Config :=
  mkConfig 9999 "0.0.0.0" ["10.0.0.5:9999"; "10.0.0.6:9999"]%string
           65535 false false.
Definition cfg0 : Config :=
  mkConfig 9999 "0.0.0.0" [] 65535 false false.

Definition relay1 : Relay := mkRelay cfg1 (mkUDPConn L 65535) [T1].
Definition relay2 : Relay := mkRelay cfg2 (mkUDPConn L 65535) [T1; T2].

(** A resolver that knows the three names of the examples. *)
Definition resolve (s : string) : option UDPAddr :=
  if String.eqb s "10.0.0.5:9999" then Some T1
  else if String.eqb s "10.0.0.6:9999" then Some T2
  else if String.eqb s "0.0.0.0:9999" then Some L
  else None.

Definition os_ok : OS := mkOS resolve (fun _ => true) (fun _ => true) 212992.
Definition os_small_rcvbuf : OS :=
  mkOS resolve (fun _ => true) (fun _ => false) 212992.
Definition os_port_taken : OS :=
  mkOS resolve (fun _ => false) (fun _ => true) 212992.

(** ASCII blanks only; enough for the examples. *)
Definition is_blank (c : ascii) : bool :=
  Ascii.eqb c " "%char || Ascii.eqb c "009"%char || Ascii.eqb c "010"%char
  || Ascii.eqb c "013"%char.
Fixpoint trim_left (s : string) : string :=
  match s with
  | String c rest => if is_blank c then trim_left rest else s
  | EmptyString => EmptyString
  end.
Fixpoint trim_right (s : string) : string :=
  match s with
  | EmptyString => EmptyString
  | String c rest =>
      match trim_right rest with
      | EmptyString => if is_blank c then EmptyString else String c EmptyString
      | rest' => String c rest'
      end
  end.
Definition trim (s : string) : string := trim_right (trim_left s).

Definition AAAA : bytes := [Byte.x41; Byte.x41; Byte.x41; Byte.x41].
Definition BB : bytes := [Byte.x42; Byte.x42].
Definition BBAA : bytes := [Byte.x42; Byte.x42; Byte.x41; Byte.x41].
End Ex.


(** ** Vocabulary of the properties *)

(** The endpoints differ: not both the same IP address and the same port. *)
Definition differs (srcAddr target : UDPAddr) : Prop :=
  ~ (IP_Equal (addr_IP srcAddr) (addr_IP target) = true
     /\ addr_Port srcAddr = addr_Port target).

(** The goroutines one datagram from [srcAddr] is expected to start. *)
Definition non_source_targets (srcAddr : UDPAddr) (targets : list UDPAddr)
  : list UDPAddr :=
  filter (fun target => negb (is_source srcAddr target)) targets.

(** The state the relay [r] is in when [receiveLoop] first sits in
    [ReadFromUDP]. *)
Definition at_first_read (r : Relay) : State :=
  match run [LMain; LRecv; LRecv] (init r) with
  | Some st => st
  | None => init r
  end.

(** Some target string does not resolve. *)
Definition target_unresolvable (os : OS) (config : Config) : Prop :=
  exists target,
    In target (TargetAddrs config) /\ ResolveUDPAddr os target = None.

Definition listen_unresolvable (os : OS) (config : Config) : Prop :=
  ResolveUDPAddr os (format_listen (ListenAddr config) (ListenPort config))
  = None.

Definition bind_fails (os : OS) (config : Config) : Prop :=
  exists addr,
    ResolveUDPAddr os (format_listen (ListenAddr config) (ListenPort config))
    = Some addr
    /\ ListenUDP os addr = false.

(** Every target resolves, and the listen address resolves and binds. *)
Definition construction_ready (os : OS) (config : Config) : Prop :=
  (forall target, In target (TargetAddrs config) ->
                  ResolveUDPAddr os target <> None)
  /\ exists addr,
      ResolveUDPAddr os (format_listen (ListenAddr config) (ListenPort config))
      = Some addr
      /\ ListenUDP os addr = true.

Definition is_SysListen (a : sys_action) : bool :=
  match a with SysListen _ => true | _ => false end.

Definition is_SysResolve (a : sys_action) : bool :=
  match a with SysResolve _ => true | _ => false end.

(** *** Invariants of the running relay *)

(** Has [receiveLoop] allocated its buffer? *)
Definition buffer_allocated (pc : recv_pc) : bool :=
  match pc with
  | RcvNotStarted | RcvEntry => false
  | _ => true
  end.

(** The counters are [uint64] values, the buffer has the configured size
    once it exists, every pending forward holds a slice that fits into it,
    and no forward is pending before the buffer exists. *)
Definition wf (st : State) : Prop :=
  Stats_in_range (stats st) /\
  Forall (fun g => (slice_len (fw_data g) <= length (buffer st))%nat)
         (forwards st) /\
  (buffer_allocated (recv_at st) = true ->
   length (buffer st) = Z.to_nat (BufferSize (config (relay st)))) /\
  (buffer_allocated (recv_at st) = false -> forwards st = []) /\
  (main_at st = MainCreated -> recv_at st = RcvNotStarted).

(** Log lines that only trace traffic. *)
Definition is_trace_line (l : log_line) : bool :=
  match l with
  | LogReceived _ _ | LogSkip _ | LogForwarded _ _ => true
  | _ => false
  end.

(** Log lines that report an error. *)
Definition is_error_line (l : log_line) : bool :=
  match l with
  | LogReadError | LogDialError _ | LogWriteError _ => true
  | _ => false
  end.

Definition is_final_stats (l : log_line) : bool :=
  match l with LogFinalStats _ => true | _ => false end.

(** *** Counting what happened in a run *)

Definition Zsum (l : list Z) : Z := fold_right Z.add 0 l.

Definition b2z (b : bool) : Z := if b then 1 else 0.

(** Is the label a datagram that [ReadFromUDP] returns? *)
Definition is_received (l : label) : bool :=
  match l with LRead (InDatagram _ _) => true | _ => false end.

(** Is the label a forward whose write succeeds? *)
Definition is_forwarded (l : label) : bool :=
  match l with LForward _ WriteSucceeds => true | _ => false end.

(** The bytes the label's datagram puts into a buffer of [cap] bytes. *)
Definition received_size (cap : nat) (l : label) : Z :=
  match l with
  | LRead (InDatagram _ payload) => Z.of_nat (Nat.min (length payload) cap)
  | _ => 0
  end.

Definition count_received (ls : list label) : Z :=
  Zsum (map (fun l => b2z (is_received l)) ls).

Definition count_forwarded (ls : list label) : Z :=
  Zsum (map (fun l => b2z (is_forwarded l)) ls).

Definition bytes_received (cap : nat) (ls : list label) : Z :=
  Zsum (map (received_size cap) ls).

Definition sent_bytes (out : list (UDPAddr * bytes)) : Z :=
  Zsum (map (fun d => Z.of_nat (length (snd d))) out).

Definition count_errors (lg : list log_line) : Z :=
  Zsum (map (fun l => b2z (is_error_line l)) lg).

(** The five totals of a run [ls] from [init r] that ends in [st], as
    unbounded integers. *)
Definition totals (r : Relay) (ls : list label) (st : State) : Stats :=
  mkStats (count_received ls)
          (count_forwarded ls)
          (bytes_received (Z.to_nat (BufferSize (config r))) ls)
          (sent_bytes (sent st))
          (count_errors (log st)).

Definition Stats_wrap (t : Stats) : Stats :=
  mkStats (U64.wrap (PacketsReceived t)) (U64.wrap (PacketsForwarded t))
          (U64.wrap (BytesReceived t)) (U64.wrap (BytesForwarded t))
          (U64.wrap (Errors t)).

Definition Stats_le (a b : Stats) : Prop :=
  PacketsReceived a <= PacketsReceived b /\
  PacketsForwarded a <= PacketsForwarded b /\
  BytesReceived a <= BytesReceived b /\
  BytesForwarded a <= BytesForwarded b /\
  Errors a <= Errors b.

(** What one step [l] from [st] to [st'] adds to each counter: Go's [++] and
    [+=] of what the step received, forwarded and reported as an error. *)
Definition accounts (cap : nat) (l : label) (st st' : State) : Prop :=
  PacketsReceived (stats st')
  = U64.wrap (PacketsReceived (stats st) + b2z (is_received l)) /\
  PacketsForwarded (stats st')
  = U64.wrap (PacketsForwarded (stats st) + b2z (is_forwarded l)) /\
  BytesReceived (stats st')
  = U64.wrap (BytesReceived (stats st) + received_size cap l) /\
  BytesForwarded (stats st')
  = U64.wrap (BytesForwarded (stats st)
              + (sent_bytes (sent st') - sent_bytes (sent st))) /\
  Errors (stats st')
  = U64.wrap (Errors (stats st)
              + (count_errors (log st') - count_errors (log st))) /\
  sent_bytes (sent st) <= sent_bytes (sent st') /\
  count_errors (log st) <= count_errors (log st') /\
  Z.of_nat (length (sent st'))
  = Z.of_nat (length (sent st)) + b2z (is_forwarded l).

(** The counters of [st] are the totals [t], modulo 2^64. *)
Definition counts_modulo (st : State) (t : Stats) : Prop :=
  PacketsReceived (stats st) = U64.wrap (PacketsReceived t) /\
  PacketsForwarded (stats st) = U64.wrap (PacketsForwarded t) /\
  BytesReceived (stats st) = U64.wrap (BytesReceived t) /\
  BytesForwarded (stats st) = U64.wrap (BytesForwarded t) /\
  Errors (stats st) = U64.wrap (Errors t).

(** The counters of [st] are exactly the totals [t]. *)
Definition counts_exactly (st : State) (t : Stats) : Prop :=
  PacketsReceived (stats st) = PacketsReceived t /\
  PacketsForwarded (stats st) = PacketsForwarded t /\
  BytesReceived (stats st) = BytesReceived t /\
  BytesForwarded (stats st) = BytesForwarded t /\
  Errors (stats st) = Errors t.

(** The state a run ends in; the start state if the run is not possible. *)
Definition state_after (ls : list label) (st : State) : State :=
  match run ls st with
  | Some st' => st'
  | None => st
  end.

(** Is the run possible? *)
Definition runs (ls : list label) (st : State) : bool :=
  match run ls st with
  | Some _ => true
  | None => false
  end.

(** One turn of the receive loop of [Ex.relay1]: an empty datagram from
    10.0.0.5:9999, its one target, so that nothing is forwarded, and back to
    the read. *)
Definition turn : list label := [LRead (InDatagram Ex.T1 []); LRecv].

(** The relay is started and its receive loop makes [n] turns. *)
Definition flood (n : nat) : list label :=
  [LMain; LRecv; LRecv] ++ concat (repeat turn n).

(** 2^64 - 1, as a number of turns. *)
Definition almost_all : nat := Z.to_nat (U64.modulus - 1).

(** *** The lifecycle, read off the program point of [main] *)

(** [Start] has run. *)
Definition started (pc : main_pc) : bool :=
  match pc with MainCreated => false | _ => true end.

(** [close(r.stopChan)] has run. *)
Definition stop_raised (pc : main_pc) : bool :=
  match pc with
  | StopCloseConn | StopWait | StopLogFinal | StopLogStopped | MainDone => true
  | _ => false
  end.

(** [r.conn.Close()] has run. *)
Definition socket_closed (pc : main_pc) : bool :=
  match pc with
  | StopWait | StopLogFinal | StopLogStopped | MainDone => true
  | _ => false
  end.

(** [r.wg.Wait()] has returned. *)
Definition wait_returned (pc : main_pc) : bool :=
  match pc with
  | StopLogFinal | StopLogStopped | MainDone => true
  | _ => false
  end.

(** The final stats line has been logged. *)
Definition final_logged (pc : main_pc) : bool :=
  match pc with
  | StopLogStopped | MainDone => true
  | _ => false
  end.

Definition recv_started (pc : recv_pc) : bool :=
  match pc with RcvNotStarted => false | _ => true end.

(** [receiveLoop] is running: started and not returned. *)
Definition recv_alive (pc : recv_pc) : bool :=
  match pc with
  | RcvNotStarted | RcvDone => false
  | _ => true
  end.

Definition rep_started (pc : rep_pc) : bool :=
  match pc with RepNotStarted => false | _ => true end.

(** [statsReporter] is running. *)
Definition rep_alive (pc : rep_pc) : bool :=
  match pc with RepSelect => true | _ => false end.

Definition lifecycle (st : State) : Prop :=
  wg st = b2z (recv_alive (recv_at st)) + b2z (rep_alive (rep_at st)) /\
  stopChan_closed st = stop_raised (main_at st) /\
  conn_closed st = socket_closed (main_at st) /\
  recv_started (recv_at st) = started (main_at st) /\
  rep_started (rep_at st) = started (main_at st) && verbose st /\
  (wait_returned (main_at st) = true -> wg st = 0) /\
  existsb is_final_stats (log st) = final_logged (main_at st).

(** A whole life of [Ex.relay1]: one datagram is received and its forward
    is started, then the signal arrives and [Stop] runs to its end while the
    forward has not run yet. *)
Definition stop_with_pending_forward : list label :=
  [LMain; LRecv; LRecv; LRead (InDatagram Ex.S Ex.AAAA);
   LSignal; LMain; LMain; LMain; LRecv; LMain; LMain; LMain].

(** Two datagrams arrive back to back at [Ex.relay1], "AAAA" and then "BB";
    the forward of the first runs only after the second was read. *)
Definition late_forward : list label :=
  [LMain; LRecv; LRecv;
   LRead (InDatagram Ex.S Ex.AAAA);
   LRecv;
   LRead (InDatagram Ex.S Ex.BB);
   LForward 0 WriteSucceeds].

(** The same two datagrams; the forward of the first runs before the second
    is read. *)
Definition prompt_forward : list label :=
  [LMain; LRecv; LRecv;
   LRead (InDatagram Ex.S Ex.AAAA);
   LForward 0 WriteSucceeds;
   LRecv;
   LRead (InDatagram Ex.S Ex.BB)].

(** ** More vocabulary: what else the code guarantees *)

(** One call of a mutator of [Stats]. *)
Inductive stats_update :=
| UReceived (n : Z)     (* s.AddReceived(n) *)
| UForwarded (n : Z)    (* s.AddForwarded(n) *)
| UError.               (* s.AddError() *)

Definition apply_update (s : Stats) (u : stats_update) : Stats :=
  match u with
  | UReceived n => AddReceived s n
  | UForwarded n => AddForwarded s n
  | UError => AddError s
  end.

(** The calls of [us] one after the other, each under the lock. *)
Definition apply_updates (us : list stats_update) (s : Stats) : Stats :=
  fold_left apply_update us s.

(** Log lines that are written only if [r.config.Verbose]: the traces of
    the traffic and the periodic stats of the reporter. *)
Definition is_verbose_line (l : log_line) : bool :=
  match l with
  | LogReceived _ _ | LogSkip _ | LogForwarded _ _ | LogStats _ => true
  | _ => false
  end.

(** [main] has left [<-sigChan]. *)
Definition past_signal (pc : main_pc) : bool :=
  match pc with
  | MainCreated | MainWaitSignal => false
  | _ => true
  end.

Definition is_signal (l : label) : bool :=
  match l with LSignal => true | _ => false end.

(** The lines a step with label [l] from [st] may add to the log. *)
Definition may_log (l : label) (st : State) (line : log_line) : bool :=
  match l, line with
  | LMain, (LogStarting | LogListening _ _ | LogForwardingTo _
            | LogStopping | LogFinalStats _ | LogStopped) => true
  | LRecv, LogReadError => true
  | LRead _, (LogReceived _ _ | LogSkip _) => verbose st
  | LTick, LogStats _ => rep_started (rep_at st)
  | LForward _ DialFails, LogDialError _ => true
  | LForward _ WriteFails, LogWriteError _ => true
  | LForward _ WriteSucceeds, LogForwarded _ _ => verbose st
  | _, _ => false
  end.

(** *** How far the relay is from the end of [Stop] *)

Definition main_distance (pc : main_pc) : nat :=
  match pc with
  | MainCreated => 11
  | MainWaitSignal => 7
  | StopLogStopping => 6
  | StopCloseChan => 5
  | StopCloseConn => 4
  | StopWait => 3
  | StopLogFinal => 2
  | StopLogStopped => 1
  | MainDone => 0
  end.

Definition recv_distance (pc : recv_pc) : nat :=
  match pc with
  | RcvEntry | RcvRead => 2
  | RcvSelect | RcvErrSelect => 1
  | RcvNotStarted | RcvDone => 0
  end.

Definition rep_distance (pc : rep_pc) : nat :=
  match pc with
  | RepSelect => 1
  | _ => 0
  end.

(** An upper bound on the number of steps [main], the receive loop and the
    reporter still need until [Stop] has returned. *)
Definition shutdown_distance (st : State) : nat :=
  main_distance (main_at st) + recv_distance (recv_at st)
  + rep_distance (rep_at st).

(** *** Forwards started, pending and finished *)

(** The forwards the receive loop starts on label [l]. *)
Definition dispatched_by (targets : list UDPAddr) (l : label) : Z :=
  match l with
  | LRead (InDatagram srcAddr _) =>
      Z.of_nat (length (non_source_targets srcAddr targets))
  | _ => 0
  end.

Definition dispatched (targets : list UDPAddr) (ls : list label) : Z :=
  Zsum (map (dispatched_by targets) ls).

(** Log lines of a forward that failed. *)
Definition is_forward_error (l : log_line) : bool :=
  match l with
  | LogDialError _ | LogWriteError _ => true
  | _ => false
  end.

Definition count_forward_errors (lg : list log_line) : Z :=
  Zsum (map (fun l => b2z (is_forward_error l)) lg).

(** Forwards pending, sent or failed in [st]. *)
Definition forwards_accounted (st : State) : Z :=
  Z.of_nat (length (forwards st)) + Z.of_nat (length (sent st))
  + count_forward_errors (log st).

(** *** Running the forwards of one datagram at once *)

(** [n] forwards, each the one at position [i] of the pending ones when its
    turn comes, all with a successful write. *)
Definition drain (i n : nat) : list label :=
  repeat (LForward i WriteSucceeds) n.

(** The datagrams [payload] to each of [targets]. *)
Definition fan_out (payload : bytes) (targets : list UDPAddr)
  : list (UDPAddr * bytes) :=
  map (fun target => (target, payload)) targets.

(** *** The targets of the command line, and the start of [main] *)

(** The pieces of the [-targets] flag that are targets: trimmed, and not
    empty. *)
Definition targets_of_flag (TrimSpace : string -> string) (s : string)
  : list string :=
  filter (fun target => negb (string_is_empty target))
         (map TrimSpace (split_comma s)).

(** The state [st] of a run, had the lines [pre] been in the log before the
    run began. *)
Definition logged_before (pre : list log_line) (st : State) : State :=
  mkState (relay st) (conn_closed st) (stopChan_closed st) (wg st) (stats st)
          (buffer st) (main_at st) (recv_at st) (rep_at st) (forwards st)
          (pre ++ log st) (sent st).

Definition is_BootCreated (b : boot_result) : bool :=
  match b with BootCreated _ => true | _ => false end.

(** *** A forward that runs inside [Stop] *)

(** [Ex.relay1] receives one datagram and is stopped; the forward of the
    datagram runs after [Stop] has logged the final stats, before it logs
    that the relay has stopped. *)
Definition forward_after_final_stats : list label :=
  [LMain; LRecv; LRecv; LRead (InDatagram Ex.S Ex.AAAA);
   LSignal; LMain; LMain; LMain; LRecv; LMain; LMain;
   LForward 0 WriteSucceeds].

(** *** [Stats.String] *)

(** [fmt.Sprintf("Received: %d packets (%d bytes), Forwarded: %d packets
    (%d bytes), Errors: %d", ...)] of the five counters. *)
Definition Stats_String (s : Stats) : string :=
  ("Received: " ++ format_int (PacketsReceived s)
   ++ " packets (" ++ format_int (BytesReceived s)
   ++ " bytes), Forwarded: " ++ format_int (PacketsForwarded s)
   ++ " packets (" ++ format_int (BytesForwarded s)
   ++ " bytes), Errors: " ++ format_int (Errors s))%string.

(** Does the character occur in the string? *)
Fixpoint has_char (c : ascii) (s : string) : bool :=
  match s with
  | EmptyString => false
  | String x rest => Ascii.eqb x c || has_char c rest
  end.
(** * Properties *)

(** ** Arithmetic of [uint64] *)

Lemma modulus_pos : 0 < U64.modulus.
Proof. reflexivity. Qed.

Lemma wrap_in_range (x : Z) : U64.in_range (U64.wrap x).
Proof. unfold U64.in_range, U64.wrap. apply Z.mod_pos_bound, modulus_pos. Qed.

Lemma wrap_small (x : Z) : U64.in_range x -> U64.wrap x = x.
Proof. unfold U64.in_range, U64.wrap. intros H. now apply Z.mod_small. Qed.

Lemma wrap_wrap_add_l (x y : Z) : U64.wrap (U64.wrap x + y) = U64.wrap (x + y).
Proof. unfold U64.wrap. now rewrite Zplus_mod_idemp_l. Qed.

Lemma wrap_wrap_add_r (x y : Z) : U64.wrap (x + U64.wrap y) = U64.wrap (x + y).
Proof. unfold U64.wrap. now rewrite Zplus_mod_idemp_r. Qed.

Lemma incr_no_overflow (x : Z) :
  0 <= x -> x + 1 < U64.modulus -> U64.incr x = x + 1.
Proof. intros H0 H1. unfold U64.incr. apply wrap_small. split; lia. Qed.

Lemma AddReceived_in_range s n : Stats_in_range s -> Stats_in_range (AddReceived s n).
Proof.
  unfold Stats_in_range, AddReceived, U64.incr, U64.add; simpl.
  intros (H1 & H2 & H3 & H4 & H5); auto using wrap_in_range.
Qed.

Lemma AddForwarded_in_range s n : Stats_in_range s -> Stats_in_range (AddForwarded s n).
Proof.
  unfold Stats_in_range, AddForwarded, U64.incr, U64.add; simpl.
  intros (H1 & H2 & H3 & H4 & H5); auto using wrap_in_range.
Qed.

Lemma AddError_in_range s : Stats_in_range s -> Stats_in_range (AddError s).
Proof.
  unfold Stats_in_range, AddError, U64.incr; simpl.
  intros (H1 & H2 & H3 & H4 & H5); auto using wrap_in_range.
Qed.

(** ** Frame lemmas: what the loop over the targets leaves alone *)

Lemma log_if_verbose_frame l st :
  relay (log_if_verbose l st) = relay st /\
  conn_closed (log_if_verbose l st) = conn_closed st /\
  stopChan_closed (log_if_verbose l st) = stopChan_closed st /\
  wg (log_if_verbose l st) = wg st /\
  stats (log_if_verbose l st) = stats st /\
  buffer (log_if_verbose l st) = buffer st /\
  main_at (log_if_verbose l st) = main_at st /\
  recv_at (log_if_verbose l st) = recv_at st /\
  rep_at (log_if_verbose l st) = rep_at st /\
  forwards (log_if_verbose l st) = forwards st /\
  sent (log_if_verbose l st) = sent st.
Proof. unfold log_if_verbose. destruct (verbose st); simpl; repeat split. Qed.

Lemma log_if_verbose_log l st :
  exists more, log (log_if_verbose l st) = log st ++ more
               /\ (forall x, In x more -> x = l).
Proof.
  unfold log_if_verbose. destruct (verbose st); simpl.
  - exists [l]. split; [reflexivity|]. intros x [H|[]]; auto.
  - exists []. rewrite app_nil_r. split; [reflexivity|]. intros x [].
Qed.

Lemma forward_all_frame srcAddr data targets : forall st,
  let st' := forward_all srcAddr data targets st in
  relay st' = relay st /\ conn_closed st' = conn_closed st /\
  stopChan_closed st' = stopChan_closed st /\ wg st' = wg st /\
  stats st' = stats st /\ buffer st' = buffer st /\
  main_at st' = main_at st /\ recv_at st' = recv_at st /\
  rep_at st' = rep_at st /\ sent st' = sent st.
Proof.
  induction targets as [|target rest IH]; intros st; simpl.
  - repeat split.
  - destruct (is_source srcAddr target).
    + specialize (IH (log_if_verbose (LogSkip target) st)). simpl in IH.
      destruct (log_if_verbose_frame (LogSkip target) st)
        as (E1 & E2 & E3 & E4 & E5 & E6 & E7 & E8 & E9 & _ & E11).
      destruct IH as (H1 & H2 & H3 & H4 & H5 & H6 & H7 & H8 & H9 & H10).
      repeat split; congruence.
    + specialize (IH (spawn (mkGo data target) st)). simpl in IH.
      destruct IH as (H1 & H2 & H3 & H4 & H5 & H6 & H7 & H8 & H9 & H10).
      repeat split; assumption.
Qed.

(** The loop starts one goroutine per target that is not the source, in
    the order of the targets, and removes none. *)
Lemma forward_all_forwards srcAddr data targets : forall st,
  forwards (forward_all srcAddr data targets st)
  = forwards st ++ map (mkGo data) (non_source_targets srcAddr targets).
Proof.
  unfold non_source_targets.
  induction targets as [|target rest IH]; intros st; simpl.
  - now rewrite app_nil_r.
  - destruct (is_source srcAddr target); simpl; rewrite IH.
    + destruct (log_if_verbose_frame (LogSkip target) st)
        as (_ & _ & _ & _ & _ & _ & _ & _ & _ & E & _).
      now rewrite E.
    + simpl. rewrite <- app_assoc. reflexivity.
Qed.

Lemma is_source_false_iff srcAddr target :
  is_source srcAddr target = false <-> differs srcAddr target.
Proof.
  unfold is_source, differs. rewrite andb_false_iff, Z.eqb_neq.
  split.
  - intros [H|H] [H1 H2]; congruence.
  - intros H. destruct (IP_Equal (addr_IP srcAddr) (addr_IP target)).
    + right. intros E. apply H. split; [reflexivity | exact E].
    + left. reflexivity.
Qed.

Lemma in_non_source_targets srcAddr targets target :
  In target (non_source_targets srcAddr targets)
  <-> In target targets /\ differs srcAddr target.
Proof.
  unfold non_source_targets. rewrite filter_In, negb_true_iff.
  now rewrite is_source_false_iff.
Qed.

Lemma map_fw_target_mkGo data targets :
  map fw_target (map (mkGo data) targets) = targets.
Proof. rewrite map_map. simpl. apply map_id. Qed.

(** What a successful read does, field by field. *)
Lemma step_read_datagram st srcAddr payload :
  recv_at st = RcvRead -> conn_closed st = false ->
  let n := Nat.min (length payload) (length (buffer st)) in
  exists st',
    step (LRead (InDatagram srcAddr payload)) st = Some st' /\
    forwards st' = forwards st
                   ++ map (mkGo (mkSlice n))
                          (non_source_targets srcAddr (targetConns (relay st))) /\
    stats st' = AddReceived (stats st) (Z.of_nat n) /\
    buffer st' = firstn n payload ++ skipn n (buffer st) /\
    recv_at st' = RcvSelect /\
    relay st' = relay st /\ sent st' = sent st /\
    main_at st' = main_at st /\ rep_at st' = rep_at st /\ wg st' = wg st /\
    conn_closed st' = false /\ stopChan_closed st' = stopChan_closed st.
Proof.
  intros Hpc Hopen n. simpl. unfold step_read. rewrite Hpc. simpl.
  rewrite Hopen. fold n.
  eexists. split; [reflexivity|].
  set (st0 := set_stats _ _).
  set (st1 := log_if_verbose _ st0).
  destruct (log_if_verbose_frame (LogReceived (Z.of_nat n) srcAddr) st0)
    as (E1 & E2 & E3 & E4 & E5 & E6 & E7 & E8 & E9 & E10 & E11).
  fold st1 in E1, E2, E3, E4, E5, E6, E7, E8, E9, E10, E11.
  simpl in E1, E2, E3, E4, E5, E6, E7, E8, E9, E10, E11.
  pose proof (forward_all_frame srcAddr (mkSlice (Z.to_nat (Z.of_nat n)))
                (targetConns (relay st1)) st1) as F2.
  simpl in F2. rewrite Nat2Z.id, E1 in F2.
  destruct F2 as (H1 & H2 & H3 & H4 & H5 & H6 & H7 & H8 & H9 & H10).
  simpl. rewrite forward_all_forwards, Nat2Z.id, E10, E1.
  repeat split; congruence.
Qed.

(** ** C1: fan-out to every target but the source *)

(** C1.  When [ReadFromUDP] returns a datagram from [srcAddr], the receive
    loop starts forward goroutines for exactly the configured targets whose
    (IP, port) differs from [srcAddr]'s, one per such entry and in the order
    of the targets; no goroutine is started for a target whose IP and port
    both equal [srcAddr]'s, and no pending goroutine is dropped. *)
Theorem receive_dispatches_to_non_source_targets :
  forall st srcAddr payload,
    recv_at st = RcvRead -> conn_closed st = false ->
    exists st' started,
      step (LRead (InDatagram srcAddr payload)) st = Some st' /\
      forwards st' = forwards st ++ started /\
      map fw_target started
      = non_source_targets srcAddr (targetConns (relay st)) /\
      (forall target,
          In target (map fw_target started)
          <-> In target (targetConns (relay st)) /\ differs srcAddr target) /\
      (forall target,
          IP_Equal (addr_IP srcAddr) (addr_IP target) = true ->
          addr_Port srcAddr = addr_Port target ->
          ~ In target (map fw_target started)).
Proof.
  intros st srcAddr payload Hpc Hopen.
  destruct (step_read_datagram st srcAddr payload Hpc Hopen)
    as (st' & Hstep & Hfw & _).
  exists st'. eexists. split; [exact Hstep|]. split; [exact Hfw|].
  rewrite map_fw_target_mkGo. split; [reflexivity|]. split.
  - intros target. apply in_non_source_targets.
  - intros target HIP Hport Hin.
    apply in_non_source_targets in Hin. destruct Hin as [_ Hd].
    apply Hd. split; assumption.
Qed.

Lemma receive_dispatches_to_non_source_targets_witness :
  exists st' started,
    step (LRead (InDatagram Ex.T1 Ex.AAAA)) (at_first_read Ex.relay2) = Some st' /\
    forwards st' = forwards (at_first_read Ex.relay2) ++ started /\
    map fw_target started = [Ex.T2].
Proof.
  destruct (receive_dispatches_to_non_source_targets
              (at_first_read Ex.relay2) Ex.T1 Ex.AAAA)
    as (st' & started & H1 & H2 & H3 & _);
    [reflexivity | reflexivity |].
  exists st', started. split; [exact H1|]. split; [exact H2|]. exact H3.
Defined.

(** ** Construction *)

(** The loop over the target strings only resolves names. *)
Lemma resolve_targets_only_resolves os targets : forall acc acts r,
  resolve_targets os targets acc = (acts, r) ->
  forallb is_SysResolve acts = true.
Proof.
  induction targets as [|target rest IH]; intros acc acts r H; simpl in H.
  - inversion H; reflexivity.
  - destruct (ResolveUDPAddr os target) as [addr|].
    + destruct (resolve_targets os rest (acc ++ [addr])) as [acts' r'] eqn:E.
      inversion H; subst. simpl. eapply IH; eauto.
    + inversion H; reflexivity.
Qed.

Lemma resolve_targets_fails os targets : forall acc,
  (exists target, In target targets /\ ResolveUDPAddr os target = None) ->
  exists acts target,
    resolve_targets os targets acc = (acts, inl (ErrResolveTarget target))
    /\ In target targets /\ ResolveUDPAddr os target = None.
Proof.
  induction targets as [|t rest IH]; intros acc (target & Hin & Hnone).
  - destruct Hin.
  - simpl. destruct (ResolveUDPAddr os t) as [addr|] eqn:E.
    + destruct Hin as [->|Hin]; [congruence|].
      destruct (IH (acc ++ [addr])) as (acts & t' & H1 & H2 & H3).
      { exists target; auto. }
      rewrite H1. exists (SysResolve t :: acts), t'. auto.
    + exists [SysResolve t], t. auto.
Qed.

Lemma resolve_targets_succeeds os targets : forall acc,
  (forall target, In target targets -> ResolveUDPAddr os target <> None) ->
  exists addrs,
    resolve_targets os targets acc
    = (map SysResolve targets, inr (acc ++ addrs))
    /\ map Some addrs = map (ResolveUDPAddr os) targets.
Proof.
  induction targets as [|t rest IH]; intros acc Hall; simpl.
  - exists []. now rewrite app_nil_r.
  - destruct (ResolveUDPAddr os t) as [addr|] eqn:E.
    + destruct (IH (acc ++ [addr])) as (addrs & H1 & H2).
      { intros; apply Hall; now right. }
      rewrite H1. exists (addr :: addrs). rewrite <- app_assoc. simpl.
      now rewrite H2.
    + exfalso. apply (Hall t); [now left | exact E].
Qed.

Lemma resolve_targets_inr os targets : forall acc acts addrs,
  resolve_targets os targets acc = (acts, inr addrs) ->
  forall target, In target targets -> ResolveUDPAddr os target <> None.
Proof.
  induction targets as [|t rest IH]; intros acc acts addrs H target Hin.
  - destruct Hin.
  - simpl in H. destruct (ResolveUDPAddr os t) as [addr|] eqn:E.
    + destruct (resolve_targets os rest (acc ++ [addr])) as [acts' r'] eqn:E'.
      inversion H; subst.
      destruct Hin as [<-|Hin]; [congruence|]. eapply IH; eauto.
    + inversion H.
Qed.

Lemma forallb_resolve_no_listen acts addr :
  forallb is_SysResolve acts = true -> ~ In (SysListen addr) acts.
Proof.
  intros H Hin. rewrite forallb_forall in H. apply H in Hin. discriminate.
Qed.

Lemma in_app_resolve_no_listen acts s addr :
  forallb is_SysResolve acts = true -> ~ In (SysListen addr) (acts ++ [SysResolve s]).
Proof.
  intros H Hin. apply in_app_or in Hin. destruct Hin as [Hin|[Hin|[]]].
  - now apply (forallb_resolve_no_listen acts addr).
  - discriminate.
Qed.

(** [NewRelay] succeeds exactly when construction is ready. *)
Lemma NewRelay_succeeds_iff os config :
  (exists acts r, NewRelay os config = (acts, inr r))
  <-> construction_ready os config.
Proof.
  unfold construction_ready, NewRelay. split.
  - intros (acts & r & H).
    destruct (resolve_targets os (TargetAddrs config) []) as [a [e|tc]] eqn:E;
      [discriminate|].
    split; [eapply resolve_targets_inr; eauto|].
    destruct (ResolveUDPAddr os _) as [addr|]; [|discriminate].
    exists addr. split; [reflexivity|].
    destruct (ListenUDP os addr); [reflexivity|discriminate].
  - intros (Hall & addr & Hres & Hbind).
    destruct (resolve_targets_succeeds os (TargetAddrs config) [] Hall)
      as (addrs & -> & _).
    rewrite Hres, Hbind.
    destruct (SetReadBuffer os (BufferSize config)); eauto.
Qed.

(** A relay that [NewRelay] returns keeps the configuration and holds the
    resolved targets, one per target string and in their order. *)
Lemma NewRelay_ok_shape os cfg acts r :
  NewRelay os cfg = (acts, inr r) ->
  config r = cfg /\
  map Some (targetConns r) = map (ResolveUDPAddr os) (TargetAddrs cfg).
Proof.
  unfold NewRelay. intros H.
  destruct (resolve_targets os (TargetAddrs cfg) []) as [a [e|tc]] eqn:E;
    [discriminate|].
  destruct (resolve_targets_succeeds os (TargetAddrs cfg) [])
    as (addrs & E' & Hmap).
  { eapply resolve_targets_inr; eauto. }
  rewrite E in E'. inversion E'; subst. simpl in H.
  destruct (ResolveUDPAddr os _) as [addr|]; [|discriminate].
  destruct (ListenUDP os addr); [|discriminate].
  destruct (SetReadBuffer os (BufferSize cfg)); inversion H; subst; simpl; auto.
Qed.

(** ** C7: construction fails on a bad target, a bad listen address or a
    failed bind *)

(** C7.  If a target string does not resolve, or the listen address does
    not resolve, or the bind fails, [NewRelay] returns an error.  If a
    target does not resolve, no socket was bound on the way.  [main] then
    ends in [log.Fatalf]: there is no relay to start, so [Start] and the
    receive loop never run. *)
Theorem construction_fails_before_start :
  forall os cfg,
    target_unresolvable os cfg \/ listen_unresolvable os cfg
    \/ bind_fails os cfg ->
    exists acts e,
      NewRelay os cfg = (acts, inl e) /\
      (target_unresolvable os cfg ->
       forall addr, ~ In (SysListen addr) acts) /\
      (forall TrimSpace f,
          parseConfig TrimSpace f = Parsed cfg ->
          main_boot TrimSpace os f = (acts, BootFatal e)).
Proof.
  intros os cfg Hbad.
  assert (Hfail : exists acts e,
             NewRelay os cfg = (acts, inl e) /\
             (target_unresolvable os cfg ->
              forall addr, ~ In (SysListen addr) acts)).
  { unfold NewRelay.
    destruct (resolve_targets os (TargetAddrs cfg) []) as [a [e|tc]] eqn:E.
    - exists a, e. split; [reflexivity|]. intros _ addr.
      apply forallb_resolve_no_listen.
      eapply resolve_targets_only_resolves; eauto.
    - assert (Hres : forall t, In t (TargetAddrs cfg) ->
                               ResolveUDPAddr os t <> None)
        by (eapply resolve_targets_inr; eauto).
      assert (Hno : ~ target_unresolvable os cfg).
      { intros (t & Hin & Hnone). now apply (Hres t). }
      destruct Hbad as [Ht|[Hl|(addr & Hl & Hb)]].
      + contradiction.
      + unfold listen_unresolvable in Hl. rewrite Hl.
        eexists _, _. split; [reflexivity|]. intros Ht; contradiction.
      + rewrite Hl, Hb.
        eexists _, _. split; [reflexivity|]. intros Ht; contradiction. }
  destruct Hfail as (acts & e & HN & Hno).
  exists acts, e. split; [exact HN|]. split; [exact Hno|].
  intros TrimSpace f Hp. unfold main_boot. now rewrite Hp, HN.
Qed.

Lemma construction_fails_before_start_witness :
  exists acts e, NewRelay Ex.os_port_taken Ex.cfg1 = (acts, inl e).
Proof.
  destruct (construction_fails_before_start Ex.os_port_taken Ex.cfg1)
    as (acts & e & H & _).
  - right. right. exists Ex.L. split; reflexivity.
  - exists acts, e. exact H.
Defined.

(** ** C9: a failing [SetReadBuffer] is only a warning *)

(** C9.  When every address resolves and the bind succeeds, a failing
    [conn.SetReadBuffer] does not fail the construction: [NewRelay] returns
    a relay for the given configuration, with every target resolved, whose
    socket keeps the receive buffer size it was created with; the one thing
    done after the failed call is to log the warning. *)
Theorem read_buffer_failure_is_not_fatal :
  forall os cfg,
    construction_ready os cfg ->
    SetReadBuffer os (BufferSize cfg) = false ->
    exists acts laddr r,
      NewRelay os cfg
      = (acts ++ [SysListen laddr; SysSetReadBuffer (BufferSize cfg);
                  SysWarnReadBuffer], inr r) /\
      forallb is_SysResolve acts = true /\
      config r = cfg /\
      conn r = mkUDPConn laddr (default_rcvbuf os) /\
      map Some (targetConns r) = map (ResolveUDPAddr os) (TargetAddrs cfg).
Proof.
  intros os cfg (Hall & addr & Hres & Hbind) Hbuf.
  destruct (resolve_targets_succeeds os (TargetAddrs cfg) [] Hall)
    as (addrs & E & Hmap).
  unfold NewRelay. rewrite E, Hres, Hbind, Hbuf.
  exists (map SysResolve (TargetAddrs cfg)
          ++ [SysResolve (format_listen (ListenAddr cfg) (ListenPort cfg))]).
  exists addr. eexists. split.
  - rewrite <- app_assoc. reflexivity.
  - simpl. repeat split; auto.
    rewrite forallb_app. simpl. rewrite andb_true_r.
    rewrite forallb_forall. intros a Ha. apply in_map_iff in Ha.
    destruct Ha as (s & <- & _). reflexivity.
Qed.

Lemma read_buffer_failure_is_not_fatal_witness :
  exists acts r,
    NewRelay Ex.os_small_rcvbuf Ex.cfg2 = (acts, inr r)
    /\ conn_rcvbuf (conn r) = 212992.
Proof.
  destruct (read_buffer_failure_is_not_fatal Ex.os_small_rcvbuf Ex.cfg2)
    as (acts & laddr & r & H & _ & _ & Hc & _).
  - split.
    + intros target [<-|[<-|[]]]; discriminate.
    + exists Ex.L. split; reflexivity.
  - reflexivity.
  - eexists _, r. split; [exact H|]. now rewrite Hc.
Defined.

(** ** C3: an empty target list *)

Lemma collect_targets_acc TrimSpace pieces : forall acc,
  exists more,
    collect_targets TrimSpace pieces acc = acc ++ more
    /\ Forall (fun t => t <> EmptyString) more.
Proof.
  induction pieces as [|p rest IH]; intros acc; simpl.
  - exists []. now rewrite app_nil_r.
  - destruct (string_is_empty (TrimSpace p)) eqn:E; simpl.
    + apply IH.
    + destruct (IH (acc ++ [TrimSpace p])) as (more & -> & HF).
      exists (TrimSpace p :: more). rewrite <- app_assoc. split; [reflexivity|].
      constructor; [|exact HF]. intros Hemp. now rewrite Hemp in E.
Qed.

(** [parseConfig] never returns a configuration without targets. *)
Lemma parseConfig_targets TrimSpace f cfg :
  parseConfig TrimSpace f = Parsed cfg ->
  TargetAddrs cfg <> [] /\ Forall (fun t => t <> EmptyString) (TargetAddrs cfg).
Proof.
  unfold parseConfig. intros H.
  destruct (flag_version f); [discriminate|].
  destruct (string_is_empty (flag_targets f)); [discriminate|].
  destruct (collect_targets_acc TrimSpace (split_comma (flag_targets f)) [])
    as (more & E & HF).
  rewrite E in H. simpl in H.
  destruct more as [|t more]; simpl in H; [discriminate|].
  inversion H; subst; simpl. split; [discriminate | exact HF].
Qed.

(** The claim as stated fails: with no targets, a listen address that
    resolves and a free port, [NewRelay] returns a relay. *)
Lemma NewRelay_accepts_empty_targets :
  TargetAddrs Ex.cfg0 = [] /\
  exists acts r, NewRelay Ex.os_ok Ex.cfg0 = (acts, inr r)
                 /\ targetConns r = [].
Proof. split; [reflexivity|]. eexists _, _. split; reflexivity. Qed.

(** C3, amended.  [NewRelay] does not look at the number of targets: with
    an empty target list it returns a relay without targets exactly when
    the listen address resolves and the bind succeeds.  The check is
    [parseConfig]'s: it leaves the process with status 1 when no non-empty
    target remains, and every configuration it returns has at least one
    target, so the relay [main] starts has at least one target. *)
Theorem empty_targets_rejected_by_parseConfig :
  forall os TrimSpace,
    (forall cfg,
        TargetAddrs cfg = [] ->
        ((exists acts r, NewRelay os cfg = (acts, inr r) /\ targetConns r = [])
         <-> exists addr,
            ResolveUDPAddr os (format_listen (ListenAddr cfg) (ListenPort cfg))
            = Some addr /\ ListenUDP os addr = true)) /\
    (forall f,
        flag_version f = false ->
        collect_targets TrimSpace (split_comma (flag_targets f)) [] = [] ->
        main_boot TrimSpace os f = ([], BootExit 1)) /\
    (forall f cfg,
        parseConfig TrimSpace f = Parsed cfg -> TargetAddrs cfg <> []) /\
    (forall f acts st,
        main_boot TrimSpace os f = (acts, BootCreated st) ->
        TargetAddrs (config (relay st)) <> []
        /\ targetConns (relay st) <> []).
Proof.
  intros os TrimSpace. split; [|split; [|split]].
  - intros cfg H. split.
    + intros (acts & r & HN & _).
      assert (Hr : construction_ready os cfg)
        by (apply NewRelay_succeeds_iff; eauto).
      apply Hr.
    + intros Hl.
      assert (Hr : construction_ready os cfg).
      { split; [|exact Hl]. rewrite H. intros t []. }
      apply NewRelay_succeeds_iff in Hr. destruct Hr as (acts & r & Hr).
      exists acts, r. split; [exact Hr|].
      apply NewRelay_ok_shape in Hr. destruct Hr as [_ Hm].
      rewrite H in Hm. simpl in Hm. now destruct (targetConns r).
  - intros f Hv Hc. unfold main_boot, parseConfig. rewrite Hv, Hc.
    now destruct (string_is_empty (flag_targets f)).
  - intros f cfg Hp. apply (parseConfig_targets _ _ _ Hp).
  - intros f acts st H. unfold main_boot in H.
    destruct (parseConfig TrimSpace f) as [code|cfg] eqn:Hp; [discriminate|].
    destruct (NewRelay os cfg) as [a [e|r]] eqn:HN; [discriminate|].
    inversion H; subst; simpl.
    apply NewRelay_ok_shape in HN. destruct HN as [-> Hm].
    apply parseConfig_targets in Hp. destruct Hp as [Hne _].
    split; [exact Hne|].
    intros Hnil. rewrite Hnil in Hm. simpl in Hm.
    revert Hm Hne. destruct (TargetAddrs cfg); simpl; intros Hm Hne;
      [now apply Hne | discriminate].
Qed.

Lemma empty_targets_rejected_by_parseConfig_witness :
  main_boot Ex.trim Ex.os_ok (mkFlags 9999 "0.0.0.0" " , ," 65535 false false)
  = ([], BootExit 1).
Proof.
  destruct (empty_targets_rejected_by_parseConfig Ex.os_ok Ex.trim)
    as (_ & H & _).
  apply H; reflexivity.
Defined.

(** ** What one step does *)

Ltac break_step H :=
  repeat match type of H with
         | context [match ?x with _ => _ end] => destruct x eqn:?
         end;
  try discriminate H.

Lemma step_read_inv inp st st' :
  step (LRead inp) st = Some st' ->
  recv_at st = RcvRead /\
  match inp with
  | InError => True
  | _ => conn_closed st = false
  end.
Proof.
  simpl. unfold step_read, ReadFromUDP. intros H.
  destruct (recv_at st); try discriminate. split; [reflexivity|].
  destruct inp; auto; destruct (conn_closed st); auto; discriminate.
Qed.

Lemma forward_all_log srcAddr data targets : forall st,
  exists more,
    log (forward_all srcAddr data targets st) = log st ++ more
    /\ forallb is_trace_line more = true.
Proof.
  induction targets as [|target rest IH]; intros st; simpl.
  - exists []. now rewrite app_nil_r.
  - destruct (is_source srcAddr target).
    + destruct (IH (log_if_verbose (LogSkip target) st)) as (more & -> & Hm).
      destruct (log_if_verbose_log (LogSkip target) st) as (m0 & -> & H0).
      exists (m0 ++ more). rewrite app_assoc. split; [reflexivity|].
      rewrite forallb_app, Hm, andb_true_r. apply forallb_forall.
      intros x Hx. now rewrite (H0 x Hx).
    + destruct (IH (spawn (mkGo data target) st)) as (more & -> & Hm).
      exists more. auto.
Qed.

Lemma step_read_datagram_log st srcAddr payload st' :
  step (LRead (InDatagram srcAddr payload)) st = Some st' ->
  exists more, log st' = log st ++ more /\ forallb is_trace_line more = true.
Proof.
  intros H. destruct (step_read_inv _ _ _ H) as [Hpc Hopen].
  simpl in H. unfold step_read in H. rewrite Hpc in H. simpl in H.
  rewrite Hopen in H. inversion H; subst; clear H. simpl.
  match goal with
  | |- context [forward_all ?a ?b ?c ?d] =>
      destruct (forward_all_log a b c d) as (more & -> & Hm);
      destruct (log_if_verbose_log
                  (LogReceived
                     (Z.of_nat (Nat.min (length payload) (length (buffer st))))
                     srcAddr)
                  (set_stats
                     (AddReceived (stats st)
                        (Z.of_nat (Nat.min (length payload)
                                           (length (buffer st)))))
                     (set_buffer
                        (firstn (Nat.min (length payload) (length (buffer st)))
                                payload
                         ++ skipn (Nat.min (length payload)
                                           (length (buffer st)))
                                  (buffer st)) st)))
        as (m0 & E0 & H0)
  end.
  rewrite E0. simpl. exists (m0 ++ more). rewrite app_assoc.
  split; [reflexivity|].
  rewrite forallb_app, Hm, andb_true_r. apply forallb_forall.
  intros x Hx. now rewrite (H0 x Hx).
Qed.

(** What running the [i]-th pending forward does, field by field. *)
Lemma step_forward_spec st i o st' :
  step (LForward i o) st = Some st' ->
  exists g,
    nth_error (forwards st) i = Some g /\
    forwards st' = remove_nth i (forwards st) /\
    relay st' = relay st /\ buffer st' = buffer st /\
    conn_closed st' = conn_closed st /\
    stopChan_closed st' = stopChan_closed st /\
    wg st' = wg st /\ main_at st' = main_at st /\
    recv_at st' = recv_at st /\ rep_at st' = rep_at st /\
    stats st' = match o with
                | WriteSucceeds =>
                    AddForwarded (stats st) (Z.of_nat (slice_len (fw_data g)))
                | _ => AddError (stats st)
                end /\
    sent st' = match o with
               | WriteSucceeds =>
                   sent st ++ [(fw_target g, slice_bytes (buffer st) (fw_data g))]
               | _ => sent st
               end /\
    log st' = log st ++
              match o with
              | DialFails => [LogDialError (fw_target g)]
              | WriteFails => [LogWriteError (fw_target g)]
              | WriteSucceeds =>
                  if verbose st
                  then [LogForwarded (Z.of_nat (slice_len (fw_data g)))
                                     (fw_target g)]
                  else []
              end.
Proof.
  simpl. unfold step_forward. intros H.
  destruct (process_exited st); [discriminate|].
  destruct (nth_error (forwards st) i) as [g|]; [|discriminate].
  inversion H; subst; clear H. exists g. split; [reflexivity|].
  destruct o; simpl; try (repeat split; reflexivity).
  unfold log_if_verbose, verbose. simpl.
  destruct (Verbose (config (relay st))); simpl; repeat split; try reflexivity.
  now rewrite app_nil_r.
Qed.

Lemma step_relay l st st' : step l st = Some st' -> relay st' = relay st.
Proof.
  destruct l; intros H.
  - simpl in H. unfold step_main, Start, verbose in H. break_step H;
      inversion H; reflexivity.
  - simpl in H. unfold step_signal in H. break_step H; inversion H; reflexivity.
  - simpl in H. unfold step_recv, recv_return in H. break_step H;
      inversion H; reflexivity.
  - destruct (step_read_inv _ _ _ H) as [Hpc Hopen]. destruct inp.
    + destruct (step_read_datagram st srcAddr payload Hpc Hopen)
        as (st1 & E & F). rewrite E in H. inversion H; subst. apply F.
    + simpl in H. unfold step_read in H. rewrite Hpc in H. simpl in H.
      rewrite Hopen in H. inversion H; reflexivity.
    + simpl in H. unfold step_read in H. rewrite Hpc in H. simpl in H.
      inversion H; reflexivity.
  - simpl in H. unfold step_tick in H. break_step H; inversion H; reflexivity.
  - simpl in H. unfold step_reporter_stop, rep_return in H. break_step H;
      inversion H; reflexivity.
  - apply step_forward_spec in H. destruct H as (g & _ & _ & E & _). exact E.
Qed.

(** ** Runs *)

Lemma run_app ls1 : forall ls2 st,
  run (ls1 ++ ls2) st
  = match run ls1 st with
    | Some st1 => run ls2 st1
    | None => None
    end.
Proof.
  induction ls1 as [|l ls1 IH]; intros ls2 st; simpl; [reflexivity|].
  destruct (step l st); [apply IH | reflexivity].
Qed.

Lemma run_snoc ls l st st' :
  run (ls ++ [l]) st = Some st' <->
  exists st1, run ls st = Some st1 /\ step l st1 = Some st'.
Proof.
  rewrite run_app. split.
  - destruct (run ls st) as [st1|]; [|discriminate]. simpl.
    destruct (step l st1) eqn:E; [|discriminate].
    intros H. exists st1. split; [reflexivity|]. congruence.
  - intros (st1 & -> & H). simpl. now rewrite H.
Qed.

Lemma run_relay ls : forall st st', run ls st = Some st' -> relay st' = relay st.
Proof.
  induction ls as [|l ls IH]; intros st st' H; simpl in H.
  - now inversion H.
  - destruct (step l st) as [st1|] eqn:E; [|discriminate].
    rewrite (IH _ _ H). eapply step_relay; eauto.
Qed.

Lemma state_after_run ls st :
  runs ls st = true -> run ls st = Some (state_after ls st).
Proof.
  unfold runs, state_after. destruct (run ls st); [reflexivity|discriminate].
Qed.

(** An invariant of the steps holds in every reachable state. *)
Lemma run_invariant (P : State -> Prop) :
  (forall l st st', P st -> step l st = Some st' -> P st') ->
  forall ls st st', P st -> run ls st = Some st' -> P st'.
Proof.
  intros Hstep. induction ls as [|l ls IH]; intros st st' HP H; simpl in H.
  - inversion H; subst; exact HP.
  - destruct (step l st) as [st1|] eqn:E; [|discriminate].
    eapply IH; [|exact H]. eapply Hstep; eauto.
Qed.

(** ** The invariant [wf] *)

Lemma Forall_remove_nth {A} (P : A -> Prop) (l : list A) : forall i,
  Forall P l -> Forall P (remove_nth i l).
Proof.
  induction l as [|x l IH]; intros i H; simpl.
  - destruct i; constructor.
  - inversion H; subst. destruct i; [assumption|]. constructor; auto.
Qed.

Lemma read_buffer_length (payload buffer : bytes) :
  let n := Nat.min (length payload) (length buffer) in
  length (firstn n payload ++ skipn n buffer) = length buffer.
Proof.
  intros n. rewrite length_app, length_firstn, length_skipn. subst n. lia.
Qed.

Lemma wf_init r : wf (init r).
Proof.
  unfold wf, init; simpl. repeat split; auto; try discriminate;
    try (cbv; congruence).
Qed.

Lemma make_bytes_spec n b :
  make_bytes n = Some b ->
  0 <= n <= maxAlloc /\ b = repeat Byte.x00 (Z.to_nat n).
Proof.
  unfold make_bytes.
  destruct (Z.ltb_spec n 0); simpl; [discriminate|].
  destruct (Z.ltb_spec maxAlloc n); [discriminate|].
  intros H'. inversion H'. split; [lia | reflexivity].
Qed.

Lemma make_bytes_ok n :
  0 <= n <= maxAlloc -> make_bytes n = Some (repeat Byte.x00 (Z.to_nat n)).
Proof.
  intros Hn. unfold make_bytes.
  destruct (Z.ltb_spec n 0); [lia|]. simpl.
  destruct (Z.ltb_spec maxAlloc n); [lia | reflexivity].
Qed.

Ltac split_wf :=
  unfold wf; simpl; split; [|split; [|split; [|split]]].

Lemma wf_step l st st' : wf st -> step l st = Some st' -> wf st'.
Proof.
  intros (Hr & Hf & Hlen & Hnone & Hcr) H. destruct l.
  - simpl in H. unfold step_main, Start, verbose in H. break_step H;
      inversion H; subst; clear H; split_wf; auto; try discriminate;
      intros _; apply Hnone; rewrite (Hcr eq_refl); reflexivity.
  - simpl in H. unfold step_signal in H. break_step H;
      inversion H; subst; clear H; split_wf; auto; try discriminate.
  - simpl in H. unfold step_recv, recv_return in H. break_step H;
      inversion H; subst; clear H; simpl in Hlen, Hnone;
      split_wf; auto; try discriminate;
      try (intros Hm; specialize (Hcr Hm); discriminate);
      try (apply AddError_in_range; assumption).
    + rewrite Hnone by reflexivity. constructor.
    + intros _. destruct (make_bytes_spec _ _ Heqo) as (_ & ->).
      apply repeat_length.
  - destruct (step_read_inv _ _ _ H) as [Hpc Hopen]. destruct inp.
    + destruct (step_read_datagram st srcAddr payload Hpc Hopen)
        as (st1 & E & Hfw & Hst & Hbuf & Hpc' & Hrel & _ & Hmain & _).
      rewrite E in H. inversion H; subst st1; clear H E.
      rewrite Hpc in Hlen, Hcr. simpl in Hlen.
      unfold wf. rewrite Hst, Hfw, Hbuf, Hpc', Hrel, Hmain.
      rewrite read_buffer_length. simpl.
      split; [|split; [|split; [|split]]]; auto; try discriminate.
      * now apply AddReceived_in_range.
      * apply Forall_app. split; [exact Hf|].
        apply Forall_forall. intros g Hg. apply in_map_iff in Hg.
        destruct Hg as (t & <- & _). simpl. lia.
      * intros Hm. specialize (Hcr Hm). discriminate.
    + simpl in H. unfold step_read in H. rewrite Hpc in H. simpl in H.
      rewrite Hopen in H. inversion H; subst; clear H.
      rewrite Hpc in Hlen, Hcr. split_wf; auto; try discriminate.
      intros Hm. specialize (Hcr Hm). discriminate.
    + simpl in H. unfold step_read in H. rewrite Hpc in H. simpl in H.
      inversion H; subst; clear H.
      rewrite Hpc in Hlen, Hcr. split_wf; auto; try discriminate.
      intros Hm. specialize (Hcr Hm). discriminate.
  - simpl in H. unfold step_tick in H. break_step H;
      inversion H; subst; clear H; split_wf; auto.
  - simpl in H. unfold step_reporter_stop, rep_return in H. break_step H;
      inversion H; subst; clear H; split_wf; auto.
  - apply step_forward_spec in H.
    destruct H as (g & Hg & Hfw & Hrel & Hbuf & _ & _ & _ & Hmain & Hpc
                   & _ & Hst & _).
    unfold wf. rewrite Hfw, Hrel, Hbuf, Hmain, Hpc, Hst.
    split; [|split; [|split; [|split]]]; auto.
    + destruct o; auto using AddError_in_range, AddForwarded_in_range.
    + apply Forall_remove_nth, Hf.
    + intros Hb. rewrite (Hnone Hb). destruct i; reflexivity.
Qed.

Lemma wf_reachable r st : reachable r st -> wf st.
Proof.
  intros (ls & H). eapply (run_invariant wf wf_step); [apply wf_init | exact H].
Qed.

Lemma reachable_relay r st : reachable r st -> relay st = r.
Proof. intros (ls & H). now rewrite (run_relay _ _ _ H). Qed.

Lemma reachable_first_read r :
  0 <= BufferSize (config r) <= maxAlloc -> reachable r (at_first_read r).
Proof.
  intros Hb. exists [LMain; LRecv; LRecv]. unfold at_first_read.
  destruct (run [LMain; LRecv; LRecv] (init r)) as [st|] eqn:E; [reflexivity|].
  exfalso. revert E. unfold run, step, step_main, step_recv, Start, verbose.
  simpl. destruct (Verbose (config r)); simpl;
    rewrite (make_bytes_ok _ Hb); discriminate.
Qed.

(** ** C10: an empty datagram is a datagram *)

(** C10.  A zero-byte datagram read from [srcAddr] counts as one received
    packet and zero received bytes, and starts a forward of the empty
    payload to every configured target whose (IP, port) differs from
    [srcAddr]'s; nothing filters it out. *)
Theorem empty_datagram_is_counted_and_forwarded :
  forall r st srcAddr,
    reachable r st -> recv_at st = RcvRead -> conn_closed st = false ->
    exists st',
      step (LRead (InDatagram srcAddr [])) st = Some st' /\
      PacketsReceived (stats st') = U64.incr (PacketsReceived (stats st)) /\
      (PacketsReceived (stats st) + 1 < U64.modulus ->
       PacketsReceived (stats st') = PacketsReceived (stats st) + 1) /\
      BytesReceived (stats st') = BytesReceived (stats st) /\
      PacketsForwarded (stats st') = PacketsForwarded (stats st) /\
      BytesForwarded (stats st') = BytesForwarded (stats st) /\
      Errors (stats st') = Errors (stats st) /\
      forwards st'
      = forwards st
        ++ map (mkGo (mkSlice 0)) (non_source_targets srcAddr (targetConns r)) /\
      (forall target,
          In target (targetConns r) -> differs srcAddr target ->
          In (mkGo (mkSlice 0) target) (forwards st')).
Proof.
  intros r st srcAddr Hreach Hpc Hopen.
  pose proof (wf_reachable _ _ Hreach) as (Hrange & _).
  destruct Hrange as (HPR & _ & HBR & _).
  destruct (step_read_datagram st srcAddr [] Hpc Hopen)
    as (st' & Hstep & Hfw & Hst & _).
  simpl in Hfw, Hst. rewrite (reachable_relay _ _ Hreach) in Hfw.
  exists st'. split; [exact Hstep|]. rewrite Hst. simpl.
  split; [reflexivity|]. split.
  { intros Hno. apply incr_no_overflow; [apply HPR | exact Hno]. }
  split.
  { unfold U64.add, U64.of_int. rewrite wrap_wrap_add_r, Z.add_0_r.
    now apply wrap_small. }
  repeat (split; [reflexivity|]). split; [exact Hfw|].
  intros target Hin Hd. rewrite Hfw. apply in_or_app. right.
  apply in_map. now apply in_non_source_targets.
Qed.

Lemma empty_datagram_is_counted_and_forwarded_witness :
  exists st',
    step (LRead (InDatagram Ex.S [])) (at_first_read Ex.relay2) = Some st' /\
    PacketsReceived (stats st') = 1 /\
    forwards st' = [mkGo (mkSlice 0) Ex.T1; mkGo (mkSlice 0) Ex.T2].
Proof.
  destruct (empty_datagram_is_counted_and_forwarded
              Ex.relay2 (at_first_read Ex.relay2) Ex.S)
    as (st' & H1 & H2 & _ & _ & _ & _ & _ & H3 & _).
  - apply reachable_first_read. split; discriminate.
  - reflexivity.
  - reflexivity.
  - exists st'. split; [exact H1|]. split; [exact H2 | exact H3].
Defined.

(** ** C6: the three outcomes of a failed read *)

(** C6.  A read that times out changes no counter and logs nothing; the
    loop is back at its top and, unless shutdown was requested, reads
    again.  A read error that is no timeout brings the loop to its second
    [select]: there, if shutdown has been requested, the loop returns
    without a log line and without counting an error; if not, the error
    counter is incremented once (it is one more than before, unless it
    was at 2^64 - 1), the other counters stay, one line is logged, and the
    loop goes on to the next read. *)
Theorem read_failures_are_classified :
  (forall st,
      recv_at st = RcvRead -> conn_closed st = false ->
      step (LRead InTimeout) st = Some (set_recv RcvSelect st) /\
      (stopChan_closed st = false ->
       run [LRead InTimeout; LRecv] st = Some (set_recv RcvRead st))) /\
  (forall st,
      recv_at st = RcvRead ->
      step (LRead InError) st = Some (set_recv RcvErrSelect st)) /\
  (forall st,
      recv_at st = RcvErrSelect -> stopChan_closed st = true ->
      exists st',
        step LRecv st = Some st' /\ recv_at st' = RcvDone /\
        stats st' = stats st /\ log st' = log st /\
        step LRecv st' = None /\ (forall inp, step (LRead inp) st' = None)) /\
  (forall st,
      recv_at st = RcvErrSelect -> stopChan_closed st = false ->
      exists st',
        step LRecv st = Some st' /\ recv_at st' = RcvSelect /\
        stats st' = AddError (stats st) /\
        Errors (stats st') = U64.incr (Errors (stats st)) /\
        (0 <= Errors (stats st) -> Errors (stats st) + 1 < U64.modulus ->
         Errors (stats st') = Errors (stats st) + 1) /\
        PacketsReceived (stats st') = PacketsReceived (stats st) /\
        BytesReceived (stats st') = BytesReceived (stats st) /\
        PacketsForwarded (stats st') = PacketsForwarded (stats st) /\
        BytesForwarded (stats st') = BytesForwarded (stats st) /\
        log st' = log st ++ [LogReadError] /\
        step LRecv st' = Some (set_recv RcvRead st')).
Proof.
  split; [|split; [|split]].
  - intros st Hpc Hopen. simpl. unfold step_read. rewrite Hpc. simpl.
    rewrite Hopen. split; [reflexivity|].
    intros Hstop. unfold step_recv. simpl. rewrite Hstop.
    destruct st; reflexivity.
  - intros st Hpc. simpl. unfold step_read. now rewrite Hpc.
  - intros st Hpc Hstop. simpl. unfold step_recv, step_read.
    rewrite Hpc, Hstop. eexists. split; [reflexivity|]. simpl.
    repeat split; reflexivity.
  - intros st Hpc Hstop. simpl. unfold step_recv.
    rewrite Hpc, Hstop. eexists. split; [reflexivity|]. simpl.
    rewrite Hstop. repeat split; try reflexivity.
    intros H0 H1. now apply incr_no_overflow.
Qed.

Lemma read_failures_are_classified_witness :
  (step (LRead InTimeout) (at_first_read Ex.relay1)
   = Some (set_recv RcvSelect (at_first_read Ex.relay1))) /\
  (exists st',
      step LRecv (state_after [LRead InError] (at_first_read Ex.relay1))
      = Some st' /\
      recv_at st' = RcvSelect /\ Errors (stats st') = 1) /\
  (exists st',
      step LRecv (state_after [LSignal; LMain; LMain; LMain; LRead InError]
                    (at_first_read Ex.relay1))
      = Some st' /\
      recv_at st' = RcvDone /\ Errors (stats st') = 0).
Proof.
  destruct read_failures_are_classified as (H1 & _ & H3 & H4).
  split; [|split].
  - apply (H1 (at_first_read Ex.relay1)); reflexivity.
  - destruct (H4 (state_after [LRead InError] (at_first_read Ex.relay1)))
      as (st' & S & Hpc & _ & _ & He & _).
    + reflexivity.
    + reflexivity.
    + exists st'. split; [exact S|]. split; [exact Hpc|].
      rewrite He; [reflexivity | discriminate | reflexivity].
  - destruct (H3 (state_after [LSignal; LMain; LMain; LMain; LRead InError]
                    (at_first_read Ex.relay1)))
      as (st' & S & Hpc & Hst & _).
    + reflexivity.
    + reflexivity.
    + exists st'. split; [exact S|]. split; [exact Hpc|].
      rewrite Hst. reflexivity.
Defined.

(** ** C5: a forward succeeds, or counts one error and is gone *)

Lemma nth_error_Forall {A} (P : A -> Prop) (l : list A) : forall i x,
  Forall P l -> nth_error l i = Some x -> P x.
Proof.
  induction l as [|y l IH]; intros i x HF H; destruct i; simpl in H;
    try discriminate; inversion HF; subst.
  - now inversion H; subst.
  - eapply IH; eauto.
Qed.

Lemma firstn_app_exact {A} (a b : list A) :
  firstn (length a) (a ++ b) = a.
Proof.
  rewrite firstn_app, Nat.sub_diag, firstn_all. simpl. apply app_nil_r.
Qed.

Lemma at_first_read_spec r :
  0 <= BufferSize (config r) <= maxAlloc ->
  run [LMain; LRecv; LRecv] (init r) = Some (at_first_read r) /\
  recv_at (at_first_read r) = RcvRead /\
  conn_closed (at_first_read r) = false /\
  stopChan_closed (at_first_read r) = false /\
  main_at (at_first_read r) = MainWaitSignal /\
  buffer (at_first_read r)
  = repeat Byte.x00 (Z.to_nat (BufferSize (config r))) /\
  forwards (at_first_read r) = [] /\
  stats (at_first_read r) = Stats_zero /\
  sent (at_first_read r) = [] /\
  relay (at_first_read r) = r.
Proof.
  intros Hb. unfold at_first_read, run, step, step_main, step_recv, Start,
    verbose. simpl.
  destruct (Verbose (config r)); simpl;
    rewrite (make_bytes_ok _ Hb); simpl;
    repeat split; reflexivity.
Qed.

Lemma running_while_receiving st :
  recv_at st <> RcvDone -> process_exited st = false.
Proof.
  unfold process_exited. intros H.
  destruct (main_at st), (recv_at st); congruence.
Qed.

Lemma running_before_main_returns st :
  main_at st <> MainDone -> process_exited st = false.
Proof.
  unfold process_exited. intros H.
  destruct (main_at st), (recv_at st); congruence.
Qed.

Lemma step_forward_enabled st i g o :
  process_exited st = false ->
  nth_error (forwards st) i = Some g ->
  exists st', step (LForward i o) st = Some st'.
Proof. intros He H. simpl. unfold step_forward. rewrite He, H. eauto. Qed.

Lemma add_no_overflow (x y : Z) :
  0 <= x -> 0 <= y -> x + y < U64.modulus ->
  U64.add x (U64.of_int y) = x + y.
Proof.
  intros Hx Hy H. unfold U64.add, U64.of_int. rewrite wrap_wrap_add_r.
  apply wrap_small. split; lia.
Qed.

Lemma remove_nth_middle {A} (pre : list A) x post :
  remove_nth (length pre) (pre ++ x :: post) = pre ++ post.
Proof. induction pre as [|y pre IH]; simpl; [reflexivity | now rewrite IH]. Qed.

Lemma nth_error_middle {A} (pre : list A) x post :
  nth_error (pre ++ x :: post) (length pre) = Some x.
Proof. induction pre as [|y pre IH]; simpl; [reflexivity | exact IH]. Qed.

(** The two-target scenario: one read and the two forwards it starts, the
    first failing. *)
Lemma two_targets_one_unreachable st T1 T2 srcAddr payload fail :
  recv_at st = RcvRead -> conn_closed st = false ->
  targetConns (relay st) = [T1; T2] ->
  differs srcAddr T1 -> differs srcAddr T2 ->
  (length payload <= length (buffer st))%nat ->
  fail <> WriteSucceeds ->
  exists st',
    run [LRead (InDatagram srcAddr payload);
         LForward (length (forwards st)) fail;
         LForward (length (forwards st)) WriteSucceeds] st = Some st' /\
    stats st'
    = AddForwarded
        (AddError (AddReceived (stats st) (Z.of_nat (length payload))))
        (Z.of_nat (length payload)) /\
    sent st' = sent st ++ [(T2, payload)] /\
    forwards st' = forwards st /\
    recv_at st' = RcvSelect /\ main_at st' = main_at st /\
    stopChan_closed st' = stopChan_closed st.
Proof.
  intros Hpc Hopen Htc Hd1 Hd2 Hlen Hfail.
  apply is_source_false_iff in Hd1, Hd2.
  destruct (step_read_datagram st srcAddr payload Hpc Hopen)
    as (st2 & S2 & Hfw2 & Hst2 & Hbuf2 & Hpc2 & Hrel2 & Hsent2 & Hm2 & _ & _
        & _ & Hsc2).
  rewrite Nat.min_l in Hfw2, Hst2, Hbuf2 by exact Hlen.
  rewrite Htc in Hfw2. unfold non_source_targets in Hfw2.
  simpl in Hfw2. rewrite Hd1, Hd2 in Hfw2. simpl in Hfw2.
  rewrite firstn_all in Hbuf2.
  set (g1 := mkGo (mkSlice (length payload)) T1) in *.
  set (g2 := mkGo (mkSlice (length payload)) T2) in *.
  assert (Hrun2 : process_exited st2 = false)
    by (apply running_while_receiving; rewrite Hpc2; discriminate).
  destruct (step_forward_enabled st2 (length (forwards st)) g1 fail Hrun2)
    as (st3 & S3); [rewrite Hfw2; apply nth_error_middle|].
  pose proof (step_forward_spec _ _ _ _ S3)
    as (g & Hg & Hfw3 & _ & Hbuf3 & _ & Hsc3 & _ & Hm3 & Hpc3 & _ & Hst3
        & Hsent3 & _).
  rewrite Hfw2, nth_error_middle in Hg. inversion Hg; subst g; clear Hg.
  rewrite Hfw2, remove_nth_middle in Hfw3.
  assert (Hrun3 : process_exited st3 = false)
    by (apply running_while_receiving; rewrite Hpc3, Hpc2; discriminate).
  destruct (step_forward_enabled st3 (length (forwards st)) g2 WriteSucceeds
              Hrun3) as (st4 & S4); [rewrite Hfw3; apply nth_error_middle|].
  pose proof (step_forward_spec _ _ _ _ S4)
    as (g & Hg & Hfw4 & _ & Hbuf4 & _ & Hsc4 & _ & Hm4 & Hpc4 & _ & Hst4
        & Hsent4 & _).
  rewrite Hfw3, nth_error_middle in Hg. inversion Hg; subst g; clear Hg.
  rewrite Hfw3, remove_nth_middle, app_nil_r in Hfw4.
  exists st4. split; [unfold run; now rewrite S2, S3, S4|].
  assert (Hst3' : stats st3 = AddError (stats st2))
    by (rewrite Hst3; destruct fail; congruence).
  assert (Hsent3' : sent st3 = sent st2)
    by (rewrite Hsent3; destruct fail; congruence).
  rewrite Hst4, Hst3', Hst2, Hsent4, Hsent3', Hsent2, Hbuf3, Hbuf2.
  rewrite Hpc4, Hpc3, Hpc2, Hm4, Hm3, Hm2, Hsc4, Hsc3, Hsc2.
  simpl. unfold slice_bytes. simpl. rewrite firstn_app_exact.
  repeat (split; [reflexivity|]). split; [exact Hfw4|].
  repeat split; reflexivity.
Qed.

(** C5.  While the process runs, a pending forward can always run, and
    running it ends the goroutine: it is removed from the pending ones
    (nothing is retried), the others stay as they are, and the receive
    loop, [main], the reporter, the buffer and the received counters are
    untouched.  If the write succeeds, the whole payload goes out to the
    target, the forwarded packets grow by one and the forwarded bytes by the
    length of the payload (as [uint64]s: exactly, short of 2^64), the errors
    stay; if the dial or the write fails, the error counter grows by one,
    nothing goes out and the forwarded counters stay.
    With two targets, the first unreachable, a datagram read by the
    receive loop leaves one error more, one packet and the bytes of the
    payload more forwarded, the payload sent to the second target, the
    forwards that were pending before as they were, and the receive loop
    at the top of its loop, from where it goes on to its next read unless
    shutdown was requested. *)
Theorem forward_succeeds_or_counts_one_error :
  (forall r st i g o,
      reachable r st -> main_at st <> MainDone ->
      nth_error (forwards st) i = Some g ->
      exists st',
        step (LForward i o) st = Some st' /\
        forwards st' = remove_nth i (forwards st) /\
        recv_at st' = recv_at st /\ main_at st' = main_at st /\
        rep_at st' = rep_at st /\ buffer st' = buffer st /\
        stopChan_closed st' = stopChan_closed st /\
        conn_closed st' = conn_closed st /\ wg st' = wg st /\
        PacketsReceived (stats st') = PacketsReceived (stats st) /\
        BytesReceived (stats st') = BytesReceived (stats st) /\
        match o with
        | WriteSucceeds =>
            sent st' = sent st ++ [(fw_target g, slice_bytes (buffer st) (fw_data g))] /\
            length (slice_bytes (buffer st) (fw_data g)) = slice_len (fw_data g) /\
            PacketsForwarded (stats st') = U64.incr (PacketsForwarded (stats st)) /\
            (PacketsForwarded (stats st) + 1 < U64.modulus ->
             PacketsForwarded (stats st') = PacketsForwarded (stats st) + 1) /\
            BytesForwarded (stats st')
            = U64.add (BytesForwarded (stats st))
                      (Z.of_nat (slice_len (fw_data g))) /\
            (BytesForwarded (stats st) + Z.of_nat (slice_len (fw_data g))
             < U64.modulus ->
             BytesForwarded (stats st')
             = BytesForwarded (stats st) + Z.of_nat (slice_len (fw_data g))) /\
            Errors (stats st') = Errors (stats st)
        | _ =>
            sent st' = sent st /\
            Errors (stats st') = U64.incr (Errors (stats st)) /\
            (Errors (stats st) + 1 < U64.modulus ->
             Errors (stats st') = Errors (stats st) + 1) /\
            PacketsForwarded (stats st') = PacketsForwarded (stats st) /\
            BytesForwarded (stats st') = BytesForwarded (stats st)
        end) /\
  (forall r st T1 T2 srcAddr payload fail,
      reachable r st ->
      recv_at st = RcvRead -> conn_closed st = false ->
      targetConns r = [T1; T2] ->
      differs srcAddr T1 -> differs srcAddr T2 ->
      (length payload <= length (buffer st))%nat ->
      fail <> WriteSucceeds ->
      exists st',
        run [LRead (InDatagram srcAddr payload);
             LForward (length (forwards st)) fail;
             LForward (length (forwards st)) WriteSucceeds] st = Some st' /\
        (Errors (stats st) + 1 < U64.modulus ->
         Errors (stats st') = Errors (stats st) + 1) /\
        (PacketsForwarded (stats st) + 1 < U64.modulus ->
         PacketsForwarded (stats st') = PacketsForwarded (stats st) + 1) /\
        (BytesForwarded (stats st) + Z.of_nat (length payload) < U64.modulus ->
         BytesForwarded (stats st')
         = BytesForwarded (stats st) + Z.of_nat (length payload)) /\
        sent st' = sent st ++ [(T2, payload)] /\
        forwards st' = forwards st /\
        recv_at st' = RcvSelect /\ main_at st' = main_at st /\
        (stopChan_closed st = false ->
         step LRecv st' = Some (set_recv RcvRead st'))).
Proof.
  split.
  - intros r st i g o Hreach Hmain Hg.
    pose proof (wf_reachable _ _ Hreach) as (Hrange & Hfit & _).
    destruct Hrange as (_ & (Hpf & _) & _ & (Hbf & _) & (Her & _)).
    pose proof (nth_error_Forall _ _ _ _ Hfit Hg) as Hle. simpl in Hle.
    destruct (step_forward_enabled st i g o
                (running_before_main_returns st Hmain) Hg) as (st' & E).
    exists st'. split; [exact E|].
    apply step_forward_spec in E.
    destruct E as (g' & Hg' & Hfw & _ & Hbuf & Hcc & Hsc & Hwg & Hm & Hrc
                   & Hrp & Hst & Hsent & _).
    rewrite Hg in Hg'. inversion Hg'; subst g'; clear Hg'.
    rewrite Hst, Hsent.
    repeat (split; [assumption|]).
    destruct o; simpl; repeat split; try reflexivity.
    + intros H. now apply incr_no_overflow.
    + intros H. now apply incr_no_overflow.
    + unfold slice_bytes. rewrite length_firstn. lia.
    + intros H. now apply incr_no_overflow.
    + unfold U64.add, U64.of_int. now rewrite wrap_wrap_add_r.
    + intros H. apply add_no_overflow; [exact Hbf | lia | exact H].
  - intros r st T1 T2 srcAddr payload fail Hreach Hpc Hopen Htc Hd1 Hd2 Hlen
           Hfail.
    pose proof (wf_reachable _ _ Hreach) as (Hrange & _).
    destruct Hrange as (_ & (Hpf & _) & _ & (Hbf & _) & (Her & _)).
    rewrite <- (reachable_relay _ _ Hreach) in Htc.
    destruct (two_targets_one_unreachable st T1 T2 srcAddr payload fail
                Hpc Hopen Htc Hd1 Hd2 Hlen Hfail)
      as (st' & R & Hst & Hsent & Hfw & Hpc' & Hm & Hsc).
    exists st'. split; [exact R|]. rewrite Hst. simpl.
    split; [intros H; now apply incr_no_overflow|].
    split; [intros H; now apply incr_no_overflow|].
    split; [intros H; apply add_no_overflow; [exact Hbf | lia | exact H]|].
    repeat (split; [assumption|]).
    intros Hstop. unfold step_recv. now rewrite Hpc', Hsc, Hstop.
Qed.

Lemma forward_succeeds_or_counts_one_error_witness :
  (exists st',
      step (LForward 0 WriteSucceeds)
           (state_after [LMain; LRecv; LRecv; LRead (InDatagram Ex.S Ex.AAAA)]
              (init Ex.relay1))
      = Some st' /\
      PacketsForwarded (stats st') = 1 /\ BytesForwarded (stats st') = 4 /\
      Errors (stats st') = 0) /\
  (exists st',
      run [LRead (InDatagram Ex.S Ex.AAAA);
           LForward 0 DialFails; LForward 0 WriteSucceeds]
          (at_first_read Ex.relay2)
      = Some st' /\
      Errors (stats st') = 1 /\ PacketsForwarded (stats st') = 1 /\
      BytesForwarded (stats st') = 4 /\
      sent st' = [(Ex.T2, Ex.AAAA)] /\
      step LRecv st' = Some (set_recv RcvRead st')).
Proof.
  destruct forward_succeeds_or_counts_one_error as (F & H). split.
  - destruct (F Ex.relay1
                (state_after
                   [LMain; LRecv; LRecv; LRead (InDatagram Ex.S Ex.AAAA)]
                   (init Ex.relay1))
                0%nat (mkGo (mkSlice 4) Ex.T1) WriteSucceeds)
      as (st' & S & _ & _ & _ & _ & _ & _ & _ & _ & _ & _ & _ & _ & _ & Hpf
          & _ & Hbf & He).
    + exists [LMain; LRecv; LRecv; LRead (InDatagram Ex.S Ex.AAAA)].
      apply state_after_run. vm_compute. reflexivity.
    + vm_compute. discriminate.
    + vm_compute. reflexivity.
    + exists st'. split; [exact S|]. split; [|split].
      * rewrite Hpf; vm_compute; reflexivity.
      * rewrite Hbf; vm_compute; reflexivity.
      * rewrite He. vm_compute. reflexivity.
  - destruct (H Ex.relay2 (at_first_read Ex.relay2) Ex.T1 Ex.T2 Ex.S Ex.AAAA
                DialFails)
      as (st' & R & He & Hpf & Hbf & Hsent & _ & _ & _ & Hnext).
    + apply reachable_first_read. split; discriminate.
    + reflexivity.
    + reflexivity.
    + reflexivity.
    + intros [E _]. discriminate E.
    + intros [E _]. discriminate E.
    + apply Nat.leb_le. vm_compute. reflexivity.
    + discriminate.
    + exists st'. split; [exact R|].
      split; [rewrite He; vm_compute; reflexivity|].
      split; [rewrite Hpf; vm_compute; reflexivity|].
      split; [rewrite Hbf; vm_compute; reflexivity|].
      split; [rewrite Hsent; reflexivity|].
      apply Hnext. reflexivity.
Defined.

(** ** Counting *)

Lemma Zsum_app (a b : list Z) : Zsum (a ++ b) = Zsum a + Zsum b.
Proof. induction a as [|x a IH]; simpl; [reflexivity | rewrite IH; lia]. Qed.

Lemma Zsum_nonneg (l : list Z) : Forall (fun x => 0 <= x) l -> 0 <= Zsum l.
Proof. induction 1; simpl; lia. Qed.

Lemma b2z_nonneg b : 0 <= b2z b.
Proof. destruct b; simpl; lia. Qed.

Lemma count_received_app a b :
  count_received (a ++ b) = count_received a + count_received b.
Proof. unfold count_received. now rewrite map_app, Zsum_app. Qed.

Lemma count_forwarded_app a b :
  count_forwarded (a ++ b) = count_forwarded a + count_forwarded b.
Proof. unfold count_forwarded. now rewrite map_app, Zsum_app. Qed.

Lemma bytes_received_app cap a b :
  bytes_received cap (a ++ b) = bytes_received cap a + bytes_received cap b.
Proof. unfold bytes_received. now rewrite map_app, Zsum_app. Qed.

Lemma sent_bytes_app a b : sent_bytes (a ++ b) = sent_bytes a + sent_bytes b.
Proof. unfold sent_bytes. now rewrite map_app, Zsum_app. Qed.

Lemma count_errors_app a b :
  count_errors (a ++ b) = count_errors a + count_errors b.
Proof. unfold count_errors. now rewrite map_app, Zsum_app. Qed.

Lemma count_received_nonneg ls : 0 <= count_received ls.
Proof.
  apply Zsum_nonneg, Forall_forall. intros x Hx. apply in_map_iff in Hx.
  destruct Hx as (l & <- & _). apply b2z_nonneg.
Qed.

Lemma count_forwarded_nonneg ls : 0 <= count_forwarded ls.
Proof.
  apply Zsum_nonneg, Forall_forall. intros x Hx. apply in_map_iff in Hx.
  destruct Hx as (l & <- & _). apply b2z_nonneg.
Qed.

Lemma bytes_received_nonneg cap ls : 0 <= bytes_received cap ls.
Proof.
  apply Zsum_nonneg, Forall_forall. intros x Hx. apply in_map_iff in Hx.
  destruct Hx as (l & <- & _). destruct l; simpl; try lia.
  destruct inp; simpl; lia.
Qed.

Lemma count_errors_trace more :
  forallb is_trace_line more = true -> count_errors more = 0.
Proof.
  induction more as [|l more IH]; simpl; [reflexivity|].
  intros H. apply andb_true_iff in H. destruct H as [Hl Hm].
  unfold count_errors in *. simpl. rewrite (IH Hm).
  destruct l; simpl in *; try discriminate; reflexivity.
Qed.

Lemma count_errors_single line :
  count_errors [line] = b2z (is_error_line line).
Proof. unfold count_errors. simpl. lia. Qed.

Lemma sent_bytes_single target (payload : bytes) :
  sent_bytes [(target, payload)] = Z.of_nat (length payload).
Proof. unfold sent_bytes. simpl. lia. Qed.

Lemma wrap_eq_small x y : U64.in_range x -> y = x -> x = U64.wrap y.
Proof. intros H ->. symmetry. now apply wrap_small. Qed.

Lemma wrap_congr a b : a = b -> U64.wrap a = U64.wrap b.
Proof. now intros ->. Qed.

Ltac counters :=
  unfold U64.add, U64.of_int, U64.incr; rewrite ?wrap_wrap_add_r;
  repeat split;
  first [ lia
        | apply wrap_eq_small; [assumption | lia]
        | apply wrap_congr; lia ].

(** A step that touches neither the counters nor the network, and logs no
    error. *)
Lemma accounts_idle cap l st st' more :
  Stats_in_range (stats st) ->
  stats st' = stats st -> sent st' = sent st ->
  log st' = log st ++ more -> count_errors more = 0 ->
  is_received l = false -> is_forwarded l = false ->
  received_size cap l = 0 ->
  accounts cap l st st'.
Proof.
  intros (H1 & H2 & H3 & H4 & H5) Hst Hsent Hlog Hmore Hr Hf Hs.
  unfold accounts.
  rewrite Hst, Hsent, Hlog, count_errors_app, Hmore, Hr, Hf, Hs.
  cbn [b2z]. counters.
Qed.

Lemma accounts_error cap l st st' line :
  Stats_in_range (stats st) ->
  stats st' = AddError (stats st) -> sent st' = sent st ->
  log st' = log st ++ [line] -> is_error_line line = true ->
  is_received l = false -> is_forwarded l = false ->
  received_size cap l = 0 ->
  accounts cap l st st'.
Proof.
  intros (H1 & H2 & H3 & H4 & H5) Hst Hsent Hlog Hline Hr Hf Hs.
  unfold accounts.
  rewrite Hst, Hsent, Hlog, count_errors_app, count_errors_single, Hline,
    Hr, Hf, Hs.
  cbn [b2z AddError PacketsReceived PacketsForwarded BytesReceived
       BytesForwarded Errors]. counters.
Qed.

Lemma accounts_received cap st st' srcAddr payload more :
  Stats_in_range (stats st) ->
  stats st'
  = AddReceived (stats st) (Z.of_nat (Nat.min (length payload) cap)) ->
  sent st' = sent st ->
  log st' = log st ++ more -> count_errors more = 0 ->
  accounts cap (LRead (InDatagram srcAddr payload)) st st'.
Proof.
  intros (H1 & H2 & H3 & H4 & H5) Hst Hsent Hlog Hmore.
  unfold accounts.
  rewrite Hst, Hsent, Hlog, count_errors_app, Hmore.
  cbn [b2z AddReceived PacketsReceived PacketsForwarded BytesReceived
       BytesForwarded Errors is_received is_forwarded received_size].
  counters.
Qed.

Lemma accounts_forwarded cap i st st' target payload more :
  Stats_in_range (stats st) ->
  stats st' = AddForwarded (stats st) (Z.of_nat (length payload)) ->
  sent st' = sent st ++ [(target, payload)] ->
  log st' = log st ++ more -> count_errors more = 0 ->
  accounts cap (LForward i WriteSucceeds) st st'.
Proof.
  intros (H1 & H2 & H3 & H4 & H5) Hst Hsent Hlog Hmore.
  unfold accounts.
  rewrite Hst, Hsent, Hlog, count_errors_app, Hmore, sent_bytes_app,
    sent_bytes_single, length_app.
  cbn [b2z AddForwarded PacketsReceived PacketsForwarded BytesReceived
       BytesForwarded Errors is_received is_forwarded received_size length].
  counters.
Qed.

Ltac idle :=
  eapply accounts_idle;
  [ assumption | reflexivity | reflexivity
  | simpl; first [ reflexivity | symmetry; apply app_nil_r ]
  | reflexivity | reflexivity | reflexivity | reflexivity ].

(** Every step accounts for what it does. *)
Lemma step_accounts l st st' :
  wf st -> step l st = Some st' ->
  accounts (Z.to_nat (BufferSize (config (relay st)))) l st st'.
Proof.
  intros (Hr & Hf & Hlen & Hnone & Hcr) H. destruct l.
  - simpl in H. unfold step_main, Start, verbose in H. break_step H;
      inversion H; subst; clear H; idle.
  - simpl in H. unfold step_signal in H. break_step H;
      inversion H; subst; clear H; idle.
  - simpl in H. unfold step_recv, recv_return in H. break_step H;
      inversion H; subst; clear H; try idle.
    eapply accounts_error; try reflexivity; assumption.
  - destruct (step_read_inv _ _ _ H) as [Hpc Hopen]. destruct inp.
    + destruct (step_read_datagram_log _ _ _ _ H) as (more & Hlog & Hmore).
      destruct (step_read_datagram st srcAddr payload Hpc Hopen)
        as (st1 & E & _ & Hst & _ & _ & _ & Hsent & _).
      rewrite E in H. inversion H; subst st1; clear H E.
      rewrite Hpc in Hlen. rewrite Hlen in Hst by reflexivity.
      eapply accounts_received; eauto using count_errors_trace.
    + simpl in H. unfold step_read in H. rewrite Hpc in H. simpl in H.
      rewrite Hopen in H. inversion H; subst; clear H. idle.
    + simpl in H. unfold step_read in H. rewrite Hpc in H. simpl in H.
      inversion H; subst; clear H. idle.
  - simpl in H. unfold step_tick in H. break_step H;
      inversion H; subst; clear H; idle.
  - simpl in H. unfold step_reporter_stop, rep_return in H. break_step H;
      inversion H; subst; clear H; idle.
  - apply step_forward_spec in H.
    destruct H as (g & Hg & _ & _ & _ & _ & _ & _ & _ & _ & _ & Hst & Hsent
                   & Hlog).
    pose proof (nth_error_Forall _ _ _ _ Hf Hg) as Hle. simpl in Hle.
    destruct o.
    + eapply accounts_error; eauto; reflexivity.
    + eapply accounts_error; eauto; reflexivity.
    + eapply accounts_forwarded; eauto.
      * rewrite Hst. unfold slice_bytes. rewrite length_firstn.
        now rewrite Nat.min_l by exact Hle.
      * destruct (verbose st); reflexivity.
Qed.

Lemma run_reachable_wf r ls st : run ls (init r) = Some st -> wf st.
Proof. intros H. apply (wf_reachable r). now exists ls. Qed.

(** After any run from the start, every counter is its total modulo 2^64,
    and one datagram went out per successful forward. *)
Lemma run_accounts r : forall ls st,
  run ls (init r) = Some st ->
  counts_modulo st (totals r ls st) /\
  Z.of_nat (length (sent st)) = count_forwarded ls.
Proof.
  induction ls as [|l ls IH] using rev_ind; intros st H.
  - simpl in H. inversion H; subst. unfold counts_modulo. simpl.
    repeat split; reflexivity.
  - apply run_snoc in H. destruct H as (st1 & Hrun & Hstep).
    destruct (IH _ Hrun) as ((I1 & I2 & I3 & I4 & I5) & I6).
    pose proof (run_reachable_wf _ _ _ Hrun) as Hwf.
    pose proof (step_accounts _ _ _ Hwf Hstep)
      as (A1 & A2 & A3 & A4 & A5 & _ & _ & A8).
    rewrite (run_relay _ _ _ Hrun) in A3. simpl in A3, I3.
    unfold counts_modulo. simpl.
    rewrite count_received_app, count_forwarded_app, bytes_received_app.
    rewrite A1, A2, A3, A4, A5, A8, I1, I2, I3, I4, I5, I6.
    rewrite !wrap_wrap_add_l.
    unfold count_received, count_forwarded, bytes_received. simpl.
    rewrite !Z.add_0_r.
    repeat split; try reflexivity; apply wrap_congr; lia.
Qed.

(** Along a run the bytes sent and the errors logged only grow. *)
Lemma run_grows : forall ls st1 st2,
  wf st1 -> run ls st1 = Some st2 ->
  sent_bytes (sent st1) <= sent_bytes (sent st2) /\
  count_errors (log st1) <= count_errors (log st2).
Proof.
  induction ls as [|l ls IH]; intros st1 st2 Hwf H; simpl in H.
  - inversion H; subst. lia.
  - destruct (step l st1) as [st|] eqn:E; [|discriminate].
    pose proof (step_accounts _ _ _ Hwf E) as (_ & _ & _ & _ & _ & G1 & G2 & _).
    destruct (IH st st2 (wf_step _ _ _ Hwf E) H). lia.
Qed.

Lemma totals_grow r ls1 ls2 st1 st2 :
  run ls1 (init r) = Some st1 -> run ls2 st1 = Some st2 ->
  Stats_le (totals r ls1 st1) (totals r (ls1 ++ ls2) st2).
Proof.
  intros H1 H2. unfold Stats_le, totals. simpl.
  rewrite count_received_app, count_forwarded_app, bytes_received_app.
  pose proof (count_received_nonneg ls2).
  pose proof (count_forwarded_nonneg ls2).
  pose proof (bytes_received_nonneg (Z.to_nat (BufferSize (config r))) ls2).
  destruct (run_grows ls2 st1 st2 (run_reachable_wf _ _ _ H1) H2).
  repeat split; lia.
Qed.

Lemma totals_nonneg r ls st :
  run ls (init r) = Some st -> Stats_le Stats_zero (totals r ls st).
Proof.
  intros H.
  apply (totals_grow r [] ls (init r) st); [reflexivity | exact H].
Qed.

Lemma counts_exactly_of_modulo st t :
  counts_modulo st t -> Stats_in_range t -> counts_exactly st t.
Proof.
  intros (H1 & H2 & H3 & H4 & H5) (R1 & R2 & R3 & R4 & R5).
  unfold counts_exactly.
  rewrite H1, H2, H3, H4, H5, !wrap_small by assumption.
  repeat split; reflexivity.
Qed.

(** ** C4: the counters and what they count *)

(** C4, amended.  After any run in which [k] datagrams were received and
    [m] forwards succeeded, [PacketsReceived] is [k], [PacketsForwarded] is
    [m] and [BytesForwarded] is the sum of the sizes of the payloads sent,
    each modulo 2^64 ([BytesReceived] and [Errors] likewise), and [m]
    datagrams went out.  The totals never decrease along a run; so, as long
    as the totals are below 2^64, the counters are exactly the totals and
    no counter is smaller in a later state than in an earlier one. *)
Theorem counters_are_totals_modulo_2_64 :
  forall r ls1 ls2 st1 st2,
    run ls1 (init r) = Some st1 -> run ls2 st1 = Some st2 ->
    counts_modulo st2 (totals r (ls1 ++ ls2) st2) /\
    Z.of_nat (length (sent st2)) = count_forwarded (ls1 ++ ls2) /\
    Stats_le (totals r ls1 st1) (totals r (ls1 ++ ls2) st2) /\
    (Stats_in_range (totals r (ls1 ++ ls2) st2) ->
     counts_exactly st2 (totals r (ls1 ++ ls2) st2) /\
     counts_exactly st1 (totals r ls1 st1) /\
     Stats_le (stats st1) (stats st2)).
Proof.
  intros r ls1 ls2 st1 st2 H1 H2.
  assert (H12 : run (ls1 ++ ls2) (init r) = Some st2)
    by (now rewrite run_app, H1).
  destruct (run_accounts r _ _ H12) as (M2 & L2).
  destruct (run_accounts r _ _ H1) as (M1 & _).
  pose proof (totals_grow r ls1 ls2 st1 st2 H1 H2) as G.
  pose proof (totals_nonneg r ls1 st1 H1) as P.
  repeat (split; [assumption|]).
  intros R2.
  assert (R1 : Stats_in_range (totals r ls1 st1)).
  { destruct G as (G1 & G2 & G3 & G4 & G5).
    destruct P as (P1 & P2 & P3 & P4 & P5).
    destruct R2 as (R1 & R2 & R3 & R4 & R5).
    unfold Stats_in_range, U64.in_range in *.
    cbn [Stats_zero PacketsReceived PacketsForwarded BytesReceived
         BytesForwarded Errors] in P1, P2, P3, P4, P5.
    repeat split; lia. }
  pose proof (counts_exactly_of_modulo _ _ M2 R2) as E2.
  pose proof (counts_exactly_of_modulo _ _ M1 R1) as E1.
  repeat (split; [assumption|]).
  destruct E1 as (a1 & a2 & a3 & a4 & a5).
  destruct E2 as (b1 & b2 & b3 & b4 & b5).
  unfold Stats_le. rewrite a1, a2, a3, a4, a5, b1, b2, b3, b4, b5. exact G.
Qed.

Lemma counters_are_totals_modulo_2_64_witness :
  counts_modulo
    (state_after [LForward 0 DialFails; LForward 0 WriteSucceeds]
       (state_after [LMain; LRecv; LRecv; LRead (InDatagram Ex.S Ex.AAAA)]
          (init Ex.relay2)))
    (totals Ex.relay2
       ([LMain; LRecv; LRecv; LRead (InDatagram Ex.S Ex.AAAA)]
        ++ [LForward 0 DialFails; LForward 0 WriteSucceeds])
       (state_after [LForward 0 DialFails; LForward 0 WriteSucceeds]
          (state_after [LMain; LRecv; LRecv; LRead (InDatagram Ex.S Ex.AAAA)]
             (init Ex.relay2)))).
Proof.
  assert (H1 : run [LMain; LRecv; LRecv; LRead (InDatagram Ex.S Ex.AAAA)]
                   (init Ex.relay2)
               = Some (state_after
                         [LMain; LRecv; LRecv; LRead (InDatagram Ex.S Ex.AAAA)]
                         (init Ex.relay2)))
    by (apply state_after_run; vm_compute; reflexivity).
  assert (H2 : run [LForward 0 DialFails; LForward 0 WriteSucceeds]
                   (state_after
                      [LMain; LRecv; LRecv; LRead (InDatagram Ex.S Ex.AAAA)]
                      (init Ex.relay2))
               = Some (state_after
                         [LForward 0 DialFails; LForward 0 WriteSucceeds]
                         (state_after
                            [LMain; LRecv; LRecv;
                             LRead (InDatagram Ex.S Ex.AAAA)]
                            (init Ex.relay2))))
    by (apply state_after_run; vm_compute; reflexivity).
  exact (proj1 (counters_are_totals_modulo_2_64 _ _ _ _ _ H1 H2)).
Defined.

(** *** The claim as stated fails once a counter passes 2^64 - 1 *)

Lemma turn_runs st :
  recv_at st = RcvRead -> conn_closed st = false ->
  stopChan_closed st = false ->
  exists st',
    run turn st = Some st' /\ recv_at st' = RcvRead /\
    conn_closed st' = false /\ stopChan_closed st' = false.
Proof.
  intros Hpc Hcc Hsc.
  destruct (step_read_datagram st Ex.T1 [] Hpc Hcc)
    as (st1 & S1 & _ & _ & _ & Hpc1 & _ & _ & _ & _ & _ & Hcc1 & Hsc1).
  exists (set_recv RcvRead st1). unfold turn, run. rewrite S1.
  simpl. unfold step_recv. rewrite Hpc1, Hsc1, Hsc. simpl.
  repeat split; congruence.
Qed.

Lemma turns_run n : forall st,
  recv_at st = RcvRead -> conn_closed st = false ->
  stopChan_closed st = false ->
  exists st',
    run (concat (repeat turn n)) st = Some st' /\ recv_at st' = RcvRead /\
    conn_closed st' = false /\ stopChan_closed st' = false.
Proof.
  induction n as [|n IH]; intros st Hpc Hcc Hsc.
  - exists st. simpl. auto.
  - destruct (turn_runs st Hpc Hcc Hsc) as (st1 & R1 & Hpc1 & Hcc1 & Hsc1).
    destruct (IH st1 Hpc1 Hcc1 Hsc1) as (st2 & R2 & H2).
    exists st2. split; [|exact H2].
    change (concat (repeat turn (S n))) with (turn ++ concat (repeat turn n)).
    now rewrite run_app, R1.
Qed.

Lemma flood_runs n :
  exists st,
    run (flood n) (init Ex.relay1) = Some st /\ recv_at st = RcvRead /\
    conn_closed st = false /\ stopChan_closed st = false.
Proof.
  assert (Hb : 0 <= BufferSize (config Ex.relay1) <= maxAlloc)
    by (split; discriminate).
  destruct (at_first_read_spec Ex.relay1 Hb) as (R & Hpc & Hcc & Hsc & _).
  destruct (turns_run n _ Hpc Hcc Hsc) as (st & R' & H).
  exists st. split; [|exact H]. unfold flood. now rewrite run_app, R.
Qed.

Lemma count_received_turns n :
  count_received (concat (repeat turn n)) = Z.of_nat n.
Proof.
  induction n as [|n IH]; [reflexivity|].
  change (concat (repeat turn (S n))) with (turn ++ concat (repeat turn n)).
  rewrite count_received_app, IH, Nat2Z.inj_succ.
  change (count_received turn) with 1. lia.
Qed.

Lemma count_received_flood n : count_received (flood n) = Z.of_nat n.
Proof.
  unfold flood. rewrite count_received_app, count_received_turns.
  change (count_received [LMain; LRecv; LRecv]) with 0. lia.
Qed.

Lemma almost_all_Z : Z.of_nat almost_all = U64.modulus - 1.
Proof. unfold almost_all. apply Z2Nat.id. discriminate. Qed.

(** After [n] turns with [n] = 2^64 - 1, one more turn wraps the counter. *)
Lemma PacketsReceived_wraps_after n :
  Z.of_nat n = 2 ^ 64 - 1 ->
  exists st1 st2,
    run (flood n) (init Ex.relay1) = Some st1 /\
    run turn st1 = Some st2 /\
    count_received (flood n) = 2 ^ 64 - 1 /\
    count_received (flood n ++ turn) = 2 ^ 64 /\
    PacketsReceived (stats st1) = 2 ^ 64 - 1 /\
    PacketsReceived (stats st2) = 0 /\
    PacketsReceived (stats st2) <> count_received (flood n ++ turn) /\
    PacketsReceived (stats st2) < PacketsReceived (stats st1).
Proof.
  intros Hn.
  destruct (flood_runs n) as (st1 & R1 & Hpc & Hcc & Hsc).
  destruct (turn_runs st1 Hpc Hcc Hsc) as (st2 & R2 & _).
  assert (R12 : run (flood n ++ turn) (init Ex.relay1) = Some st2)
    by (now rewrite run_app, R1).
  destruct (run_accounts _ _ _ R1) as ((P1 & _) & _).
  destruct (run_accounts _ _ _ R12) as ((P2 & _) & _).
  cbn [totals PacketsReceived] in P1, P2.
  assert (K1 : count_received (flood n) = 2 ^ 64 - 1)
    by (rewrite count_received_flood; exact Hn).
  assert (K2 : count_received (flood n ++ turn) = 2 ^ 64).
  { rewrite count_received_app, K1.
    change (count_received turn) with 1. lia. }
  rewrite K1 in P1. rewrite K2 in P2.
  change (U64.wrap (2 ^ 64 - 1)) with (2 ^ 64 - 1) in P1.
  change (U64.wrap (2 ^ 64)) with 0 in P2.
  exists st1, st2.
  split; [exact R1|]. split; [exact R2|]. split; [exact K1|].
  split; [exact K2|]. split; [exact P1|]. split; [exact P2|].
  split.
  - rewrite P2, K2. discriminate.
  - rewrite P1, P2. reflexivity.
Qed.

(** The claim as stated fails: after 2^64 - 1 received datagrams
    [PacketsReceived] is 2^64 - 1, and the next datagram -- the 2^64-th --
    brings it to 0. *)
Lemma PacketsReceived_wraps_to_zero :
  exists st1 st2,
    run (flood almost_all) (init Ex.relay1) = Some st1 /\
    run turn st1 = Some st2 /\
    count_received (flood almost_all) = 2 ^ 64 - 1 /\
    count_received (flood almost_all ++ turn) = 2 ^ 64 /\
    PacketsReceived (stats st1) = 2 ^ 64 - 1 /\
    PacketsReceived (stats st2) = 0 /\
    PacketsReceived (stats st2) <> count_received (flood almost_all ++ turn) /\
    PacketsReceived (stats st2) < PacketsReceived (stats st1).
Proof. exact (PacketsReceived_wraps_after almost_all almost_all_Z). Qed.

(** ** The lifecycle invariant *)

Lemma lifecycle_init r : lifecycle (init r).
Proof. unfold lifecycle, init; simpl. repeat split; intros; discriminate. Qed.

Lemma existsb_final_trace more :
  forallb is_trace_line more = true -> existsb is_final_stats more = false.
Proof.
  induction more as [|l more IH]; simpl; [reflexivity|].
  intros H. apply andb_true_iff in H. destruct H as [Hl Hm].
  rewrite (IH Hm). destruct l; simpl in *; try discriminate; reflexivity.
Qed.

Ltac use_fields :=
  repeat match goal with
         | H : main_at ?s = _ |- context [main_at ?s] => rewrite H
         | H : recv_at ?s = _ |- context [recv_at ?s] => rewrite H
         | H : rep_at ?s = _ |- context [rep_at ?s] => rewrite H
         | H : stopChan_closed ?s = _ |- context [stopChan_closed ?s] =>
             rewrite H
         | H : conn_closed ?s = _ |- context [conn_closed ?s] => rewrite H
         | H : Verbose ?c = _ |- context [Verbose ?c] => rewrite H
         | H : existsb is_final_stats ?l = _
           |- context [existsb is_final_stats ?l] => rewrite H
         end.

Ltac pcs :=
  cbn [b2z recv_alive rep_alive recv_started rep_started started stop_raised
       socket_closed wait_returned final_logged andb orb negb existsb
       is_final_stats].

Ltac pcs_in H :=
  cbn [b2z recv_alive rep_alive recv_started rep_started started stop_raised
       socket_closed wait_returned final_logged andb orb negb existsb
       is_final_stats] in H.

Ltac fields :=
  cbn [relay conn_closed stopChan_closed wg stats buffer main_at recv_at
       rep_at forwards log sent set_conn_closed set_stopChan_closed set_wg
       set_stats set_buffer set_main set_recv set_rep set_forwards add_log
       add_sent recv_return rep_return].

Ltac lc_finish :=
  unfold lifecycle, verbose, recv_return, rep_return; fields;
  rewrite ?existsb_app; use_fields; pcs; rewrite ?orb_false_r;
  repeat split; intros; try discriminate; try congruence; try lia; auto;
  try match goal with
      | L : wait_returned ?m = true -> _, Hw : wait_returned ?m = true |- _ =>
          specialize (L Hw); lia
      end.

Lemma lifecycle_step l st st' :
  lifecycle st -> step l st = Some st' -> lifecycle st'.
Proof.
  intros (L1 & L2 & L3 & L4 & L5 & L6 & L7) H.
  unfold verbose in L5.
  pose proof (b2z_nonneg (rep_alive (rep_at st))) as Hnn1.
  pose proof (b2z_nonneg (recv_alive (recv_at st))) as Hnn2.
  destruct l.
  - simpl in H. unfold step_main, Start, verbose in H.
    destruct (main_at st) eqn:Hm; try discriminate H;
      pcs_in L2; pcs_in L3; pcs_in L4; pcs_in L5; pcs_in L6; pcs_in L7.
    + destruct (recv_at st) eqn:Hrc; try discriminate L4.
      destruct (rep_at st) eqn:Hrp; try discriminate L5.
      pcs_in L1. revert H. fields.
      destruct (Verbose (config (relay st))) eqn:Hv; intros H;
        inversion H; subst; clear H; lc_finish.
    + inversion H; subst; clear H. lc_finish.
    + destruct (stopChan_closed st) eqn:Hsc; [discriminate|].
      inversion H; subst. clear H. lc_finish.
    + inversion H; subst; clear H. lc_finish.
    + destruct (Z.eqb_spec (wg st) 0) as [Hz|]; [|discriminate].
      inversion H; subst; clear H. lc_finish.
    + inversion H; subst; clear H. lc_finish.
    + inversion H; subst; clear H. lc_finish.
  - simpl in H. unfold step_signal in H.
    destruct (main_at st) eqn:Hm; try discriminate H;
      pcs_in L2; pcs_in L3; pcs_in L4; pcs_in L5; pcs_in L6; pcs_in L7.
    inversion H; subst; clear H. lc_finish.
  - simpl in H. unfold step_recv in H.
    destruct (recv_at st) eqn:Hpc; try discriminate H; pcs_in L1; pcs_in L4.
    + destruct (make_bytes (BufferSize (config (relay st))));
        [|discriminate].
      inversion H; subst; clear H. lc_finish.
    + destruct (stopChan_closed st) eqn:Hsc; inversion H; subst; clear H;
        lc_finish.
    + destruct (stopChan_closed st) eqn:Hsc; inversion H; subst; clear H;
        lc_finish.
  - destruct (step_read_inv _ _ _ H) as [Hpc Hopen]. destruct inp.
    + destruct (step_read_datagram_log _ _ _ _ H) as (more & Hlog & Hmore).
      destruct (step_read_datagram st srcAddr payload Hpc Hopen)
        as (st1 & E & _ & _ & _ & Hpc' & Hrel & _ & Hmain & Hrep & Hwg & Hcc
            & Hsc).
      rewrite E in H. inversion H; subst st1; clear H E.
      unfold lifecycle, verbose.
      rewrite Hlog, Hpc', Hrel, Hmain, Hrep, Hwg, Hcc, Hsc, existsb_app,
        (existsb_final_trace _ Hmore), orb_false_r.
      rewrite Hpc in L1, L4. rewrite Hopen in L3.
      repeat split; auto.
    + simpl in H. unfold step_read in H. rewrite Hpc in H. simpl in H.
      rewrite Hopen in H. inversion H; subst; clear H.
      rewrite Hpc in L1, L4. lc_finish.
    + simpl in H. unfold step_read in H. rewrite Hpc in H. simpl in H.
      inversion H; subst; clear H.
      rewrite Hpc in L1, L4. lc_finish.
  - simpl in H. unfold step_tick in H.
    destruct (process_exited st); [discriminate|].
    destruct (rep_at st) eqn:Hpc; try discriminate H.
    inversion H; subst; clear H. lc_finish.
  - simpl in H. unfold step_reporter_stop in H.
    destruct (process_exited st); [discriminate|].
    destruct (rep_at st) eqn:Hpc; try discriminate H.
    destruct (stopChan_closed st) eqn:Hsc; [|discriminate].
    inversion H; subst; clear H. pcs_in L1. pcs_in L5. lc_finish.
  - apply step_forward_spec in H.
    destruct H as (g & _ & _ & Hrel & _ & Hcc & Hsc & Hwg & Hm & Hpc & Hrp
                   & _ & _ & Hlog).
    unfold lifecycle, verbose.
    rewrite Hrel, Hcc, Hsc, Hwg, Hm, Hpc, Hrp, Hlog, existsb_app, L7.
    assert (Hnf : existsb is_final_stats
                    match o with
                    | DialFails => [LogDialError (fw_target g)]
                    | WriteFails => [LogWriteError (fw_target g)]
                    | WriteSucceeds =>
                        if verbose st
                        then [LogForwarded (Z.of_nat (slice_len (fw_data g)))
                                           (fw_target g)]
                        else []
                    end = false)
      by (destruct o; try reflexivity; destruct (verbose st); reflexivity).
    rewrite Hnf, orb_false_r. repeat split; auto.
Qed.

Lemma lifecycle_reachable r ls st : run ls (init r) = Some st -> lifecycle st.
Proof.
  intros H.
  eapply (run_invariant lifecycle lifecycle_step);
    [apply lifecycle_init | exact H].
Qed.

(** [main] returns only after [wg.Wait()], so after [receiveLoop] has
    returned: in a run the process has exited exactly when [main] is done. *)
Lemma exited_iff_main_done st :
  lifecycle st -> (process_exited st = true <-> main_at st = MainDone).
Proof.
  intros (L1 & _ & _ & L4 & _ & L6 & _). unfold process_exited.
  pose proof (b2z_nonneg (rep_alive (rep_at st))) as Hnn.
  destruct (main_at st) eqn:Hm; try (split; intros; discriminate).
  specialize (L6 eq_refl). rewrite L6 in L1.
  destruct (recv_at st); pcs_in L1; pcs_in L4; try discriminate L4;
    try (exfalso; lia); split; reflexivity.
Qed.

(** ** C8: the order of [Stop] *)

Lemma in_final_stats_existsb s lg :
  In (LogFinalStats s) lg -> existsb is_final_stats lg = true.
Proof. intros H. apply existsb_exists. exists (LogFinalStats s). auto. Qed.





(** ** C2: the payload of a forward is a slice of the receive buffer *)

(** A forward that runs before the next read sends the datagram as it was
    received, if the datagram fits into the buffer. *)
Lemma forward_before_next_read_is_verbatim st srcAddr payload :
  recv_at st = RcvRead -> conn_closed st = false ->
  (length payload <= length (buffer st))%nat ->
  exists st',
    step (LRead (InDatagram srcAddr payload)) st = Some st' /\
    forall i g,
      nth_error (forwards st') i = Some g ->
      (length (forwards st) <= i)%nat ->
      exists st'',
        step (LForward i WriteSucceeds) st' = Some st'' /\
        sent st'' = sent st ++ [(fw_target g, payload)].
Proof.
  intros Hpc Hopen Hlen.
  destruct (step_read_datagram st srcAddr payload Hpc Hopen)
    as (st' & Hstep & Hfw & _ & Hbuf & Hpc' & _ & Hsent & _).
  rewrite Nat.min_l in Hfw, Hbuf by exact Hlen.
  exists st'. split; [exact Hstep|].
  intros i g Hg Hi.
  assert (Hrun : process_exited st' = false)
    by (apply running_while_receiving; rewrite Hpc'; discriminate).
  destruct (step_forward_enabled st' i g WriteSucceeds Hrun Hg)
    as (st'' & S2).
  exists st''. split; [exact S2|].
  apply step_forward_spec in S2.
  destruct S2 as (g' & Hg' & _ & _ & _ & _ & _ & _ & _ & _ & _ & _ & Hs & _).
  rewrite Hg in Hg'. inversion Hg'; subst g'; clear Hg'.
  rewrite Hs, Hsent, Hbuf. f_equal. f_equal. f_equal.
  rewrite Hfw in Hg. rewrite nth_error_app2 in Hg by exact Hi.
  apply nth_error_In, in_map_iff in Hg. destruct Hg as (t & <- & _).
  unfold slice_bytes. simpl. rewrite firstn_all. apply firstn_app_exact.
Qed.

(** A forward that runs after the next read sends what the buffer holds
    then: the front of the later datagram, over the earlier one. *)
Lemma forward_after_next_read_sends_buffer st i g srcAddr payload :
  recv_at st = RcvRead -> conn_closed st = false ->
  nth_error (forwards st) i = Some g ->
  let n := Nat.min (length payload) (length (buffer st)) in
  exists st',
    run [LRead (InDatagram srcAddr payload); LForward i WriteSucceeds] st
    = Some st' /\
    sent st'
    = sent st
      ++ [(fw_target g,
           firstn (slice_len (fw_data g))
                  (firstn n payload ++ skipn n (buffer st)))].
Proof.
  intros Hpc Hopen Hg n.
  destruct (step_read_datagram st srcAddr payload Hpc Hopen)
    as (st1 & S1 & Hfw & _ & Hbuf & Hpc1 & _ & Hsent & _).
  fold n in Hbuf.
  assert (Hg1 : nth_error (forwards st1) i = Some g).
  { rewrite Hfw. rewrite nth_error_app1; [exact Hg|].
    apply nth_error_Some. congruence. }
  assert (Hrun : process_exited st1 = false)
    by (apply running_while_receiving; rewrite Hpc1; discriminate).
  destruct (step_forward_enabled st1 i g WriteSucceeds Hrun Hg1)
    as (st2 & S2).
  exists st2. split; [unfold run; now rewrite S1, S2|].
  apply step_forward_spec in S2.
  destruct S2 as (g' & Hg' & _ & _ & _ & _ & _ & _ & _ & _ & _ & _ & Hs & _).
  rewrite Hg1 in Hg'. inversion Hg'; subst g'; clear Hg'.
  rewrite Hs, Hsent, Hbuf. reflexivity.
Qed.

(** C2.  The payload of a forward is not isolated from the receive buffer.
    Two datagrams "AAAA" and "BB" arrive from 192.168.1.50:4000; the forward
    of the first to 10.0.0.5:9999 runs after the second was read: what goes
    out is "BBAA".  [BytesForwarded] still counts 4 bytes.  Had the forward
    run before the second read, "AAAA" would have gone out. *)
Theorem late_forward_sends_overwritten_payload :
  (exists st,
      run late_forward (init Ex.relay1) = Some st /\
      sent st = [(Ex.T1, Ex.BBAA)] /\
      Ex.BBAA <> Ex.AAAA /\
      BytesForwarded (stats st) = 4) /\
  (exists st,
      run prompt_forward (init Ex.relay1) = Some st /\
      sent st = [(Ex.T1, Ex.AAAA)]).
Proof.
  split.
  - exists (state_after late_forward (init Ex.relay1)).
    split; [apply state_after_run; vm_compute; reflexivity|].
    repeat split; try (vm_compute; reflexivity). discriminate.
  - exists (state_after prompt_forward (init Ex.relay1)).
    split; [apply state_after_run; vm_compute; reflexivity|].
    vm_compute; reflexivity.
Qed.

(** * Further properties of the code *)

(** ** The counters do not depend on the order of the updates *)

Lemma apply_update_comm s u v :
  apply_update (apply_update s u) v = apply_update (apply_update s v) u.
Proof.
  destruct u as [n| n|], v as [m|m|]; simpl; try reflexivity;
    unfold AddReceived, AddForwarded, AddError; simpl; f_equal;
    unfold U64.add, U64.of_int;
    rewrite !wrap_wrap_add_r, !wrap_wrap_add_l; apply wrap_congr; lia.
Qed.

Lemma apply_updates_perm us vs :
  Permutation us vs -> forall s, apply_updates us s = apply_updates vs s.
Proof.
  unfold apply_updates.
  induction 1 as [|u us vs _ IH|u v us|us vs ws _ IH1 _ IH2]; intros s; simpl.
  - reflexivity.
  - apply IH.
  - now rewrite apply_update_comm.
  - now rewrite IH1.
Qed.

(** X1.  The mutators of [Stats] commute: whatever order the goroutines
    take the lock in, the same calls leave the same counters. *)
Theorem stats_updates_commute :
  forall us vs s,
    Permutation us vs -> apply_updates us s = apply_updates vs s.
Proof. intros us vs s H. now apply apply_updates_perm. Qed.

Lemma stats_updates_commute_witness :
  apply_updates [UError; UForwarded 4; UReceived 4] Stats_zero
  = apply_updates [UReceived 4; UForwarded 4; UError] Stats_zero.
Proof.
  apply stats_updates_commute.
  apply Permutation_sym, Permutation_rev.
Defined.

(** ** What a step may log *)

Lemma forward_all_verbose srcAddr data targets : forall st,
  verbose (forward_all srcAddr data targets st) = verbose st.
Proof.
  intros st. unfold verbose.
  destruct (forward_all_frame srcAddr data targets st) as (E & _).
  now rewrite E.
Qed.

Lemma forward_all_log_skips srcAddr data targets : forall st,
  exists more,
    log (forward_all srcAddr data targets st) = log st ++ more /\
    Forall (fun line => verbose st = true /\ exists t, line = LogSkip t) more.
Proof.
  induction targets as [|target rest IH]; intros st; simpl.
  - exists []. now rewrite app_nil_r.
  - destruct (is_source srcAddr target).
    + destruct (IH (log_if_verbose (LogSkip target) st)) as (more & -> & Hm).
      assert (Hvv : verbose (log_if_verbose (LogSkip target) st) = verbose st).
      { unfold verbose.
        destruct (log_if_verbose_frame (LogSkip target) st) as (E & _).
        now rewrite E. }
      rewrite Hvv in Hm.
      unfold log_if_verbose. destruct (verbose st) eqn:Hv.
      * exists (LogSkip target :: more). simpl. rewrite <- app_assoc.
        split; [reflexivity|]. constructor; [|exact Hm]. eauto.
      * exists more. split; [reflexivity|exact Hm].
    + destruct (IH (spawn (mkGo data target) st)) as (more & -> & Hm).
      exists more. split; [reflexivity|exact Hm].
Qed.

Lemma step_may_log l st st' :
  step l st = Some st' ->
  exists more,
    log st' = log st ++ more /\
    Forall (fun line => may_log l st line = true) more.
Proof.
  intros H. destruct l.
  - simpl in H. unfold step_main, Start, verbose in H. break_step H;
      inversion H; subst; clear H; simpl;
      try (eexists; split; [reflexivity|]; repeat constructor);
      exists []; rewrite app_nil_r; split; auto.
  - simpl in H. unfold step_signal in H. break_step H;
      inversion H; subst; clear H; simpl.
    exists []; rewrite app_nil_r; split; auto.
  - simpl in H. unfold step_recv, recv_return in H. break_step H;
      inversion H; subst; clear H; simpl;
      try (eexists; split; [reflexivity|]; repeat constructor);
      exists []; rewrite app_nil_r; split; auto.
  - destruct (step_read_inv _ _ _ H) as [Hpc Hopen]. destruct inp.
    + simpl in H. unfold step_read in H. rewrite Hpc in H. simpl in H.
      rewrite Hopen in H. inversion H; subst; clear H.
      cbn [log set_recv].
      match goal with
      | |- context [forward_all ?a ?b ?c ?d] =>
          destruct (forward_all_log_skips a b c d) as (more & -> & Hm);
          destruct (log_if_verbose_frame
                      (LogReceived
                         (Z.of_nat (Nat.min (length payload)
                                            (length (buffer st)))) srcAddr)
                      (set_stats
                         (AddReceived (stats st)
                            (Z.of_nat (Nat.min (length payload)
                                               (length (buffer st)))))
                         (set_buffer
                            (firstn (Nat.min (length payload)
                                             (length (buffer st))) payload
                             ++ skipn (Nat.min (length payload)
                                               (length (buffer st)))
                                      (buffer st)) st)))
            as (Erel & _)
      end.
      assert (Hm' : Forall (fun line => may_log (LRead (InDatagram srcAddr payload)) st line = true) more).
      { eapply Forall_impl; [|exact Hm]. intros line (Hv & t & ->). simpl.
        unfold verbose in *. rewrite Erel in Hv. exact Hv. }
      clear Hm. unfold log_if_verbose. unfold verbose at 1. cbn [relay set_stats set_buffer].
      fold (verbose st). destruct (verbose st) eqn:Hv; cbn [log add_log set_stats set_buffer].
      * eexists (_ :: more). rewrite <- app_assoc. split; [reflexivity|].
        constructor; [simpl; exact Hv | exact Hm'].
      * exists more. split; [reflexivity | exact Hm'].
    + simpl in H. unfold step_read in H. rewrite Hpc in H. simpl in H.
      rewrite Hopen in H. inversion H; subst; clear H. simpl.
      exists []; rewrite app_nil_r; split; auto.
    + simpl in H. unfold step_read in H. rewrite Hpc in H. simpl in H.
      inversion H; subst; clear H. simpl.
      exists []; rewrite app_nil_r; split; auto.
  - simpl in H. unfold step_tick in H.
    destruct (process_exited st); [discriminate|].
    destruct (rep_at st) eqn:Hpc; try discriminate H.
    inversion H; subst; clear H. simpl.
    eexists; split; [reflexivity|]. repeat constructor. simpl. now rewrite Hpc.
  - simpl in H. unfold step_reporter_stop, rep_return in H. break_step H;
      inversion H; subst; clear H; simpl.
    exists []; rewrite app_nil_r; split; auto.
  - apply step_forward_spec in H.
    destruct H as (g & _ & _ & _ & _ & _ & _ & _ & _ & _ & _ & _ & _ & Hlog).
    eexists; split; [exact Hlog|].
    destruct o; simpl; repeat constructor.
    destruct (verbose st); repeat constructor.
Qed.

(** ** No verbose line without [-verbose] *)

Lemma may_log_quiet l st line :
  verbose st = false -> rep_started (rep_at st) = false ->
  may_log l st line = true -> is_verbose_line line = false.
Proof.
  intros Hv Hr. destruct l as [| | |inp| | |i o]; try destruct o;
    destruct line; simpl; rewrite ?Hv, ?Hr; congruence.
Qed.

(** X2.  Without [-verbose] the relay never logs a received, skipped or
    forwarded datagram, and never a periodic stats line: its log holds the
    start-up lines, the errors and the lines of [Stop] only. *)
Theorem quiet_unless_verbose :
  forall r ls st,
    Verbose (config r) = false ->
    run ls (init r) = Some st ->
    forall line, In line (log st) -> is_verbose_line line = false.
Proof.
  intros r ls. induction ls as [|l ls IH] using rev_ind; intros st Hv H line Hin.
  - simpl in H. inversion H; subst. destruct Hin.
  - apply run_snoc in H. destruct H as (st1 & Hrun & Hstep).
    destruct (step_may_log _ _ _ Hstep) as (more & Hlog & Hmore).
    rewrite Hlog in Hin. apply in_app_or in Hin. destruct Hin as [Hin|Hin].
    + eapply IH; eauto.
    + rewrite Forall_forall in Hmore. specialize (Hmore _ Hin).
      pose proof (lifecycle_reachable _ _ _ Hrun) as (_ & _ & _ & _ & L5 & _).
      assert (Hv1 : verbose st1 = false).
      { unfold verbose. rewrite (run_relay _ _ _ Hrun). exact Hv. }
      rewrite Hv1, andb_false_r in L5.
      eapply may_log_quiet; eauto.
Qed.

Lemma quiet_unless_verbose_witness :
  forallb (fun line => negb (is_verbose_line line))
          (log (state_after late_forward (init Ex.relay1))) = true.
Proof.
  apply forallb_forall. intros line Hin.
  rewrite (quiet_unless_verbose Ex.relay1 late_forward
             (state_after late_forward (init Ex.relay1))
             eq_refl
             (state_after_run late_forward (init Ex.relay1) eq_refl)
             line Hin).
  reflexivity.
Defined.

(** ** The loops end only on shutdown, and shutdown only on a signal *)

Lemma step_control l st st' :
  step l st = Some st' ->
  (stopChan_closed st = true -> stopChan_closed st' = true) /\
  (recv_at st' = RcvDone ->
   recv_at st = RcvDone \/ stopChan_closed st = true) /\
  (rep_at st' = RepDone -> rep_at st = RepDone \/ stopChan_closed st = true) /\
  (past_signal (main_at st') = true ->
   is_signal l = true \/ past_signal (main_at st) = true).
Proof.
  intros H. destruct l.
  - simpl in H. unfold step_main, Start, verbose in H.
    destruct (main_at st) eqn:Hm; try discriminate H.
    + revert H. fields.
      destruct (Verbose (config (relay st))); intros H; inversion H; subst;
        clear H; fields; repeat split; intros; try discriminate; auto.
    + inversion H; subst; clear H; fields; repeat split; auto.
    + destruct (stopChan_closed st) eqn:Hsc; [discriminate|].
      inversion H; subst; clear H; fields; repeat split; auto.
    + inversion H; subst; clear H; fields; repeat split; auto.
    + destruct (wg st =? 0); [|discriminate].
      inversion H; subst; clear H; fields; repeat split; auto.
    + inversion H; subst; clear H; fields; repeat split; auto.
    + inversion H; subst; clear H; fields; repeat split; auto.
  - simpl in H. unfold step_signal in H.
    destruct (main_at st) eqn:Hm; try discriminate H.
    inversion H; subst; clear H; fields; repeat split; auto.
  - simpl in H. unfold step_recv, recv_return in H.
    destruct (recv_at st) eqn:Hpc; try discriminate H.
    + destruct (make_bytes (BufferSize (config (relay st))));
        [|discriminate].
      inversion H; subst; clear H; fields; repeat split; intros;
        try discriminate; auto.
    + destruct (stopChan_closed st) eqn:Hsc; inversion H; subst; clear H;
        fields; repeat split; intros; try discriminate; auto.
    + destruct (stopChan_closed st) eqn:Hsc; inversion H; subst; clear H;
        fields; repeat split; intros; try discriminate; auto.
  - destruct (step_read_inv _ _ _ H) as [Hpc Hopen]. destruct inp.
    + destruct (step_read_datagram st srcAddr payload Hpc Hopen)
        as (st1 & E & _ & _ & _ & Hpc' & _ & _ & Hmain & Hrep & _ & _ & Hsc).
      rewrite E in H. inversion H; subst st1; clear H E.
      rewrite Hpc', Hmain, Hrep, Hsc.
      repeat split; intros; try discriminate; auto.
    + simpl in H. unfold step_read in H. rewrite Hpc in H. simpl in H.
      rewrite Hopen in H. inversion H; subst; clear H; fields.
      repeat split; intros; try discriminate; auto.
    + simpl in H. unfold step_read in H. rewrite Hpc in H. simpl in H.
      inversion H; subst; clear H; fields.
      repeat split; intros; try discriminate; auto.
  - simpl in H. unfold step_tick in H.
    destruct (process_exited st); [discriminate|].
    destruct (rep_at st) eqn:Hpc; try discriminate H.
    inversion H; subst; clear H; fields.
    repeat split; intros; try congruence; auto.
  - simpl in H. unfold step_reporter_stop, rep_return in H.
    destruct (process_exited st); [discriminate|].
    destruct (rep_at st) eqn:Hpc; try discriminate H.
    destruct (stopChan_closed st) eqn:Hsc; [|discriminate].
    inversion H; subst; clear H; fields.
    repeat split; intros; try congruence; auto.
  - apply step_forward_spec in H.
    destruct H as (g & _ & _ & _ & _ & _ & Hsc & _ & Hm & Hpc & Hrp & _).
    rewrite Hsc, Hm, Hpc, Hrp. repeat split; auto.
Qed.

Lemma loops_end_after_stop r ls : forall st,
  run ls (init r) = Some st ->
  (recv_at st = RcvDone -> stopChan_closed st = true) /\
  (rep_at st = RepDone -> stopChan_closed st = true).
Proof.
  induction ls as [|l ls IH] using rev_ind; intros st H.
  - simpl in H. inversion H; subst. simpl. split; discriminate.
  - apply run_snoc in H. destruct H as (st1 & Hrun & Hstep).
    destruct (IH _ Hrun) as (I1 & I2).
    destruct (step_control _ _ _ Hstep) as (C1 & C2 & C3 & _).
    split; intros Hd.
    + destruct (C2 Hd) as [Hd1|Hs]; auto.
    + destruct (C3 Hd) as [Hd1|Hs]; auto.
Qed.

Lemma stop_after_signal r ls : forall st,
  run ls (init r) = Some st ->
  past_signal (main_at st) = true -> In LSignal ls.
Proof.
  induction ls as [|l ls IH] using rev_ind; intros st H Hp.
  - simpl in H. inversion H; subst. discriminate.
  - apply run_snoc in H. destruct H as (st1 & Hrun & Hstep).
    destruct (step_control _ _ _ Hstep) as (_ & _ & _ & C4).
    apply in_or_app. destruct (C4 Hp) as [Hs|Hp1].
    + right. destruct l; try discriminate. now left.
    + left. eapply IH; eauto.
Qed.

(** X3.  Nothing but a shutdown ends the loops: if the receive loop or the
    reporter has returned, or the stop channel or the socket is closed, then
    SIGINT or SIGTERM was delivered before.  No read error, no failed
    forward and no timeout ends the receive loop. *)
Theorem loops_end_only_after_a_signal :
  forall r ls st,
    run ls (init r) = Some st ->
    recv_at st = RcvDone \/ rep_at st = RepDone
    \/ stopChan_closed st = true \/ conn_closed st = true ->
    In LSignal ls.
Proof.
  intros r ls st H Hex.
  destruct (loops_end_after_stop r ls st H) as (I1 & I2).
  pose proof (lifecycle_reachable _ _ _ H) as (_ & L2 & L3 & _).
  apply (stop_after_signal r ls st H).
  assert (Hs : stopChan_closed st = true \/ conn_closed st = true)
    by (destruct Hex as [E|[E|[E|E]]]; auto).
  rewrite L2, L3 in Hs.
  destruct (main_at st); simpl in *; destruct Hs; congruence.
Qed.

Lemma loops_end_only_after_a_signal_witness :
  In LSignal stop_with_pending_forward.
Proof.
  apply (loops_end_only_after_a_signal Ex.relay1 stop_with_pending_forward
           (state_after stop_with_pending_forward (init Ex.relay1))).
  - apply state_after_run. vm_compute. reflexivity.
  - left. vm_compute. reflexivity.
Defined.

(** ** Shutdown always completes *)

Ltac dist :=
  unfold shutdown_distance; fields; use_fields;
  cbn [main_distance recv_distance rep_distance]; try lia.

Ltac closer :=
  split;
  [ dist
  | fields; use_fields; cbn [buffer_allocated];
    first [reflexivity | assumption] ].

(** Once the receive loop has its buffer, in every state of the lifecycle
    but the last some goroutine can take a step that brings the relay
    closer to the end of [Stop]. *)
Lemma shutdown_progress st :
  lifecycle st -> buffer_allocated (recv_at st) = true ->
  main_at st <> MainDone ->
  exists l st',
    step l st = Some st' /\
    (shutdown_distance st' < shutdown_distance st)%nat /\
    buffer_allocated (recv_at st') = true.
Proof.
  intros (L1 & L2 & L3 & L4 & L5 & L6 & L7) Ha Hnd.
  unfold verbose in L5.
  destruct (main_at st) eqn:Hm; try congruence; clear Hnd;
    pcs_in L2; pcs_in L3; pcs_in L4; pcs_in L5.
  - (* MainCreated: the receive loop has not started *)
    exfalso. destruct (recv_at st); try discriminate L4; discriminate Ha.
  - exists LSignal. simpl. unfold step_signal. rewrite Hm.
    eexists. split; [reflexivity|]. closer.
  - exists LMain. simpl. unfold step_main. rewrite Hm.
    eexists. split; [reflexivity|]. closer.
  - exists LMain. simpl. unfold step_main. rewrite Hm, L2.
    eexists. split; [reflexivity|]. closer.
  - exists LMain. simpl. unfold step_main. rewrite Hm.
    eexists. split; [reflexivity|]. closer.
  - (* StopWait: the loops first *)
    destruct (recv_at st) eqn:Hrc; try discriminate Ha.
    + exists LRecv. simpl. unfold step_recv. rewrite Hrc, L2.
      eexists. split; [reflexivity|]. unfold recv_return. closer.
    + exists (LRead InError). simpl. unfold step_read. rewrite Hrc. simpl.
      eexists. split; [reflexivity|]. closer.
    + exists LRecv. simpl. unfold step_recv. rewrite Hrc, L2.
      eexists. split; [reflexivity|]. unfold recv_return. closer.
    + destruct (rep_at st) eqn:Hrp.
      * exists LMain. simpl. unfold step_main. rewrite Hm.
        pcs_in L1. rewrite L1. simpl.
        eexists. split; [reflexivity|]. closer.
      * exists LReporterStop. simpl. unfold step_reporter_stop.
        rewrite (running_before_main_returns st)
          by (rewrite Hm; discriminate).
        rewrite Hrp, L2.
        eexists. split; [reflexivity|]. unfold rep_return. closer.
      * exists LMain. simpl. unfold step_main. rewrite Hm.
        pcs_in L1. rewrite L1. simpl.
        eexists. split; [reflexivity|]. closer.
  - exists LMain. simpl. unfold step_main. rewrite Hm.
    eexists. split; [reflexivity|]. closer.
  - exists LMain. simpl. unfold step_main. rewrite Hm.
    eexists. split; [reflexivity|]. closer.
Qed.

Lemma main_pc_done_dec (pc : main_pc) : {pc = MainDone} + {pc <> MainDone}.
Proof. destruct pc; (left; reflexivity) || (right; discriminate). Qed.

Lemma shutdown_within n : forall st,
  lifecycle st -> buffer_allocated (recv_at st) = true ->
  (shutdown_distance st <= n)%nat ->
  exists ls st',
    (length ls <= n)%nat /\ run ls st = Some st' /\ main_at st' = MainDone.
Proof.
  induction n as [|n IH]; intros st Hl Ha Hd.
  - exists [], st. split; [simpl; lia|]. split; [reflexivity|].
    unfold shutdown_distance in Hd.
    destruct (main_at st); simpl in Hd; try lia. reflexivity.
  - destruct (main_pc_done_dec (main_at st)) as [Hdone|Hnd].
    + exists [], st. split; [simpl; lia|]. split; [reflexivity|exact Hdone].
    + destruct (shutdown_progress st Hl Ha Hnd)
        as (l & st1 & Hstep & Hlt & Ha1).
      destruct (IH st1) as (ls & st' & Hlen & Hrun & Hdone).
      * eapply lifecycle_step; eauto.
      * exact Ha1.
      * lia.
      * exists (l :: ls), st'. split; [simpl; lia|].
        split; [simpl; now rewrite Hstep | exact Hdone].
Qed.

Lemma shutdown_distance_bound st :
  lifecycle st -> buffer_allocated (recv_at st) = true ->
  (shutdown_distance st <= 10)%nat.
Proof.
  intros (L1 & L2 & L3 & L4 & L5 & _) Ha.
  unfold shutdown_distance.
  destruct (main_at st); pcs_in L4; pcs_in L5;
    destruct (recv_at st); try discriminate L4; try discriminate Ha;
    destruct (rep_at st); try discriminate L5;
    cbn [main_distance recv_distance rep_distance]; lia.
Qed.

Lemma lifecycle_after_wait st :
  lifecycle st -> wait_returned (main_at st) = true ->
  recv_at st = RcvDone /\ rep_alive (rep_at st) = false.
Proof.
  intros (L1 & _ & _ & L4 & _ & L6 & _) Hw.
  specialize (L6 Hw). rewrite L6 in L1.
  assert (Hs : started (main_at st) = true)
    by (destruct (main_at st); try discriminate Hw; reflexivity).
  rewrite Hs in L4.
  pose proof (b2z_nonneg (recv_alive (recv_at st))).
  pose proof (b2z_nonneg (rep_alive (rep_at st))).
  split.
  - destruct (recv_at st); try discriminate L4; try reflexivity;
      cbn [recv_alive b2z] in *; lia.
  - destruct (rep_alive (rep_at st)); [|reflexivity].
    cbn [b2z] in *. lia.
Qed.

(** X4.  The relay can always be shut down once the receive loop has
    allocated its buffer: from every state it can reach from there on,
    there is a schedule of at most 10 steps of [main], the receive loop and
    the reporter after which [Stop] has returned and both loops have ended.
    Closing the socket is what gets the receive loop out of its read. *)
Theorem shutdown_always_completes :
  forall r ls st,
    run ls (init r) = Some st ->
    buffer_allocated (recv_at st) = true ->
    exists ls' st',
      (length ls' <= 10)%nat /\ run ls' st = Some st' /\
      main_at st' = MainDone /\ recv_at st' = RcvDone /\
      rep_alive (rep_at st') = false.
Proof.
  intros r ls st Hrun Ha.
  pose proof (lifecycle_reachable _ _ _ Hrun) as Hl.
  destruct (shutdown_within 10 st Hl Ha)
    as (ls' & st' & Hlen & Hrun' & Hdone).
  - now apply shutdown_distance_bound.
  - exists ls', st'. repeat (split; [assumption|]).
    assert (Hrun2 : run (ls ++ ls') (init r) = Some st')
      by (now rewrite run_app, Hrun).
    apply (lifecycle_after_wait st').
    + eapply lifecycle_reachable; eauto.
    + now rewrite Hdone.
Qed.

Lemma shutdown_always_completes_witness :
  exists ls' st',
    (length ls' <= 10)%nat /\
    run ls' (state_after late_forward (init Ex.relay1)) = Some st' /\
    main_at st' = MainDone.
Proof.
  destruct (shutdown_always_completes Ex.relay1 late_forward
              (state_after late_forward (init Ex.relay1)))
    as (ls' & st' & H1 & H2 & H3 & _).
  - apply state_after_run. vm_compute. reflexivity.
  - vm_compute. reflexivity.
  - exists ls', st'. split; [exact H1|]. split; [exact H2 | exact H3].
Defined.

(** ** Every forward that is started ends as a datagram or as an error *)

Lemma count_forward_errors_app a b :
  count_forward_errors (a ++ b)
  = count_forward_errors a + count_forward_errors b.
Proof. unfold count_forward_errors. now rewrite map_app, Zsum_app. Qed.

Lemma length_remove_nth {A} (l : list A) : forall i x,
  nth_error l i = Some x -> (length (remove_nth i l) + 1 = length l)%nat.
Proof.
  induction l as [|y l IH]; intros i x H; destruct i; simpl in *;
    try discriminate; try lia.
  rewrite <- (IH _ _ H). lia.
Qed.

Lemma may_log_no_forward_error l st more :
  (forall i o, l <> LForward i o) ->
  Forall (fun line => may_log l st line = true) more ->
  count_forward_errors more = 0.
Proof.
  intros Hl. induction 1 as [|line more Hline _ IH]; [reflexivity|].
  change (line :: more) with ([line] ++ more).
  rewrite count_forward_errors_app, IH.
  unfold count_forward_errors. simpl.
  destruct l; try (exfalso; eapply Hl; reflexivity);
    destruct line; simpl in *; try discriminate; reflexivity.
Qed.

(** Steps other than a successful read and a forward neither start nor
    finish a forward. *)
Lemma step_keeps_forwards l st st' :
  step l st = Some st' ->
  (forall i o, l <> LForward i o) ->
  (forall srcAddr payload, l <> LRead (InDatagram srcAddr payload)) ->
  forwards st' = forwards st /\ sent st' = sent st.
Proof.
  intros H Hf Hr. destruct l.
  - simpl in H. unfold step_main, Start, verbose in H. break_step H;
      inversion H; subst; clear H; split; reflexivity.
  - simpl in H. unfold step_signal in H. break_step H;
      inversion H; subst; clear H; split; reflexivity.
  - simpl in H. unfold step_recv, recv_return in H. break_step H;
      inversion H; subst; clear H; split; reflexivity.
  - destruct (step_read_inv _ _ _ H) as [Hpc Hopen]. destruct inp.
    + exfalso. eapply Hr. reflexivity.
    + simpl in H. unfold step_read in H. rewrite Hpc in H. simpl in H.
      rewrite Hopen in H. inversion H; subst; clear H. split; reflexivity.
    + simpl in H. unfold step_read in H. rewrite Hpc in H. simpl in H.
      inversion H; subst; clear H. split; reflexivity.
  - simpl in H. unfold step_tick in H. break_step H;
      inversion H; subst; clear H; split; reflexivity.
  - simpl in H. unfold step_reporter_stop, rep_return in H. break_step H;
      inversion H; subst; clear H; split; reflexivity.
  - exfalso. eapply Hf. reflexivity.
Qed.

Lemma step_forwards_accounted_idle l st st' :
  step l st = Some st' ->
  (forall i o, l <> LForward i o) ->
  (forall srcAddr payload, l <> LRead (InDatagram srcAddr payload)) ->
  forwards_accounted st' = forwards_accounted st.
Proof.
  intros H Hf Hr. unfold forwards_accounted.
  destruct (step_may_log _ _ _ H) as (more & Hlog & Hmore).
  destruct (step_keeps_forwards _ _ _ H Hf Hr) as (E1 & E2).
  rewrite E1, E2, Hlog, count_forward_errors_app,
    (may_log_no_forward_error _ _ _ Hf Hmore).
  lia.
Qed.

Lemma step_forwards_accounted l st st' :
  step l st = Some st' ->
  forwards_accounted st'
  = forwards_accounted st + dispatched_by (targetConns (relay st)) l.
Proof.
  intros H.
  destruct l as [| | |[srcAddr payload| |]| | |i o];
    try (rewrite (step_forwards_accounted_idle _ _ _ H);
         [simpl; lia | discriminate | discriminate]).
  - unfold forwards_accounted.
    destruct (step_may_log _ _ _ H) as (more & Hlog & Hmore).
    destruct (step_read_inv _ _ _ H) as [Hpc Hopen].
    destruct (step_read_datagram st srcAddr payload Hpc Hopen)
      as (st1 & E & Hfw & _ & _ & _ & _ & Hsent & _).
    rewrite E in H. inversion H; subst st1; clear H E.
    assert (Hnf : forall i o, LRead (InDatagram srcAddr payload)
                              <> LForward i o) by discriminate.
    rewrite Hlog, count_forward_errors_app,
      (may_log_no_forward_error _ _ _ Hnf Hmore).
    rewrite Hfw, Hsent, length_app, length_map. simpl. lia.
  - unfold forwards_accounted. apply step_forward_spec in H.
    destruct H as (g & Hg & Hfw & _ & _ & _ & _ & _ & _ & _ & _ & _ & Hsent
                   & Hlog).
    pose proof (length_remove_nth _ _ _ Hg) as Hlen.
    rewrite Hfw, Hsent, Hlog, count_forward_errors_app.
    destruct o; simpl; rewrite ?length_app; simpl;
      unfold count_forward_errors; simpl; try lia.
    destruct (verbose st); simpl; lia.
Qed.

Lemma dispatched_app targets a b :
  dispatched targets (a ++ b) = dispatched targets a + dispatched targets b.
Proof. unfold dispatched. now rewrite map_app, Zsum_app. Qed.

Lemma run_forwards_accounted r : forall ls st,
  run ls (init r) = Some st ->
  forwards_accounted st = dispatched (targetConns r) ls.
Proof.
  induction ls as [|l ls IH] using rev_ind; intros st H.
  - simpl in H. inversion H; subst. reflexivity.
  - apply run_snoc in H. destruct H as (st1 & Hrun & Hstep).
    rewrite (step_forwards_accounted _ _ _ Hstep), (IH _ Hrun),
      (run_relay _ _ _ Hrun), dispatched_app.
    unfold dispatched at 3. simpl. lia.
Qed.

Lemma dispatched_bound targets ls :
  dispatched targets ls <= count_received ls * Z.of_nat (length targets).
Proof.
  induction ls as [|l ls IH]; [reflexivity|].
  change (l :: ls) with ([l] ++ ls).
  rewrite dispatched_app, count_received_app.
  assert (H1 : dispatched targets [l]
               <= count_received [l] * Z.of_nat (length targets)).
  { unfold dispatched, count_received.
    cbn [map Zsum fold_right].
    destruct l as [| | |[srcAddr payload| |]| | |i o];
      cbn [dispatched_by is_received b2z]; try lia.
    unfold non_source_targets.
    pose proof (filter_length_le
                  (fun target => negb (is_source srcAddr target)) targets).
    lia. }
  rewrite Z.mul_add_distr_r. lia.
Qed.

(** X5.  No forward is lost and none is invented: after any run, the
    forwards the receive loop has started (one per received datagram and
    target that is not its source) are exactly the forwards still pending,
    the datagrams sent and the forward errors logged.  So at most as many
    datagrams go out as datagrams came in times the number of targets. *)
Theorem forwards_are_conserved :
  forall r ls st,
    run ls (init r) = Some st ->
    dispatched (targetConns r) ls
    = Z.of_nat (length (forwards st)) + Z.of_nat (length (sent st))
      + count_forward_errors (log st)
    /\ Z.of_nat (length (sent st))
       <= count_received ls * Z.of_nat (length (targetConns r)).
Proof.
  intros r ls st H.
  pose proof (run_forwards_accounted r ls st H) as E.
  unfold forwards_accounted in E. split; [now rewrite E|].
  pose proof (dispatched_bound (targetConns r) ls).
  assert (0 <= count_forward_errors (log st)).
  { apply Zsum_nonneg, Forall_forall. intros x Hx. apply in_map_iff in Hx.
    destruct Hx as (l & <- & _). apply b2z_nonneg. }
  lia.
Qed.

Lemma forwards_are_conserved_witness :
  dispatched (targetConns Ex.relay1) late_forward
  = Z.of_nat (length (forwards (state_after late_forward (init Ex.relay1))))
    + Z.of_nat (length (sent (state_after late_forward (init Ex.relay1))))
    + count_forward_errors
        (log (state_after late_forward (init Ex.relay1))).
Proof.
  apply (forwards_are_conserved Ex.relay1 late_forward).
  apply state_after_run. vm_compute. reflexivity.
Defined.

(** ** Forwards that run before the next read, and forwards that do not *)

(** Running the goroutines [gs] behind [pre] one after the other sends what
    their slices hold in the buffer as it is, and leaves [pre] pending. *)
Lemma drain_sends gs : forall st pre,
  recv_at st <> RcvDone ->
  forwards st = pre ++ gs ->
  exists st',
    run (drain (length pre) (length gs)) st = Some st' /\
    forwards st' = pre /\
    buffer st' = buffer st /\
    recv_at st' = recv_at st /\
    sent st'
    = sent st
      ++ map (fun g => (fw_target g, slice_bytes (buffer st) (fw_data g))) gs.
Proof.
  induction gs as [|g gs IH]; intros st pre Hrc Hfw.
  - exists st. simpl. rewrite app_nil_r in *. auto.
  - assert (Hg : nth_error (forwards st) (length pre) = Some g)
      by (rewrite Hfw; apply nth_error_middle).
    destruct (step_forward_enabled st (length pre) g WriteSucceeds
                (running_while_receiving st Hrc) Hg)
      as (st1 & S1).
    pose proof (step_forward_spec _ _ _ _ S1)
      as (g' & Hg' & Hfw1 & _ & Hbuf1 & _ & _ & _ & _ & Hpc1 & _ & _ & Hsent1
          & _).
    rewrite Hg in Hg'. inversion Hg'; subst g'; clear Hg'.
    rewrite Hfw, remove_nth_middle in Hfw1.
    destruct (IH st1 pre) as (st' & R & F & B & P & S);
      [now rewrite Hpc1 | exact Hfw1 |].
    exists st'. split.
    { unfold drain in *. cbn [length repeat run]. now rewrite S1. }
    rewrite F, B, P, S, Hbuf1, Hpc1, Hsent1. simpl.
    rewrite <- app_assoc. auto.
Qed.

(** X6.  A datagram that fits into the buffer is relayed byte for byte to
    every configured target that is not its source, once to each entry and
    in their order, if its forwards run before the next datagram is read. *)
Theorem prompt_forwards_relay_verbatim :
  forall st srcAddr payload,
    recv_at st = RcvRead -> conn_closed st = false ->
    (length payload <= length (buffer st))%nat ->
    let targets := non_source_targets srcAddr (targetConns (relay st)) in
    exists st',
      run (LRead (InDatagram srcAddr payload)
           :: drain (length (forwards st)) (length targets)) st
      = Some st' /\
      sent st' = sent st ++ fan_out payload targets /\
      forwards st' = forwards st.
Proof.
  intros st srcAddr payload Hpc Hopen Hlen targets.
  destruct (step_read_datagram st srcAddr payload Hpc Hopen)
    as (st1 & S1 & Hfw & _ & Hbuf & Hpc1 & _ & Hsent & _).
  rewrite Nat.min_l in Hfw, Hbuf by exact Hlen. fold targets in Hfw.
  assert (Hrc : recv_at st1 <> RcvDone) by (rewrite Hpc1; discriminate).
  destruct (drain_sends _ st1 (forwards st) Hrc Hfw)
    as (st' & R & F & _ & _ & S).
  rewrite length_map in R.
  exists st'. split; [cbn [run]; now rewrite S1|]. split; [|exact F].
  rewrite S, Hsent, Hbuf. f_equal. unfold fan_out. rewrite map_map.
  apply map_ext. intros target. unfold slice_bytes. simpl.
  now rewrite firstn_all, firstn_app_exact.
Qed.

Lemma prompt_forwards_relay_verbatim_witness :
  exists st',
    run (LRead (InDatagram Ex.S Ex.AAAA)
         :: drain (length (forwards (at_first_read Ex.relay2)))
              (length (non_source_targets Ex.S
                         (targetConns (relay (at_first_read Ex.relay2))))))
        (at_first_read Ex.relay2)
    = Some st' /\
    sent st'
    = sent (at_first_read Ex.relay2)
      ++ fan_out Ex.AAAA
           (non_source_targets Ex.S
              (targetConns (relay (at_first_read Ex.relay2)))).
Proof.
  destruct (prompt_forwards_relay_verbatim (at_first_read Ex.relay2)
              Ex.S Ex.AAAA) as (st' & H1 & H2 & _).
  - reflexivity.
  - reflexivity.
  - apply Nat.leb_le. vm_compute. reflexivity.
  - exists st'. split; [exact H1 | exact H2].
Defined.

(** X7.  A forward holds a slice of the receive buffer, not a copy: if the
    next datagram is read before the forward writes, and it is at least as
    long as the slice, the forward sends the front of that later datagram
    in place of its own. *)
Theorem late_forward_sends_later_datagram :
  forall st i g srcAddr payload,
    recv_at st = RcvRead -> conn_closed st = false ->
    nth_error (forwards st) i = Some g ->
    (slice_len (fw_data g) <= length payload)%nat ->
    (slice_len (fw_data g) <= length (buffer st))%nat ->
    exists st',
      run [LRead (InDatagram srcAddr payload); LForward i WriteSucceeds] st
      = Some st' /\
      sent st'
      = sent st ++ [(fw_target g, firstn (slice_len (fw_data g)) payload)].
Proof.
  intros st i g srcAddr payload Hpc Hopen Hg Hl1 Hl2.
  destruct (forward_after_next_read_sends_buffer st i g srcAddr payload
              Hpc Hopen Hg) as (st' & R & S).
  exists st'. split; [exact R|]. rewrite S. do 3 f_equal.
  rewrite firstn_app.
  rewrite length_firstn.
  replace (slice_len (fw_data g)
           - Nat.min (Nat.min (length payload) (length (buffer st)))
                     (length payload))%nat with 0%nat by lia.
  simpl. rewrite app_nil_r, firstn_firstn. f_equal. lia.
Qed.

Lemma late_forward_sends_later_datagram_witness :
  exists st',
    run [LRead (InDatagram Ex.S Ex.AAAA); LForward 0 WriteSucceeds]
        (state_after [LMain; LRecv; LRecv; LRead (InDatagram Ex.S Ex.BB); LRecv]
           (init Ex.relay1))
    = Some st' /\
    sent st'
    = sent (state_after
              [LMain; LRecv; LRecv; LRead (InDatagram Ex.S Ex.BB); LRecv]
              (init Ex.relay1))
      ++ [(fw_target (mkGo (mkSlice 2) Ex.T1),
           firstn (slice_len (fw_data (mkGo (mkSlice 2) Ex.T1))) Ex.AAAA)].
Proof.
  apply (late_forward_sends_later_datagram
           (state_after
              [LMain; LRecv; LRecv; LRead (InDatagram Ex.S Ex.BB); LRecv]
              (init Ex.relay1))
           0 (mkGo (mkSlice 2) Ex.T1) Ex.S Ex.AAAA).
  - vm_compute. reflexivity.
  - vm_compute. reflexivity.
  - vm_compute. reflexivity.
  - apply Nat.leb_le. vm_compute. reflexivity.
  - apply Nat.leb_le. vm_compute. reflexivity.
Defined.

(** ** The command line *)

Lemma collect_targets_filter TrimSpace pieces : forall acc,
  collect_targets TrimSpace pieces acc
  = acc ++ filter (fun target => negb (string_is_empty target))
                  (map TrimSpace pieces).
Proof.
  induction pieces as [|p rest IH]; intros acc; simpl.
  - now rewrite app_nil_r.
  - destruct (string_is_empty (TrimSpace p)); simpl; rewrite IH.
    + reflexivity.
    + now rewrite <- app_assoc.
Qed.

(** X8.  [parseConfig] takes the targets from the [-targets] flag as the
    pieces between the commas, trimmed, without the empty ones, in their
    order and with their repetitions; the other settings are the flags as
    given.  [-version] goes first and leaves with status 0; an empty flag or
    a flag without a non-empty piece leaves with status 1. *)
Theorem parseConfig_takes_the_nonempty_pieces :
  forall TrimSpace f,
    parseConfig TrimSpace f
    = if flag_version f then Exit 0
      else if string_is_empty (flag_targets f) then Exit 1
      else match targets_of_flag TrimSpace (flag_targets f) with
           | [] => Exit 1
           | targets =>
               Parsed (mkConfig (flag_port f) (flag_listen f) targets
                                (flag_buffer f) (flag_verbose f) false)
           end.
Proof.
  intros TrimSpace f. unfold parseConfig, targets_of_flag.
  rewrite collect_targets_filter. simpl.
  destruct (flag_version f) eqn:Hv; [reflexivity|].
  destruct (string_is_empty (flag_targets f)); [reflexivity|].
  destruct (filter _ _); reflexivity.
Qed.

(** ** Start-up *)

(** What [main] starts, when it starts. *)
Lemma main_boot_created TrimSpace os f acts st :
  main_boot TrimSpace os f = (acts, BootCreated st) ->
  exists cfg r,
    parseConfig TrimSpace f = Parsed cfg /\
    NewRelay os cfg = (acts, inr r) /\
    st = created r acts /\ config r = cfg /\
    map Some (targetConns r) = map (ResolveUDPAddr os) (TargetAddrs cfg).
Proof.
  unfold main_boot. intros H.
  destruct (parseConfig TrimSpace f) as [code|cfg]; [discriminate|].
  destruct (NewRelay os cfg) as [a [e|r]] eqn:HN; [discriminate|].
  inversion H; subst. exists cfg, r.
  destruct (NewRelay_ok_shape _ _ _ _ HN). auto.
Qed.

Lemma construction_log_resolves targets rest :
  construction_log (map SysResolve targets ++ rest) = construction_log rest.
Proof. induction targets as [|t ts IH]; simpl; [reflexivity | exact IH]. Qed.

(** The only line [NewRelay] logs is its warning. *)
Lemma NewRelay_construction_log os cfg acts r :
  NewRelay os cfg = (acts, inr r) ->
  construction_log acts
  = if SetReadBuffer os (BufferSize cfg) then [] else [LogWarnReadBuffer].
Proof.
  unfold NewRelay. intros H.
  destruct (resolve_targets os (TargetAddrs cfg) []) as [a [e|tc]] eqn:E;
    [discriminate|].
  destruct (resolve_targets_succeeds os (TargetAddrs cfg) [])
    as (addrs & E' & _).
  { eapply resolve_targets_inr; eauto. }
  rewrite E in E'. inversion E'; subst a tc; clear E'.
  destruct (ResolveUDPAddr os _) as [laddr|]; [|discriminate].
  destruct (ListenUDP os laddr); [|discriminate].
  destruct (SetReadBuffer os (BufferSize cfg)); inversion H; subst;
    now rewrite construction_log_resolves.
Qed.

(** No step reads the log: lines logged before a run stay in front of what
    the run logs, and change nothing else. *)
Lemma add_log_logged_before pre ls st :
  add_log ls (logged_before pre st) = logged_before pre (add_log ls st).
Proof. unfold add_log, logged_before. simpl. now rewrite app_assoc. Qed.

Lemma forward_all_logged_before pre srcAddr data targets : forall st,
  forward_all srcAddr data targets (logged_before pre st)
  = logged_before pre (forward_all srcAddr data targets st).
Proof.
  induction targets as [|t ts IH]; intros st; simpl; [reflexivity|].
  destruct (is_source srcAddr t).
  - unfold log_if_verbose, verbose. simpl.
    destruct (Verbose (config (relay st)));
      [rewrite add_log_logged_before|]; apply IH.
  - apply (IH (spawn (mkGo data t) st)).
Qed.

Ltac same_but_log :=
  cbv beta iota delta
    [option_map relay conn_closed stopChan_closed wg stats buffer main_at
     recv_at rep_at forwards log sent set_conn_closed set_stopChan_closed
     set_wg set_stats set_buffer set_main set_recv set_rep set_forwards
     add_log add_sent recv_return rep_return];
  rewrite <- ?app_assoc; try reflexivity.

Lemma received_logged_before pre n srcAddr buffer' st :
  log_if_verbose (LogReceived n srcAddr)
    (set_stats
       (AddReceived (stats (set_buffer buffer' (logged_before pre st))) n)
       (set_buffer buffer' (logged_before pre st)))
  = logged_before pre
      (log_if_verbose (LogReceived n srcAddr)
         (set_stats (AddReceived (stats (set_buffer buffer' st)) n)
            (set_buffer buffer' st))).
Proof.
  destruct st as [r cc sc w s b m rc rp fw lg sn].
  unfold log_if_verbose, verbose, logged_before. same_but_log.
  destruct (Verbose (config r)); same_but_log.
Qed.

Lemma step_read_logged_before pre inp st :
  step_read inp (logged_before pre st)
  = option_map (logged_before pre) (step_read inp st).
Proof.
  unfold step_read.
  change (recv_at (logged_before pre st)) with (recv_at st).
  change (conn_closed (logged_before pre st)) with (conn_closed st).
  change (buffer (logged_before pre st)) with (buffer st).
  destruct (recv_at st); try reflexivity.
  destruct (ReadFromUDP (conn_closed st) inp (buffer st))
    as [[buffer' [n srcAddr| |]]|]; try reflexivity.
  cbv zeta. cbn [option_map]. f_equal.
  rewrite received_logged_before.
  set (st1 := log_if_verbose _ _).
  change (relay (logged_before pre st1)) with (relay st1).
  rewrite forward_all_logged_before. reflexivity.
Qed.

Lemma step_logged_before pre l st :
  step l (logged_before pre st)
  = option_map (logged_before pre) (step l st).
Proof.
  destruct l; [| | | apply step_read_logged_before | | |];
    destruct st as [r cc sc w s b m rc rp fw lg sn];
    unfold logged_before; simpl.
  - unfold step_main, Start, verbose; fields.
    destruct m; same_but_log.
    + destruct (Verbose (config r)); same_but_log.
    + destruct sc; same_but_log.
    + destruct (w =? 0); same_but_log.
  - unfold step_signal; fields. destruct m; same_but_log.
  - unfold step_recv, recv_return; fields.
    destruct rc; same_but_log.
    + destruct (make_bytes (BufferSize (config r))); same_but_log.
    + destruct sc; same_but_log.
    + destruct sc; same_but_log.
  - unfold step_tick, process_exited; fields.
    destruct m, rc, rp; same_but_log.
  - unfold step_reporter_stop, process_exited, rep_return; fields.
    destruct m, rc, rp; same_but_log; destruct sc; same_but_log.
  - unfold step_forward, process_exited; fields.
    destruct m, rc; same_but_log;
      (destruct (nth_error fw i) as [g|]; [|reflexivity]);
      destruct o; unfold forwardPacket, log_if_verbose, verbose;
      same_but_log;
      destruct (Verbose (config r)); same_but_log.
Qed.

Lemma run_logged_before pre ls : forall st,
  run ls (logged_before pre st) = option_map (logged_before pre) (run ls st).
Proof.
  induction ls as [|l ls IH]; intros st; simpl; [reflexivity|].
  rewrite step_logged_before.
  destruct (step l st) as [st1|]; simpl; [apply IH | reflexivity].
Qed.

Lemma created_logged_before r acts :
  created r acts = logged_before (construction_log acts) (init r).
Proof.
  unfold created, logged_before, add_log. simpl. now rewrite app_nil_r.
Qed.

(** X9.  [main] gets as far as [relay.Start()] exactly when [parseConfig]
    returns a configuration, each of its targets resolves, and the listen
    address resolves and binds.  The relay it starts then has that
    configuration and the resolved targets in the order of the flag, and
    starts with all counters at zero, nothing sent, no goroutine started,
    and a log that holds the warning of [NewRelay] if the receive buffer
    size could not be set, and nothing otherwise.  From there the relay
    runs as it runs from [init], with that log in front of what it logs. *)
Theorem main_starts_iff_ready :
  forall TrimSpace os f,
    ((exists acts st, main_boot TrimSpace os f = (acts, BootCreated st))
     <-> (exists cfg, parseConfig TrimSpace f = Parsed cfg
                      /\ construction_ready os cfg)) /\
    (forall acts st,
        main_boot TrimSpace os f = (acts, BootCreated st) ->
        exists cfg,
          parseConfig TrimSpace f = Parsed cfg /\
          config (relay st) = cfg /\
          map Some (targetConns (relay st))
          = map (ResolveUDPAddr os) (TargetAddrs cfg) /\
          stats st = Stats_zero /\
          log st = (if SetReadBuffer os (BufferSize cfg) then []
                    else [LogWarnReadBuffer]) /\
          sent st = [] /\ forwards st = [] /\ main_at st = MainCreated /\
          recv_at st = RcvNotStarted /\ rep_at st = RepNotStarted /\
          forall ls,
            run ls st
            = option_map (logged_before (log st))
                (run ls (init (relay st)))).
Proof.
  intros TrimSpace os f. split.
  - unfold main_boot. split.
    + intros (acts & st & H).
      destruct (parseConfig TrimSpace f) as [code|cfg]; [discriminate|].
      exists cfg. split; [reflexivity|].
      apply NewRelay_succeeds_iff.
      destruct (NewRelay os cfg) as [a [e|r]]; [discriminate|]. eauto.
    + intros (cfg & -> & Hr).
      apply NewRelay_succeeds_iff in Hr. destruct Hr as (acts & r & ->). eauto.
  - intros acts st H.
    destruct (main_boot_created _ _ _ _ _ H)
      as (cfg & r & Hp & HN & -> & Hc & Hm).
    exists cfg. unfold created. simpl.
    rewrite (NewRelay_construction_log _ _ _ _ HN).
    repeat (split; [auto|]).
    intros ls. rewrite <- (NewRelay_construction_log _ _ _ _ HN).
    change (add_log (construction_log acts) (init r)) with (created r acts).
    rewrite created_logged_before. apply run_logged_before.
Qed.

Lemma main_starts_iff_ready_witness :
  (exists acts st,
      main_boot Ex.trim Ex.os_ok
        (mkFlags 9999 "0.0.0.0" " 10.0.0.5:9999 , ,10.0.0.6:9999" 65535
                 false false)
      = (acts, BootCreated st)) /\
  (exists acts st,
      main_boot Ex.trim Ex.os_small_rcvbuf
        (mkFlags 9999 "0.0.0.0" "10.0.0.5:9999" 65535 false false)
      = (acts, BootCreated st) /\
      log st = [LogWarnReadBuffer]).
Proof.
  split.
  - apply (proj1 (main_starts_iff_ready Ex.trim Ex.os_ok _)).
    exists Ex.cfg2. split; [reflexivity|]. split.
    + intros target [<-|[<-|[]]]; discriminate.
    + exists Ex.L. split; reflexivity.
  - destruct (main_boot Ex.trim Ex.os_small_rcvbuf
                (mkFlags 9999 "0.0.0.0" "10.0.0.5:9999" 65535 false false))
      as [acts b] eqn:E.
    destruct b as [code|e|st]; [discriminate E | discriminate E |].
    exists acts, st. split; [reflexivity|].
    destruct (proj2 (main_starts_iff_ready Ex.trim Ex.os_small_rcvbuf _)
                _ _ E) as (cfg & _ & _ & _ & _ & Hlog & _).
    exact Hlog.
Defined.

(** ** Construction, call by call *)

(** X10.  [NewRelay] gives up at the first target that does not resolve:
    the error names that target, the targets behind it and the listen
    address are not even resolved, and no socket is bound. *)
Theorem NewRelay_stops_at_first_bad_target :
  forall os cfg before target after,
    TargetAddrs cfg = before ++ target :: after ->
    (forall t, In t before -> ResolveUDPAddr os t <> None) ->
    ResolveUDPAddr os target = None ->
    NewRelay os cfg
    = (map SysResolve before ++ [SysResolve target],
       inl (ErrResolveTarget target)).
Proof.
  intros os cfg before target after Ht Hb Hn.
  assert (H : forall acc,
             resolve_targets os (before ++ target :: after) acc
             = (map SysResolve before ++ [SysResolve target],
                inl (ErrResolveTarget target))).
  { clear Ht. induction before as [|t before IH]; intros acc; simpl.
    - now rewrite Hn.
    - destruct (ResolveUDPAddr os t) as [addr|] eqn:E.
      + rewrite IH; [reflexivity|]. intros t' Hin. apply Hb. now right.
      + exfalso. apply (Hb t); [now left | exact E]. }
  unfold NewRelay. now rewrite Ht, H.
Qed.

Lemma NewRelay_stops_at_first_bad_target_witness :
  NewRelay Ex.os_ok
    (mkConfig 9999 "0.0.0.0"
              ["10.0.0.5:9999"; "nowhere:1"; "10.0.0.6:9999"]%string
              65535 false false)
  = (map SysResolve ["10.0.0.5:9999"%string] ++ [SysResolve "nowhere:1"],
     inl (ErrResolveTarget "nowhere:1")).
Proof.
  apply (NewRelay_stops_at_first_bad_target Ex.os_ok _
           ["10.0.0.5:9999"%string] "nowhere:1"%string
           ["10.0.0.6:9999"%string]).
  - reflexivity.
  - intros t [<-|[]]. discriminate.
  - reflexivity.
Defined.

(** X11.  When construction succeeds, [NewRelay] has resolved every target
    once and in order, then the listen address, has bound one socket and
    has asked once for the receive buffer size; the relay holds one
    endpoint per target string, in the same order, and the socket has the
    configured receive buffer if the request succeeded. *)
Theorem NewRelay_success_call_by_call :
  forall os cfg acts r,
    NewRelay os cfg = (acts, inr r) ->
    exists laddr,
      ResolveUDPAddr os (format_listen (ListenAddr cfg) (ListenPort cfg))
      = Some laddr /\
      acts = map SysResolve (TargetAddrs cfg)
             ++ [SysResolve (format_listen (ListenAddr cfg) (ListenPort cfg));
                 SysListen laddr; SysSetReadBuffer (BufferSize cfg)]
             ++ (if SetReadBuffer os (BufferSize cfg) then []
                 else [SysWarnReadBuffer]) /\
      config r = cfg /\
      map Some (targetConns r) = map (ResolveUDPAddr os) (TargetAddrs cfg) /\
      conn_laddr (conn r) = laddr /\
      conn_rcvbuf (conn r)
      = if SetReadBuffer os (BufferSize cfg) then BufferSize cfg
        else default_rcvbuf os.
Proof.
  intros os cfg acts r H.
  destruct (NewRelay_ok_shape _ _ _ _ H) as (Hc & Hm).
  unfold NewRelay in H.
  destruct (resolve_targets os (TargetAddrs cfg) []) as [a [e|tc]] eqn:E;
    [discriminate|].
  destruct (resolve_targets_succeeds os (TargetAddrs cfg) [])
    as (addrs & E' & _).
  { eapply resolve_targets_inr; eauto. }
  rewrite E in E'. inversion E'; subst a tc; clear E'.
  destruct (ResolveUDPAddr os _) as [laddr|]; [|discriminate].
  exists laddr. split; [reflexivity|].
  destruct (ListenUDP os laddr); [|discriminate].
  destruct (SetReadBuffer os (BufferSize cfg)); inversion H; subst;
    simpl; repeat split; auto;
    match goal with
    | E2 : _ = r |- _ => rewrite <- E2 in Hm; exact Hm
    end.
Qed.

Lemma NewRelay_success_call_by_call_witness :
  exists laddr,
    ResolveUDPAddr Ex.os_ok
      (format_listen (ListenAddr Ex.cfg2) (ListenPort Ex.cfg2)) = Some laddr.
Proof.
  destruct (NewRelay Ex.os_ok Ex.cfg2) as [acts [e|r]] eqn:E;
    [discriminate E|].
  destruct (NewRelay_success_call_by_call _ _ _ _ E) as (laddr & H & _).
  exists laddr. exact H.
Defined.

(** ** A negative buffer size *)

Lemma make_bytes_negative n : n < 0 -> make_bytes n = None.
Proof.
  intros H. unfold make_bytes.
  destruct (Z.ltb_spec n 0); [reflexivity | lia].
Qed.

Lemma negative_buffer_stays_at_entry l st st' :
  BufferSize (config (relay st)) < 0 ->
  recv_at st = RcvNotStarted \/ recv_at st = RcvEntry ->
  step l st = Some st' ->
  (recv_at st' = RcvNotStarted \/ recv_at st' = RcvEntry)
  /\ is_received l = false.
Proof.
  intros Hb Hpc H. destruct l.
  - simpl in H. unfold step_main, Start, verbose in H.
    destruct (main_at st) eqn:Hm; try discriminate H.
    + revert H. fields.
      destruct (Verbose (config (relay st))); intros H; inversion H; subst;
        clear H; fields; auto.
    + inversion H; subst; clear H; fields; auto.
    + destruct (stopChan_closed st) eqn:Hsc; [discriminate|].
      inversion H; subst; clear H; fields; auto.
    + inversion H; subst; clear H; fields; auto.
    + destruct (wg st =? 0); [|discriminate].
      inversion H; subst; clear H; fields; auto.
    + inversion H; subst; clear H; fields; auto.
    + inversion H; subst; clear H; fields; auto.
  - simpl in H. unfold step_signal in H.
    destruct (main_at st) eqn:Hm; try discriminate H.
    inversion H; subst; clear H; fields; auto.
  - exfalso. simpl in H. unfold step_recv in H.
    destruct Hpc as [Hpc|Hpc]; rewrite Hpc in H; [discriminate|].
    rewrite (make_bytes_negative _ Hb) in H. discriminate.
  - exfalso. destruct (step_read_inv _ _ _ H) as [Hr _].
    destruct Hpc; congruence.
  - simpl in H. unfold step_tick in H.
    destruct (process_exited st); [discriminate|].
    destruct (rep_at st) eqn:Hrp; try discriminate H.
    inversion H; subst; clear H; fields; auto.
  - simpl in H. unfold step_reporter_stop, rep_return in H.
    destruct (process_exited st); [discriminate|].
    destruct (rep_at st) eqn:Hrp; try discriminate H.
    destruct (stopChan_closed st) eqn:Hsc; [|discriminate].
    inversion H; subst; clear H; fields; auto.
  - apply step_forward_spec in H.
    destruct H as (g & _ & _ & _ & _ & _ & _ & _ & _ & Hrc & _).
    rewrite Hrc. auto.
Qed.

Lemma negative_buffer_run r : forall ls st,
  BufferSize (config r) < 0 ->
  run ls (init r) = Some st ->
  (recv_at st = RcvNotStarted \/ recv_at st = RcvEntry)
  /\ count_received ls = 0.
Proof.
  induction ls as [|l ls IH] using rev_ind; intros st Hb H.
  - simpl in H. inversion H; subst. simpl. auto.
  - apply run_snoc in H. destruct H as (st1 & Hrun & Hstep).
    destruct (IH _ Hb Hrun) as (Hpc & Hc).
    destruct (negative_buffer_stays_at_entry l st1 st) as (Hpc' & Hl); auto.
    { now rewrite (run_relay _ _ _ Hrun). }
    split; [exact Hpc'|].
    rewrite count_received_app, Hc. unfold count_received. simpl.
    now rewrite Hl.
Qed.

(** X12.  Nothing checks the sign of [-buffer].  With a negative buffer
    size [NewRelay] still returns a relay whenever the addresses resolve
    and the bind succeeds, but the receive loop stops in [make] before its
    first read: no datagram is ever received and no forward is ever
    started. *)
Theorem negative_buffer_is_accepted_and_never_reads :
  forall os cfg,
    BufferSize cfg < 0 -> construction_ready os cfg ->
    exists acts r,
      NewRelay os cfg = (acts, inr r) /\
      forall ls st,
        run ls (init r) = Some st ->
        count_received ls = 0 /\
        PacketsReceived (stats st) = 0 /\
        forwards st = [] /\
        step LRecv st = None /\
        forall inp, step (LRead inp) st = None.
Proof.
  intros os cfg Hb Hready.
  apply NewRelay_succeeds_iff in Hready. destruct Hready as (acts & r & HN).
  exists acts, r. split; [exact HN|].
  destruct (NewRelay_ok_shape _ _ _ _ HN) as (Hc & _).
  intros ls st Hrun.
  assert (Hbr : BufferSize (config r) < 0) by now rewrite Hc.
  destruct (negative_buffer_run r ls st Hbr Hrun) as (Hpc & Hcount).
  destruct (run_accounts r ls st Hrun) as ((P1 & _) & _).
  cbn [totals PacketsReceived] in P1. rewrite Hcount in P1.
  pose proof (run_reachable_wf _ _ _ Hrun) as (_ & _ & _ & Hnone & _).
  split; [exact Hcount|]. split; [exact P1|]. split.
  { apply Hnone. destruct Hpc as [-> | ->]; reflexivity. }
  split.
  - simpl. unfold step_recv. destruct Hpc as [-> | ->]; [reflexivity|].
    rewrite (run_relay _ _ _ Hrun). simpl.
    now rewrite (make_bytes_negative _ Hbr).
  - intros inp. simpl. unfold step_read.
    destruct Hpc as [-> | ->]; reflexivity.
Qed.

Lemma negative_buffer_is_accepted_and_never_reads_witness :
  exists acts r,
    NewRelay Ex.os_small_rcvbuf
      (mkConfig 9999 "0.0.0.0" ["10.0.0.5:9999"%string] (-1) false false)
    = (acts, inr r).
Proof.
  destruct (negative_buffer_is_accepted_and_never_reads Ex.os_small_rcvbuf
              (mkConfig 9999 "0.0.0.0" ["10.0.0.5:9999"%string] (-1)
                        false false))
    as (acts & r & H & _).
  - reflexivity.
  - split.
    + intros target [<-|[]]. discriminate.
    + exists Ex.L. split; reflexivity.
  - exists acts, r. exact H.
Defined.

(** ** The stats line determines the counters *)

Lemma format_int_inj z1 z2 : format_int z1 = format_int z2 -> z1 = z2.
Proof.
  unfold format_int. intros H. apply DecimalZ.to_int_inj.
  assert (E : Some (Z.to_int z1) = Some (Z.to_int z2)).
  { rewrite <- (NilEmpty.isi (Z.to_int z1)), <- (NilEmpty.isi (Z.to_int z2)).
    now rewrite H. }
  now inversion E.
Qed.

Lemma string_of_uint_no_space d :
  has_char " " (NilEmpty.string_of_uint d) = false.
Proof. induction d; simpl; auto. Qed.

Lemma format_int_no_space z : has_char " " (format_int z) = false.
Proof.
  unfold format_int, NilEmpty.string_of_int.
  destruct (Z.to_int z); simpl; apply string_of_uint_no_space.
Qed.

Lemma append_inv_head (p a b : string) :
  (p ++ a)%string = (p ++ b)%string -> a = b.
Proof.
  induction p as [|c p IH]; simpl; intros H; [exact H|].
  inversion H. auto.
Qed.

(** Two texts cut at the first occurrence of [c] agree part by part. *)
Lemma append_sep_inj c : forall d1 d2 r1 r2,
  has_char c d1 = false -> has_char c d2 = false ->
  (d1 ++ String c r1)%string = (d2 ++ String c r2)%string ->
  d1 = d2 /\ r1 = r2.
Proof.
  induction d1 as [|x d1 IH]; intros [|y d2] r1 r2 H1 H2 H; simpl in *.
  - inversion H. auto.
  - inversion H; subst. rewrite Ascii.eqb_refl in H2. discriminate.
  - inversion H; subst. rewrite Ascii.eqb_refl in H1. discriminate.
  - inversion H; subst.
    apply orb_false_iff in H1, H2. destruct H1 as [_ H1], H2 as [_ H2].
    destruct (IH d2 r1 r2 H1 H2) as [-> ->]; auto.
Qed.

Lemma number_then_text z1 z2 (text r1 r2 : string) :
  (format_int z1 ++ String " " (text ++ r1))%string
  = (format_int z2 ++ String " " (text ++ r2))%string ->
  z1 = z2 /\ r1 = r2.
Proof.
  intros H.
  apply append_sep_inj in H; try apply format_int_no_space.
  destruct H as [Hz Hr]. split.
  - now apply format_int_inj.
  - now apply append_inv_head in Hr.
Qed.

(** X13.  The line that [Stats.String] prints determines the five
    counters: two different sets of counters never print the same line. *)
Theorem Stats_String_is_injective :
  forall s1 s2, Stats_String s1 = Stats_String s2 -> s1 = s2.
Proof.
  intros [a1 b1 c1 d1 e1] [a2 b2 c2 d2 e2]. unfold Stats_String. simpl.
  intros H.
  apply (append_inv_head "Received: ") in H.
  apply (number_then_text a1 a2 "packets (") in H. destruct H as [-> H].
  apply (number_then_text c1 c2 "bytes), Forwarded: ") in H.
  destruct H as [-> H].
  apply (number_then_text b1 b2 "packets (") in H. destruct H as [-> H].
  apply (number_then_text d1 d2 "bytes), Errors: ") in H.
  destruct H as [-> H].
  apply format_int_inj in H. now subst.
Qed.

(** The line of the counters after one datagram of four bytes relayed to
    one target. *)
Example Stats_String_example :
  Stats_String (mkStats 1 1 4 4 0)
  = "Received: 1 packets (4 bytes), Forwarded: 1 packets (4 bytes), Errors: 0"%string.
Proof. reflexivity. Qed.

Lemma Stats_String_is_injective_witness :
  AddForwarded (AddReceived Stats_zero 4) 4 = mkStats 1 1 4 4 0.
Proof. apply Stats_String_is_injective. vm_compute. reflexivity. Defined.

(** ** The final stats line *)

Lemma step_main_final st st' s :
  step LMain st = Some st' ->
  In (LogFinalStats s) (log st') ->
  stats st' = stats st /\
  (In (LogFinalStats s) (log st) \/ s = stats st).
Proof.
  simpl. unfold step_main, Start, verbose. intros H Hin.
  destruct (main_at st) eqn:Hm; try discriminate H.
  - revert H. fields.
    destruct (Verbose (config (relay st))); intros H; inversion H; subst;
      clear H; revert Hin; fields; intros Hin; split; auto;
      apply in_app_or in Hin; destruct Hin as [Hin|Hin]; auto;
      simpl in Hin; repeat (destruct Hin as [Hin|Hin]; try discriminate);
      contradiction.
  - inversion H; subst; clear H. revert Hin; fields; intros Hin.
    split; auto. apply in_app_or in Hin. destruct Hin as [Hin|Hin]; auto.
    simpl in Hin. repeat (destruct Hin as [Hin|Hin]; try discriminate).
    contradiction.
  - destruct (stopChan_closed st); [discriminate|].
    inversion H; subst; clear H. revert Hin; fields; auto.
  - inversion H; subst; clear H. revert Hin; fields; auto.
  - destruct (wg st =? 0); [|discriminate].
    inversion H; subst; clear H. revert Hin; fields; auto.
  - inversion H; subst; clear H. revert Hin; fields; intros Hin.
    split; auto. apply in_app_or in Hin. destruct Hin as [Hin|Hin]; auto.
    simpl in Hin. destruct Hin as [Hin|[]]. inversion Hin. auto.
  - inversion H; subst; clear H. revert Hin; fields; intros Hin.
    split; auto. apply in_app_or in Hin. destruct Hin as [Hin|Hin]; auto.
    simpl in Hin. repeat (destruct Hin as [Hin|Hin]; try discriminate).
    contradiction.
Qed.

Lemma step_other_final l st st' s :
  step l st = Some st' -> l <> LMain ->
  In (LogFinalStats s) (log st') -> In (LogFinalStats s) (log st).
Proof.
  intros H Hl Hin.
  destruct (step_may_log _ _ _ H) as (more & Hlog & Hmore).
  rewrite Hlog in Hin. apply in_app_or in Hin. destruct Hin as [Hin|Hin]; auto.
  rewrite Forall_forall in Hmore. specialize (Hmore _ Hin).
  destruct l as [| | |inp| | |i o]; try destruct o; simpl in Hmore;
    try discriminate. congruence.
Qed.

(** Once the receive loop has returned, the received counters stay. *)
Lemma received_counters_stay l st st' :
  wf st -> recv_at st = RcvDone -> step l st = Some st' ->
  PacketsReceived (stats st') = PacketsReceived (stats st) /\
  BytesReceived (stats st') = BytesReceived (stats st).
Proof.
  intros Hwf Hpc H.
  pose proof (step_accounts _ _ _ Hwf H) as (A1 & _ & A3 & _).
  destruct Hwf as ((R1 & _ & R3 & _) & _).
  assert (Hl : is_received l = false /\
               received_size (Z.to_nat (BufferSize (config (relay st)))) l = 0).
  { destruct l as [| | |inp| | |i o]; simpl; auto.
    destruct (step_read_inv _ _ _ H) as [Hr _]. congruence. }
  destruct Hl as [Hl1 Hl2]. rewrite Hl1 in A1. rewrite Hl2 in A3.
  simpl in A1. rewrite Z.add_0_r in A1, A3.
  rewrite A1, A3, !wrap_small by assumption. auto.
Qed.

Lemma final_line_received r : forall ls st s,
  run ls (init r) = Some st ->
  In (LogFinalStats s) (log st) ->
  PacketsReceived s = PacketsReceived (stats st) /\
  BytesReceived s = BytesReceived (stats st).
Proof.
  induction ls as [|l ls IH] using rev_ind; intros st s H Hin.
  - simpl in H. inversion H; subst. destruct Hin.
  - apply run_snoc in H. destruct H as (st1 & Hrun & Hstep).
    pose proof (run_reachable_wf _ _ _ Hrun) as Hwf.
    pose proof (lifecycle_reachable _ _ _ Hrun) as Hlc.
    assert (Hold : In (LogFinalStats s) (log st1) ->
                   PacketsReceived s = PacketsReceived (stats st) /\
                   BytesReceived s = BytesReceived (stats st)).
    { intros Hin1. destruct (IH _ _ Hrun Hin1) as (E1 & E2).
      assert (Hw : wait_returned (main_at st1) = true).
      { destruct Hlc as (_ & _ & _ & _ & _ & _ & L7).
        apply in_final_stats_existsb in Hin1. rewrite L7 in Hin1.
        destruct (main_at st1); simpl in *; congruence. }
      destruct (lifecycle_after_wait _ Hlc Hw) as (Hpc & _).
      destruct (received_counters_stay _ _ _ Hwf Hpc Hstep) as (-> & ->).
      auto. }
    destruct l;
      try (apply Hold; eapply step_other_final; eauto; discriminate).
    destruct (step_main_final _ _ _ Hstep Hin) as (Est & [Hin1| ->]).
    + now apply Hold.
    + now rewrite Est.
Qed.

(** X14.  The final stats line that [Stop] logs is final for the received
    counters: nothing is received after it.  It is not final for the
    forwarded counters: [Stop] does not wait for the forwards, and one that
    is still pending when the line is written can run, and be counted,
    before [Stop] returns. *)
Theorem final_stats_line_is_final_for_received_only :
  (forall r ls st s,
      run ls (init r) = Some st ->
      In (LogFinalStats s) (log st) ->
      PacketsReceived s = PacketsReceived (stats st) /\
      BytesReceived s = BytesReceived (stats st)) /\
  (exists st s,
      run forward_after_final_stats (init Ex.relay1) = Some st /\
      main_at st = StopLogStopped /\
      In (LogFinalStats s) (log st) /\
      PacketsForwarded s = 0 /\ PacketsForwarded (stats st) = 1 /\
      sent st = [(Ex.T1, Ex.AAAA)]).
Proof.
  split.
  - intros r ls st s. apply final_line_received.
  - exists (state_after forward_after_final_stats (init Ex.relay1)).
    exists (mkStats 1 0 4 0 0).
    split; [apply state_after_run; vm_compute; reflexivity|].
    split; [vm_compute; reflexivity|].
    split; [vm_compute; tauto|].
    repeat split; vm_compute; reflexivity.
Qed.

Lemma final_stats_line_is_final_for_received_only_witness :
  PacketsReceived (mkStats 1 0 4 0 0)
  = PacketsReceived
      (stats (state_after stop_with_pending_forward (init Ex.relay1))).
Proof.
  destruct final_stats_line_is_final_for_received_only as (H & _).
  apply (H Ex.relay1 stop_with_pending_forward
           (state_after stop_with_pending_forward (init Ex.relay1))
           (mkStats 1 0 4 0 0)).
  - apply state_after_run. vm_compute. reflexivity.
  - vm_compute. tauto.
Defined.

(** ** The wait group and the stop channel *)

(** X15.  The shutdown path cannot panic: the wait group counter is never
    negative and at most 2, it is at least 1 whenever a loop is still to
    call [Done], and the stop channel is still open when [Stop] closes
    it. *)
Theorem wait_group_and_channel_are_used_safely :
  forall r ls st,
    run ls (init r) = Some st ->
    0 <= wg st <= 2 /\
    (recv_alive (recv_at st) = true -> 1 <= wg st) /\
    (rep_alive (rep_at st) = true -> 1 <= wg st) /\
    (main_at st = StopCloseChan -> stopChan_closed st = false) /\
    (started (main_at st) = false -> wg st = 0).
Proof.
  intros r ls st Hrun.
  pose proof (lifecycle_reachable _ _ _ Hrun) as (L1 & L2 & _ & L4 & L5 & _).
  pose proof (b2z_nonneg (recv_alive (recv_at st))) as N1.
  pose proof (b2z_nonneg (rep_alive (rep_at st))) as N2.
  assert (B1 : b2z (recv_alive (recv_at st)) <= 1)
    by (destruct (recv_alive (recv_at st)); simpl; lia).
  assert (B2 : b2z (rep_alive (rep_at st)) <= 1)
    by (destruct (rep_alive (rep_at st)); simpl; lia).
  split; [lia|]. split; [|split; [|split]].
  - intros E. rewrite E in L1. cbn [b2z] in L1. lia.
  - intros E. rewrite E in L1. cbn [b2z] in L1. lia.
  - intros E. now rewrite L2, E.
  - intros E. rewrite E in L4, L5. simpl in L5.
    destruct (recv_at st); try discriminate L4.
    destruct (rep_at st); try discriminate L5.
    cbn [recv_alive rep_alive b2z] in L1. lia.
Qed.

Lemma wait_group_and_channel_are_used_safely_witness :
  0 <= wg (state_after late_forward (init Ex.relay1)) <= 2.
Proof.
  apply (wait_group_and_channel_are_used_safely Ex.relay1 late_forward).
  apply state_after_run. vm_compute. reflexivity.
Defined.

(** ** The end of the process *)

Lemma no_step_after_exit st :
  process_exited st = true -> forall l, step l st = None.
Proof.
  intros He l. pose proof He as H. unfold process_exited in H.
  destruct (main_at st) eqn:Hm; try discriminate H.
  destruct (recv_at st) eqn:Hrc; try discriminate H.
  destruct l; simpl.
  - unfold step_main. now rewrite Hm.
  - unfold step_signal. now rewrite Hm.
  - unfold step_recv. now rewrite Hrc.
  - unfold step_read. now rewrite Hrc.
  - unfold step_tick. now rewrite He.
  - unfold step_reporter_stop. now rewrite He.
  - unfold step_forward. now rewrite He.
Qed.

Lemma run_of_no_step ls : forall st st',
  (forall l, step l st = None) -> run ls st = Some st' -> ls = [].
Proof.
  destruct ls as [|l ls]; intros st st' Hno H; [reflexivity|].
  simpl in H. rewrite Hno in H. discriminate.
Qed.

(** X16.  When [Stop] has returned, [main] returns and the process ends:
    no goroutine takes another step.  A forward that is still pending then
    never writes: in the run [stop_with_pending_forward] the datagram is
    received and counted, its forward is started, and nothing is ever
    sent. *)
Theorem pending_forwards_are_lost_at_exit :
  (forall r ls st,
      run ls (init r) = Some st -> main_at st = MainDone ->
      forall l, step l st = None) /\
  (exists st,
      run stop_with_pending_forward (init Ex.relay1) = Some st /\
      PacketsReceived (stats st) = 1 /\
      forwards st = [mkGo (mkSlice 4) Ex.T1] /\
      forall ls st',
        run ls st = Some st' -> ls = [] /\ sent st' = []).
Proof.
  assert (Hall : forall r ls st,
             run ls (init r) = Some st -> main_at st = MainDone ->
             forall l, step l st = None).
  { intros r ls st Hrun Hm. apply no_step_after_exit.
    apply (exited_iff_main_done st); [|exact Hm].
    eapply lifecycle_reachable; eauto. }
  split; [exact Hall|].
  exists (state_after stop_with_pending_forward (init Ex.relay1)).
  assert (Hrun : run stop_with_pending_forward (init Ex.relay1)
                 = Some (state_after stop_with_pending_forward
                           (init Ex.relay1)))
    by (apply state_after_run; vm_compute; reflexivity).
  split; [exact Hrun|].
  split; [vm_compute; reflexivity|].
  split; [vm_compute; reflexivity|].
  intros ls st' H.
  assert (Hls : ls = []).
  { eapply run_of_no_step; [|exact H].
    apply (Hall _ _ _ Hrun). vm_compute. reflexivity. }
  subst ls. simpl in H. inversion H; subst st'.
  split; [reflexivity|]. vm_compute. reflexivity.
Qed.

Lemma pending_forwards_are_lost_at_exit_witness :
  step (LForward 0 WriteSucceeds)
       (state_after stop_with_pending_forward (init Ex.relay1))
  = None.
Proof.
  destruct pending_forwards_are_lost_at_exit as (H & _).
  apply (H Ex.relay1 stop_with_pending_forward).
  - apply state_after_run. vm_compute. reflexivity.
  - vm_compute. reflexivity.
Defined.
